(** * Team Crossword

    A shallow embedding of the crossword core of [varunrau/team-crossword]:
    the [.puz] decoder and grid model ([lib/puz.ts], function [parsePuz]) and
    the solving session of the [Crossword] component (navigation, editing,
    checking and scoring handlers).  Modelled besides: the earlier revision
    of [parsePuz], what the component shows (cell numbers, highlights, clue
    lists) and its teams panel.

    JavaScript numbers that hold indices and counts are [nat]; the one place
    where a negative number can flow in ([goToClue]'s clue index) uses [Z] and
    JavaScript's truncated remainder [Z.rem].  Arrays are lists, the
    [Uint8Array] of the file is a [list byte], [Map]s are [gmap]s. *)

From Stdlib Require Import ZArith Lia List String Ascii Bool Arith.
From Stdlib.Strings Require Import Byte.
From stdpp Require Import base gmap list strings.

Local Open Scope nat_scope.

(** ** The fragments of the JavaScript runtime the program relies on *)

Module Js.

(** [String.prototype.toUpperCase] on strings of 8-bit code units: [a-z]
    and the Latin-1 lower-case letters move down by 32, the sharp s becomes
    two letters.  The micro sign (0xB5) and y-diaeresis (0xFF), whose upper
    case lies outside Latin-1, are left as they are: user letters are always
    [A-Z] and no property below looks at such solution bytes. *)
Definition upperCode (n : nat) : nat :=
  if ((97 <=? n) && (n <=? 122)) || ((224 <=? n) && (n <=? 254) && negb (n =? 247))
  then n - 32 else n.

Fixpoint toUpperCase (s : string) : string :=
  match s with
  | EmptyString => EmptyString
  | String a s' =>
      if nat_of_ascii a =? 223
      then String "S" (String "S" (toUpperCase s'))
      else String (ascii_of_nat (upperCode (nat_of_ascii a))) (toUpperCase s')
  end.

(** [String.fromCharCode] of one byte. *)
Definition fromCharCode (b : byte) : string := String (ascii_of_byte b) EmptyString.

(** [new TextDecoder("latin1").decode]: one code unit per byte.  (Browsers
    remap 0x80-0x9F through the windows-1252 table; the decoded text is
    only stored and compared with itself.) *)
Definition decodeLatin1 (bs : list byte) : string := string_of_list_byte bs.

(** [arr.slice(from, to)] *)
Definition slice {A} (l : list A) (from to : nat) : list A :=
  take (to - from) (drop from l).

(** [copy[i] = v] on a fresh copy of an array.  Inside the array it replaces
    the element; past the end JavaScript grows the array, the gap reading as
    [undefined], which [hole] stands for. *)
Definition arraySet {A} (hole : A) (l : list A) (i : nat) (v : A) : list A :=
  if i <? length l then <[i:=v]> l
  else l ++ replicate (i - length l) hole ++ [v].

(** [s.replace(/[^A-Z]/g, "")] *)
Definition isAZ (a : ascii) : bool :=
  let n := nat_of_ascii a in (65 <=? n) && (n <=? 90).

Fixpoint keepAZ (s : string) : string :=
  match s with
  | EmptyString => EmptyString
  | String a s' => if isAZ a then String a (keepAZ s') else keepAZ s'
  end.

(** [s.slice(0, 1)] *)
Definition firstChar (s : string) : string :=
  match s with
  | EmptyString => EmptyString
  | String a _ => String a EmptyString
  end.

Definition isEmpty (s : string) : bool :=
  match s with EmptyString => true | _ => false end.

End Js.

(** ** lib/puz.ts *)

Module Puz.

Record Cell := mkCell {
  row : nat;
  col : nat;
  index : nat;
  isBlock : bool;
  solution : string
}.

Record ClueEntry := mkEntry {
  number : nat;
  clue : string;
  cells : list Cell
}.

Inductive ClueOrder := across_down | down_across | interleaved_ad | interleaved_da.

Record ParsedPuz := mkPuz {
  width : nat;
  height : nat;
  title : string;
  author : string;
  copyright : string;
  grid : list Cell;
  cluesRaw : list string;
  across : list ClueEntry;
  down : list ClueEntry;
  clueOrder : ClueOrder
}.

(** [clueOrder?] of the options.  The type admits the four orders only;
    any other string (the caller passes a URL parameter through [as any])
    would match no branch of the assignment and leave every clue empty. *)
Record ParseOptions := mkOpts { optClueOrder : option ClueOrder }.

(** The ways [parsePuz] throws.  The three [Error]s it raises itself are
    named after their messages; [RangeError] is what [DataView] raises when
    a header read falls outside the buffer. *)
Inductive PuzError :=
| RangeError
| MissingDimensions    (* "Invalid .puz: missing width/height" *)
| TruncatedGrid        (* "Invalid .puz: truncated grid data" *)
| UnterminatedString.  (* "Invalid .puz: unterminated string" *)

Inductive result (A : Type) :=
| Ok (a : A)
| Err (e : PuzError).
Arguments Ok {A} a.
Arguments Err {A} e.

#[global] Instance result_ret : MRet result := fun A a => Ok a.
#[global] Instance result_bind : MBind result := fun A B f m =>
  match m with
  | Ok a => f a
  | Err e => Err e
  end.

Definition OFFSET_WIDTH : nat := 44.      (* 0x2c *)
Definition OFFSET_HEIGHT : nat := 45.     (* 0x2d *)
Definition OFFSET_NUM_CLUES : nat := 46.  (* 0x2e, two bytes, little endian *)
Definition OFFSET_SOLUTION : nat := 52.   (* 0x34 *)

Definition getUint8 (bytes : list byte) (off : nat) : result nat :=
  match bytes !! off with
  | Some b => Ok (Byte.to_nat b)
  | None => Err RangeError
  end.

Definition getUint16 (bytes : list byte) (off : nat) : result nat :=
  match bytes !! off, bytes !! (S off) with
  | Some lo, Some hi => Ok (Byte.to_nat lo + 256 * Byte.to_nat hi)
  | _, _ => Err RangeError
  end.

Definition isNul (b : byte) : bool :=
  match b with x00 => true | _ => false end.

(** [while (cursor < bytes.length && bytes[cursor] !== 0) cursor++], run on
    the bytes from [cursor] on. *)
Fixpoint skipToNul (rest : list byte) (cursor : nat) : nat :=
  match rest with
  | [] => cursor
  | b :: rest' => if isNul b then cursor else skipToNul rest' (S cursor)
  end.

(** Returns the string and the cursor after its terminator. *)
Definition readNullTerminated (bytes : list byte) (cursor : nat) : result (string * nat) :=
  let start := cursor in
  let cursor := skipToNul (drop cursor bytes) cursor in
  if length bytes <=? cursor then Err UnterminatedString
  else Ok (Js.decodeLatin1 (Js.slice bytes start cursor), S cursor).

(** [for (let i = 0; i < numClues; i++) cluesRaw.push(readNullTerminated())] *)
Fixpoint readClues (bytes : list byte) (numClues cursor : nat) (cluesRaw : list string)
  : result (list string * nat) :=
  match numClues with
  | 0 => Ok (cluesRaw, cursor)
  | S n =>
      '(c, cursor) ← readNullTerminated bytes cursor;
      readClues bytes n cursor (cluesRaw ++ [c])
  end.

(** Build cell grid *)
Definition buildCell (width : nat) (solBytes : list byte) (i : nat) : Cell :=
  let ch := Js.fromCharCode (default x00 (solBytes !! i)) in
  let isBlock := String.eqb ch "." in
  {| row := i / width;
     col := i mod width;
     index := i;
     isBlock := isBlock;
     solution := if isBlock then "."%string else Js.toUpperCase ch |}.

Definition buildGrid (width gridSize : nat) (solBytes : list byte) : list Cell :=
  map (buildCell width solBytes) (seq 0 gridSize).

(** Placeholder read for a grid index that does not exist; every read below
    is guarded by the bounds test of [isBlockAt] or by the loop bounds. *)
Definition noCell : Cell :=
  {| row := 0; col := 0; index := 0; isBlock := true; solution := "."%string |}.

Definition cellAt (grid : list Cell) (i : nat) : Cell := nth i grid noCell.

Section Scan.
Variables (width height : nat) (grid : list Cell).

(** Coordinates are naturals: the [r < 0] and [c < 0] tests of the source
    are the callers' [c === 0 ||] and [r === 0 ||] short circuits. *)
Definition isBlockAt (r c : nat) : bool :=
  if (height <=? r) || (width <=? c) then true
  else isBlock (cellAt grid (r * width + c)).

(** [while (cc < width && !isBlockAt(r, cc)) { cells.push(...); cc++ }] *)
Fixpoint acrossRun (fuel r cc : nat) : list Cell :=
  match fuel with
  | 0 => []
  | S fuel =>
      if (cc <? width) && negb (isBlockAt r cc)
      then cellAt grid (r * width + cc) :: acrossRun fuel r (S cc)
      else []
  end.

(** [while (rr < height && !isBlockAt(rr, c)) { cells.push(...); rr++ }] *)
Fixpoint downRun (fuel rr c : nat) : list Cell :=
  match fuel with
  | 0 => []
  | S fuel =>
      if (rr <? height) && negb (isBlockAt rr c)
      then cellAt grid (rr * width + c) :: downRun fuel (S rr) c
      else []
  end.

(** The loops leave once [cc] reaches [width] ([rr] reaches [height]). *)
Definition acrossCells (r c : nat) : list Cell := acrossRun (width - c) r c.
Definition downCells (r c : nat) : list Cell := downRun (height - r) r c.

Record Start := mkStart {
  startNumber : nat;
  startsAcross : bool;
  startsDown : bool;
  acrossIndex : option nat;
  downIndex : option nat
}.

Record ScanState := mkScan {
  scAcross : list ClueEntry;
  scDown : list ClueEntry;
  scStarts : list Start;
  nextNum : nat
}.

Definition scanInit : ScanState :=
  {| scAcross := []; scDown := []; scStarts := []; nextNum := 1 |}.

Definition startsAcrossAt (r c : nat) : bool := (c =? 0) || isBlockAt r (c - 1).
Definition startsDownAt (r c : nat) : bool := (r =? 0) || isBlockAt (r - 1) c.

(** The body of the two nested [for] loops. *)
Definition scanCell (st : ScanState) (r c : nat) : ScanState :=
  let idx := r * width + c in
  if isBlock (cellAt grid idx) then st
  else
    let sa := startsAcrossAt r c in
    let sd := startsDownAt r c in
    if negb sa && negb sd then st
    else
      let num := nextNum st in
      let across' :=
        if sa then scAcross st ++ [mkEntry num "" (acrossCells r c)] else scAcross st in
      let down' :=
        if sd then scDown st ++ [mkEntry num "" (downCells r c)] else scDown st in
      let s := {| startNumber := num; startsAcross := sa; startsDown := sd;
                  acrossIndex := if sa then Some (length (scAcross st)) else None;
                  downIndex := if sd then Some (length (scDown st)) else None |} in
      {| scAcross := across'; scDown := down';
         scStarts := scStarts st ++ [s]; nextNum := S num |}.

Definition scanRow (st : ScanState) (r : nat) : ScanState :=
  foldl (fun st c => scanCell st r c) st (seq 0 width).

Definition scan : ScanState := foldl scanRow scanInit (seq 0 height).
End Scan.

(** *** Clue assignment *)

Definition setClue (c : string) (e : ClueEntry) : ClueEntry :=
  {| number := number e; clue := c; cells := cells e |}.

Record Assign := mkAssign {
  asAcross : list ClueEntry;
  asDown : list ClueEntry;
  clueIdx : nat
}.

Section Take.
Variable cluesRaw : list string.

(** [take = () => (clueIdx < cluesRaw.length ? cluesRaw[clueIdx++] : "")] *)
Definition take_ (clueIdx : nat) : string * nat :=
  match cluesRaw !! clueIdx with
  | Some c => (c, S clueIdx)
  | None => (""%string, clueIdx)
  end.

(** [across[i].clue = take()] and [down[i].clue = take()] *)
Definition takeAcross (a : Assign) (i : nat) : Assign :=
  let '(c, k) := take_ (clueIdx a) in
  {| asAcross := alter (setClue c) i (asAcross a); asDown := asDown a; clueIdx := k |}.

Definition takeDown (a : Assign) (i : nat) : Assign :=
  let '(c, k) := take_ (clueIdx a) in
  {| asAcross := asAcross a; asDown := alter (setClue c) i (asDown a); clueIdx := k |}.

Definition allAcross (a : Assign) : Assign :=
  foldl takeAcross a (seq 0 (length (asAcross a))).

Definition allDown (a : Assign) : Assign :=
  foldl takeDown a (seq 0 (length (asDown a))).

(** [if (s.startsAcross && s.acrossIndex != null) across[s.acrossIndex].clue = take()] *)
Definition startAcross (a : Assign) (s : Start) : Assign :=
  match startsAcross s, acrossIndex s with
  | true, Some i => takeAcross a i
  | _, _ => a
  end.

Definition startDown (a : Assign) (s : Start) : Assign :=
  match startsDown s, downIndex s with
  | true, Some i => takeDown a i
  | _, _ => a
  end.

Definition assignClues (order : ClueOrder) (starts : list Start) (a : Assign) : Assign :=
  match order with
  | across_down => allDown (allAcross a)
  | down_across => allAcross (allDown a)
  | interleaved_ad => foldl (fun a s => startDown (startAcross a s) s) a starts
  | interleaved_da => foldl (fun a s => startAcross (startDown a s) s) a starts
  end.
End Take.

(** The tail of [parsePuz]: entries and numbers from the grid in one scan,
    then the clues handed out in the requested order. *)
Definition buildEntries (width height : nat) (grid : list Cell)
           (cluesRaw : list string) (order : ClueOrder) : Assign :=
  let sc := scan width height grid in
  assignClues cluesRaw order (scStarts sc)
    {| asAcross := scAcross sc; asDown := scDown sc; clueIdx := 0 |}.

(** *** The decoder *)

Definition parsePuz (bytes : list byte) (opts : ParseOptions) : result ParsedPuz :=
  width ← getUint8 bytes OFFSET_WIDTH;
  height ← getUint8 bytes OFFSET_HEIGHT;
  numClues ← getUint16 bytes OFFSET_NUM_CLUES;
  if (width =? 0) || (height =? 0) then Err MissingDimensions
  else
    let gridSize := width * height in
    let OFFSET_FILL := OFFSET_SOLUTION + gridSize in
    if length bytes <? OFFSET_FILL + gridSize then Err TruncatedGrid
    else
      let solBytes := Js.slice bytes OFFSET_SOLUTION (OFFSET_SOLUTION + gridSize) in
      let cursor := OFFSET_FILL + gridSize in
      '(title, cursor) ← readNullTerminated bytes cursor;
      '(author, cursor) ← readNullTerminated bytes cursor;
      '(copyright, cursor) ← readNullTerminated bytes cursor;
      '(cluesRaw, cursor) ← readClues bytes numClues cursor [];
      let grid := buildGrid width gridSize solBytes in
      let order := default interleaved_ad (optClueOrder opts) in
      let a := buildEntries width height grid cluesRaw order in
      Ok {| width := width; height := height;
            title := title; author := author; copyright := copyright;
            grid := grid; cluesRaw := cluesRaw;
            across := asAcross a; down := asDown a;
            clueOrder := order |}.

End Puz.

(** ** components/Crossword/Crossword.tsx *)

Module Crossword.

Inductive Mode := Across | Down.

Inductive CellStatus := unchecked | correct | incorrect.

Record Team := mkTeam {
  id : nat;
  name : string;
  color : string
}.

(** The component's React state that the handlers read and write. *)
Record State := mkState {
  puz : option Puz.ParsedPuz;
  cells : list string;              (* user-entered letters per cell *)
  status : list CellStatus;
  owners : list (option nat);       (* which team entered the cell *)
  mode : Mode;
  activeIndex : option nat;
  teams : list Team;
  selectedTeamId : option nat
}.

Definition setMode (m : Mode) (st : State) : State :=
  mkState (puz st) (cells st) (status st) (owners st) m (activeIndex st)
          (teams st) (selectedTeamId st).

(** [focusCell(i); setActiveIndex(i)]: focusing an input also reports [i]
    through its [onFocus]. *)
Definition setActiveIndex (i : nat) (st : State) : State :=
  mkState (puz st) (cells st) (status st) (owners st) (mode st) (Some i)
          (teams st) (selectedTeamId st).

Definition setCells (f : list string → list string) (st : State) : State :=
  mkState (puz st) (f (cells st)) (status st) (owners st) (mode st) (activeIndex st)
          (teams st) (selectedTeamId st).

Definition setStatus (f : list CellStatus → list CellStatus) (st : State) : State :=
  mkState (puz st) (cells st) (f (status st)) (owners st) (mode st) (activeIndex st)
          (teams st) (selectedTeamId st).

Definition setOwners (f : list (option nat) → list (option nat)) (st : State) : State :=
  mkState (puz st) (cells st) (status st) (f (owners st)) (mode st) (activeIndex st)
          (teams st) (selectedTeamId st).

(** A hole of [cells] reads as the empty string ([cells[i] || ""]), a hole
    of [status] is no mark, a hole of [owners] is no owner ([!= null]). *)
Definition clearCell (i : nat) (st : State) : State :=
  setOwners (fun prev => Js.arraySet None prev i None)
    (setStatus (fun prev => Js.arraySet unchecked prev i unchecked)
       (setCells (fun prev => Js.arraySet ""%string prev i ""%string) st)).

(** [cells[i] || ""] *)
Definition cellValue (cells : list string) (i : nat) : string :=
  default ""%string (cells !! i).

(** [status[i] === "correct"] *)
Definition isLocked (status : list CellStatus) (i : nat) : bool :=
  match status !! i with
  | Some correct => true
  | _ => false
  end.

(** [!puz.grid[i].isBlock]; the handlers read the grid at indices inside
    it. *)
Definition isOpen (p : Puz.ParsedPuz) (i : nat) : bool :=
  negb (Puz.isBlock (Puz.cellAt (Puz.grid p) i)).

(** *** Cell-to-entry maps *)

Definition cellToEntry (entries : list Puz.ClueEntry) : gmap nat nat :=
  foldl (fun m '(i, entry) =>
           foldl (fun m cell => <[Puz.index cell := i]> m) m (Puz.cells entry))
        ∅ (imap pair entries).

Definition cellToAcross (p : Puz.ParsedPuz) : gmap nat nat := cellToEntry (Puz.across p).
Definition cellToDown (p : Puz.ParsedPuz) : gmap nat nat := cellToEntry (Puz.down p).

(** *** goToClue *)

Definition entriesOf (p : Puz.ParsedPuz) (dir : Mode) : list Puz.ClueEntry :=
  match dir with
  | Across => Puz.across p
  | Down => Puz.down p
  end.

(** [((clueIndex % arr.length) + arr.length) % arr.length], with
    JavaScript's sign-following remainder. *)
Definition normIndex (clueIndex : Z) (len : nat) : Z :=
  Z.rem (Z.rem clueIndex (Z.of_nat len) + Z.of_nat len) (Z.of_nat len).

Definition goToClue (dir : Mode) (clueIndex : Z) (st : State) : State :=
  match puz st with
  | None => st
  | Some p =>
      let arr := entriesOf p dir in
      if length arr =? 0 then st
      else
        match arr !! Z.to_nat (normIndex clueIndex (length arr)) with
        | Some target =>
            match Puz.cells target with
            | first :: _ => setActiveIndex (Puz.index first) (setMode dir st)
            | [] => st
            end
        | None => st
        end
  end.

(** *** Loading a file *)

Definition onFile (bytes : list byte) (opts : Puz.ParseOptions) (st : State) : State :=
  match Puz.parsePuz bytes opts with
  | Puz.Err _ => st
  | Puz.Ok parsed =>
      mkState (Some parsed)
              (map (fun _ => ""%string) (Puz.grid parsed))
              (map (fun _ => unchecked) (Puz.grid parsed))
              (map (fun _ => None) (Puz.grid parsed))
              (mode st) (activeIndex st) (teams st) (selectedTeamId st)
  end.

(** *** checkPuzzle *)

Definition checkCell (p : Puz.ParsedPuz) (cells : list string) (i : nat) : CellStatus :=
  let cell := Puz.cellAt (Puz.grid p) i in
  if Puz.isBlock cell then unchecked
  else
    let val := Js.toUpperCase (cellValue cells i) in
    if Js.isEmpty val then unchecked
    else if String.eqb val (Puz.solution cell) then correct
    else incorrect.

Definition checkPuzzle (st : State) : State :=
  match puz st with
  | None => st
  | Some p =>
      let size := Puz.width p * Puz.height p in
      setStatus (fun _ => map (checkCell p (cells st)) (seq 0 size)) st
  end.

(** *** onCellChange *)

Definition nextOpenAfter (p : Puz.ParsedPuz) (m : Mode) (idx : nat) : nat :=
  let w := Puz.width p in
  let h := Puz.height p in
  let r := idx / w in
  let c := idx mod w in
  match m with
  | Across =>
      match List.find (fun nc => isOpen p (r * w + nc)) (seq (S c) (w - S c)) with
      | Some nc => r * w + nc
      | None => idx
      end
  | Down =>
      match List.find (fun nr => isOpen p (nr * w + c)) (seq (S r) (h - S r)) with
      | Some nr => nr * w + c
      | None => idx
      end
  end.

Definition onCellChange (idx : nat) (value : string) (st : State) : State :=
  if isLocked (status st) idx then st
  else
    let v := Js.keepAZ (Js.toUpperCase value) in
    let st1 := setCells (fun prev => Js.arraySet ""%string prev idx (Js.firstChar v)) st in
    let st2 := setOwners (fun prev =>
                 Js.arraySet None prev idx
                   (if Js.isEmpty v then None else selectedTeamId st)) st1 in
    let st3 := setStatus (fun prev =>
                 match prev !! idx with
                 | Some incorrect =>
                     Js.arraySet unchecked prev idx
                       (if Js.isEmpty (Js.firstChar v) then unchecked else incorrect)
                 | _ => prev
                 end) st2 in
    match puz st with
    | Some p =>
        if Js.isEmpty v then st3
        else
          let nextIndex := nextOpenAfter p (mode st) idx in
          if nextIndex =? idx then st3 else setActiveIndex nextIndex st3
    | None => st3
    end.

(** *** onCellKeyDown *)

Inductive Key :=
| Tab | Space
| ArrowRight | ArrowLeft | ArrowDown | ArrowUp
| Backspace | Delete
| Letter (a : ascii)     (* a single character matching [a-zA-Z] *)
| OtherKey.

Definition isEditKey (k : Key) : bool :=
  match k with
  | Backspace | Delete | Letter _ => true
  | _ => false
  end.

Definition move (p : Puz.ParsedPuz) (nr nc : nat) (st : State) : State :=
  let w := Puz.width p in
  let h := Puz.height p in
  if (h <=? nr) || (w <=? nc) then st
  else
    let nidx := nr * w + nc in
    if Puz.isBlock (Puz.cellAt (Puz.grid p) nidx) then st
    else setActiveIndex nidx st.

(** [for (let n = from - 1; n >= 0; n--)]: the candidates in visiting order *)
Definition downFrom (from : nat) : list nat := rev (seq 0 from).

Definition onTab (p : Puz.ParsedPuz) (idx : nat) (st : State) : State :=
  match mode st with
  | Across =>
      let iAcross := default 0 (cellToAcross p !! idx) in
      let next := iAcross + 1 in
      if next <? length (Puz.across p) then goToClue Across (Z.of_nat next) st
      else goToClue Down 0%Z st
  | Down =>
      let iDown := default 0 (cellToDown p !! idx) in
      let next := iDown + 1 in
      if next <? length (Puz.down p) then goToClue Down (Z.of_nat next) st
      else goToClue Across 0%Z st
  end.

Definition onBackspace (p : Puz.ParsedPuz) (idx : nat) (st : State) : State :=
  let w := Puz.width p in
  let r := idx / w in
  let c := idx mod w in
  if Js.isEmpty (cellValue (cells st) idx) then
    match mode st with
    | Across =>
        match List.find (fun nc => isOpen p (r * w + nc)) (downFrom c) with
        | Some nc => clearCell (r * w + nc) (setActiveIndex (r * w + nc) st)
        | None => st
        end
    | Down =>
        match List.find (fun nr => isOpen p (nr * w + c)) (downFrom r) with
        | Some nr => clearCell (nr * w + c) (setActiveIndex (nr * w + c) st)
        | None => st
        end
    end
  else st.

Definition onCellKeyDown (idx : nat) (key : Key) (st : State) : State :=
  match puz st with
  | None => st
  | Some p =>
      let w := Puz.width p in
      let h := Puz.height p in
      let r := idx / w in
      let c := idx mod w in
      if isLocked (status st) idx && isEditKey key then st
      else
        match key with
        | Space => setMode (match mode st with Across => Down | Down => Across end) st
        | Tab => onTab p idx st
        | ArrowRight =>
            let st := setMode Across st in
            match List.find (fun nc => isOpen p (r * w + nc)) (seq (S c) (w - S c)) with
            | Some nc => move p r nc st
            | None => st
            end
        | ArrowLeft =>
            let st := setMode Across st in
            match List.find (fun nc => isOpen p (r * w + nc)) (downFrom c) with
            | Some nc => move p r nc st
            | None => st
            end
        | ArrowDown =>
            let st := setMode Down st in
            match List.find (fun nr => isOpen p (nr * w + c)) (seq (S r) (h - S r)) with
            | Some nr => move p nr c st
            | None => st
            end
        | ArrowUp =>
            let st := setMode Down st in
            match List.find (fun nr => isOpen p (nr * w + c)) (downFrom r) with
            | Some nr => move p nr c st
            | None => st
            end
        | Backspace => onBackspace p idx st
        | Delete => if isLocked (status st) idx then st else clearCell idx st
        | Letter _ | OtherKey => st
        end
  end.

(** *** scores *)

Definition scoreCell (owners : list (option nat)) (m : gmap nat nat)
           (si : nat * CellStatus) : gmap nat nat :=
  match si.2 with
  | correct =>
      match owners !! si.1 with
      | Some (Some owner) => <[owner := default 0 (m !! owner) + 1]> m
      | _ => m
      end
  | _ => m
  end.

Definition scores (teams : list Team) (status : list CellStatus)
           (owners : list (option nat)) : gmap nat nat :=
  let map0 := foldl (fun m t => <[id t := 0]> m) ∅ teams in
  foldl (scoreCell owners) map0 (imap pair status).

End Crossword.

(** ** Vocabulary of the statements

    Declarative counterparts of what the scan computes, used to state and
    prove the properties below. *)

Section GridVocabulary.
Variables (w h : nat) (grid : list Puz.Cell).

Definition openAt (i : nat) : bool := negb (Puz.isBlock (Puz.cellAt grid i)).
Definition acrossStartAt (i : nat) : bool := Puz.startsAcrossAt w h grid (i / w) (i mod w).
Definition downStartAt (i : nat) : bool := Puz.startsDownAt w h grid (i / w) (i mod w).
Definition isStartCell (i : nat) : bool := openAt i && (acrossStartAt i || downStartAt i).

(** The entry-start cells among [l], and each with its number. *)
Definition startCellsOf (l : list nat) : list nat := List.filter isStartCell l.
Definition numberedOf (l : list nat) : list (nat * nat) :=
  imap (fun k i => (S k, i)) (startCellsOf l).
Definition acrossEntry (ni : nat * nat) : Puz.ClueEntry :=
  Puz.mkEntry ni.1 "" (Puz.acrossCells w h grid (ni.2 / w) (ni.2 mod w)).
Definition downEntry (ni : nat * nat) : Puz.ClueEntry :=
  Puz.mkEntry ni.1 "" (Puz.downCells w h grid (ni.2 / w) (ni.2 mod w)).

(** The scan's loop body at cell [i] of the row-major order. *)
Definition scanAt (st : Puz.ScanState) (i : nat) : Puz.ScanState :=
  Puz.scanCell w h grid st (i / w) (i mod w).

Definition slotA (s : Puz.Start) : option nat :=
  if Puz.startsAcross s then Puz.acrossIndex s else None.
Definition slotD (s : Puz.Start) : option nat :=
  if Puz.startsDown s then Puz.downIndex s else None.

(** What the scan has built once it has visited the cells [l]. *)
Record scanned (l : list nat) (st : Puz.ScanState) : Prop := {
  sc_next : Puz.nextNum st = S (length (startCellsOf l));
  sc_across : Puz.scAcross st =
              map acrossEntry (List.filter (fun ni => acrossStartAt ni.2) (numberedOf l));
  sc_down : Puz.scDown st =
            map downEntry (List.filter (fun ni => downStartAt ni.2) (numberedOf l));
  sc_slotsA : omap slotA (Puz.scStarts st) = seq 0 (length (Puz.scAcross st));
  sc_slotsD : omap slotD (Puz.scStarts st) = seq 0 (length (Puz.scDown st))
}.

(** Cell indices of the run an across (a down) entry starting at [i] collects. *)
Definition acrossIdx (i : nat) : list nat :=
  map Puz.index (Puz.acrossCells w h grid (i / w) (i mod w)).
Definition downIdx (i : nat) : list nat :=
  map Puz.index (Puz.downCells w h grid (i / w) (i mod w)).

(** The cells where an across (a down) entry starts, in scan order. *)
Definition acrossStarts : list nat :=
  List.filter (fun i => openAt i && acrossStartAt i) (seq 0 (h * w)).
Definition downStarts : list nat :=
  List.filter (fun i => openAt i && downStartAt i) (seq 0 (h * w)).
End GridVocabulary.

(** One line of the grid, a row or a column, seen as [n] cells. *)
Section LineVocabulary.
Variables (n : nat) (open : nat → bool).

Fixpoint lineRun (fuel k : nat) : list nat :=
  match fuel with
  | 0 => []
  | S fuel => if (k <? n) && open k then k :: lineRun fuel (S k) else []
  end.

Definition lineStart (k : nat) : bool := open k && ((k =? 0) || negb (open (k - 1))).

Definition allOpen (s j : nat) : Prop := ∀ m, s ≤ m ≤ j → open m = true.
End LineVocabulary.

(** [N] cells; cell [i] lies on line [lineOf i] at position [posOf i] of
    [len]; [at_ l p] is the cell at position [p] of line [l]. *)
Section CoverVocabulary.
Variables (N len : nat) (isOpen : nat → bool) (lineOf posOf : nat → nat)
          (at_ : nat → nat → nat).

Definition openOn (i p : nat) : bool := isOpen (at_ (lineOf i) p).
Definition coverRun (i : nat) : list nat :=
  map (at_ (lineOf i)) (lineRun len (openOn i) (len - posOf i) (posOf i)).
Definition coverStart (i : nat) : bool := lineStart (openOn i) (posOf i).
End CoverVocabulary.

(** The cell indices of all the entries of a list, in order. *)
Definition entryCells (es : list Puz.ClueEntry) : list nat :=
  flat_map (fun e => map Puz.index (Puz.cells e)) es.

(** *** Clue assignment as a sequence of [take()] calls

    A slot names one entry: [inl i] is [across[i]], [inr j] is [down[j]]. *)
Definition applySlot (raw : list string) (a : Puz.Assign) (s : nat + nat) : Puz.Assign :=
  match s with
  | inl i => Puz.takeAcross raw a i
  | inr j => Puz.takeDown raw a j
  end.

Definition clueAt (a : Puz.Assign) (s : nat + nat) : option string :=
  match s with
  | inl i => Puz.clue <$> Puz.asAcross a !! i
  | inr j => Puz.clue <$> Puz.asDown a !! j
  end.

Definition allSlots (na nd : nat) : list (nat + nat) :=
  map inl (seq 0 na) ++ map inr (seq 0 nd).

Definition slotsA (s : Puz.Start) : list (nat + nat) := option_list (inl <$> slotA s).
Definition slotsD (s : Puz.Start) : list (nat + nat) := option_list (inr <$> slotD s).

(** The entries in the order in which [assignClues] calls [take()] for them. *)
Definition takeOrder (order : Puz.ClueOrder) (starts : list Puz.Start) (na nd : nat)
  : list (nat + nat) :=
  match order with
  | Puz.across_down => map inl (seq 0 na) ++ map inr (seq 0 nd)
  | Puz.down_across => map inr (seq 0 nd) ++ map inl (seq 0 na)
  | Puz.interleaved_ad => flat_map (fun s => slotsA s ++ slotsD s) starts
  | Puz.interleaved_da => flat_map (fun s => slotsD s ++ slotsA s) starts
  end.

Definition inRange (a : Puz.Assign) (s : nat + nat) : Prop :=
  match s with
  | inl i => i < length (Puz.asAcross a)
  | inr j => j < length (Puz.asDown a)
  end.

(** *** The decoder's input, read declaratively *)

Definition countNul (bs : list byte) : nat := length (List.filter Puz.isNul bs).

(** The header fields as [parsePuz] reads them, for a buffer that holds them. *)
Definition byteAt (bytes : list byte) (off : nat) : nat :=
  Byte.to_nat (default x00 (bytes !! off)).
Definition widthOf (bytes : list byte) : nat := byteAt bytes Puz.OFFSET_WIDTH.
Definition heightOf (bytes : list byte) : nat := byteAt bytes Puz.OFFSET_HEIGHT.
Definition numCluesOf (bytes : list byte) : nat :=
  byteAt bytes Puz.OFFSET_NUM_CLUES + 256 * byteAt bytes (S Puz.OFFSET_NUM_CLUES).
(** Where the NUL-terminated strings begin. *)
Definition stringsOffset (bytes : list byte) : nat :=
  Puz.OFFSET_SOLUTION + 2 * (widthOf bytes * heightOf bytes).

(** The checks of [parsePuz] in the order in which it makes them. *)
Inductive Outcome :=
| HeaderOutOfRange | NoDimensions | GridTooShort | StringMissing | Decoded.

Definition outcomeOf (bytes : list byte) : Outcome :=
  if length bytes <? 48 then HeaderOutOfRange
  else if (widthOf bytes =? 0) || (heightOf bytes =? 0) then NoDimensions
  else if length bytes <? stringsOffset bytes then GridTooShort
  else if countNul (drop (stringsOffset bytes) bytes) <? 3 + numCluesOf bytes then StringMissing
  else Decoded.

Definition gridOf (bytes : list byte) : list Puz.Cell :=
  Puz.buildGrid (widthOf bytes) (widthOf bytes * heightOf bytes)
    (Js.slice bytes Puz.OFFSET_SOLUTION (Puz.OFFSET_SOLUTION + widthOf bytes * heightOf bytes)).

(** *** A decoded puzzle, read declaratively *)

(** The cells of [p] that start an entry, in row-major scan order; the k-th
    one (from 0) is the start position that gets number k+1. *)
Definition startCells (p : Puz.ParsedPuz) : list nat :=
  startCellsOf (Puz.width p) (Puz.height p) (Puz.grid p)
    (seq 0 (Puz.height p * Puz.width p)).

Definition startsAcrossCell (p : Puz.ParsedPuz) (i : nat) : bool :=
  acrossStartAt (Puz.width p) (Puz.height p) (Puz.grid p) i.
Definition startsDownCell (p : Puz.ParsedPuz) (i : nat) : bool :=
  downStartAt (Puz.width p) (Puz.height p) (Puz.grid p) i.

(** The indices of the cells of an entry, and of its first cell. *)
Definition cellIdxs (e : Puz.ClueEntry) : list nat := map Puz.index (Puz.cells e).
Definition firstCell (e : Puz.ClueEntry) : option nat := head (cellIdxs e).

Definition isOpenCell (p : Puz.ParsedPuz) (i : nat) : bool := openAt (Puz.grid p) i.

(** (number, start cell) of the across and of the down entries, in order *)
Definition acrossView (p : Puz.ParsedPuz) : list (nat * nat) :=
  List.filter (fun ni => startsAcrossCell p ni.2) (imap (fun k i => (S k, i)) (startCells p)).
Definition downView (p : Puz.ParsedPuz) : list (nat * nat) :=
  List.filter (fun ni => startsDownCell p ni.2) (imap (fun k i => (S k, i)) (startCells p)).

(** *** Sample files *)

(** A 52-byte header with the given width, height and clue count. *)
Definition header (w h n : byte) : list byte :=
  repeat x00 44 ++ [w; h; n; x00] ++ repeat x00 4.

(** A file: header, solution, fill, three empty strings, the clues. *)
Definition puzFile (w h n : byte) (solution : string) (clues : list string) : list byte :=
  header w h n ++ list_byte_of_string solution ++ list_byte_of_string solution
    ++ [x00; x00; x00] ++ flat_map (fun c => list_byte_of_string c ++ [x00]) clues.

(** One row [ABC] with the single clue "Test". *)
Definition rowFile : list byte := puzFile x03 x01 x01 "ABC" ["Test"%string].
(** One row [A.C]: a block between two open cells. *)
Definition gapFile : list byte := puzFile x03 x01 x00 "A.C" [].
(** Two rows [ABC] and [DEF]: two across entries and three down entries. *)
Definition twoRowFile : list byte := puzFile x03 x02 x00 "ABCDEF" [].
(** A header that announces no width, and nothing after it. *)
Definition noWidthFile : list byte := repeat x00 44 ++ [x00; x01; x00; x00].

Definition noOpts : Puz.ParseOptions := Puz.mkOpts None.

Definition emptyPuz : Puz.ParsedPuz :=
  Puz.mkPuz 0 0 "" "" "" [] [] [] [] Puz.interleaved_ad.
Definition rowPuz : Puz.ParsedPuz :=
  match Puz.parsePuz rowFile noOpts with Puz.Ok p => p | Puz.Err _ => emptyPuz end.
Definition gapPuz : Puz.ParsedPuz :=
  match Puz.parsePuz gapFile noOpts with Puz.Ok p => p | Puz.Err _ => emptyPuz end.
Definition twoRowPuz : Puz.ParsedPuz :=
  match Puz.parsePuz twoRowFile noOpts with Puz.Ok p => p | Puz.Err _ => emptyPuz end.

(** *** The session, read declaratively *)

Definition otherMode (m : Crossword.Mode) : Crossword.Mode :=
  match m with
  | Crossword.Across => Crossword.Down
  | Crossword.Down => Crossword.Across
  end.

(** The state after focus moved to cell [f] with direction [dir]. *)
Definition focused (dir : Crossword.Mode) (f : nat) (st : Crossword.State) : Crossword.State :=
  Crossword.mkState (Crossword.puz st) (Crossword.cells st) (Crossword.status st)
    (Crossword.owners st) dir (Some f) (Crossword.teams st) (Crossword.selectedTeamId st).

(** The state after cell [j] was emptied and took the focus. *)
Definition cleared (j : nat) (st : Crossword.State) : Crossword.State :=
  Crossword.mkState (Crossword.puz st)
    (<[j := ""%string]> (Crossword.cells st))
    (<[j := Crossword.unchecked]> (Crossword.status st))
    (<[j := None]> (Crossword.owners st))
    (Crossword.mode st) (Some j) (Crossword.teams st) (Crossword.selectedTeamId st).

(** Position of cell [idx] along its row (across) or column (down), and the
    cell at position [k] of that same row or column. *)
Definition linePos (p : Puz.ParsedPuz) (m : Crossword.Mode) (idx : nat) : nat :=
  match m with
  | Crossword.Across => idx mod Puz.width p
  | Crossword.Down => idx / Puz.width p
  end.

Definition lineCell (p : Puz.ParsedPuz) (m : Crossword.Mode) (idx k : nat) : nat :=
  match m with
  | Crossword.Across => idx / Puz.width p * Puz.width p + k
  | Crossword.Down => k * Puz.width p + idx mod Puz.width p
  end.

(** The status the check gives a cell, in the words of its description. *)
Definition expectedStatus (cell : Puz.Cell) (letter : string) : Crossword.CellStatus :=
  if Puz.isBlock cell then Crossword.unchecked
  else if decide (letter = ""%string) then Crossword.unchecked
  else if decide (Js.toUpperCase letter = Puz.solution cell) then Crossword.correct
  else Crossword.incorrect.

(** Whether cell [i] is owned by team [t], and the number of cells that are
    marked correct and owned by [t]. *)
Definition ownedBy (owners : list (option nat)) (t i : nat) : bool :=
  match owners !! i with
  | Some (Some o) => o =? t
  | _ => false
  end.

Definition correctCells (status : list Crossword.CellStatus) (owners : list (option nat))
           (t : nat) : nat :=
  length (List.filter (fun i => Crossword.isLocked status i && ownedBy owners t i)
            (seq 0 (length status))).

Definition knownTeam (teams : list Crossword.Team) (t : nat) : bool :=
  existsb (fun tm => Crossword.id tm =? t) teams.

(** A session before any file is loaded, team 1 selected. *)
Definition freshSession : Crossword.State :=
  Crossword.mkState None [] [] [] Crossword.Across None
    [Crossword.mkTeam 1 "A" "#2d7ff9"; Crossword.mkTeam 2 "B" "#d22222"] (Some 1).

Definition loadedRow : Crossword.State := Crossword.onFile rowFile noOpts freshSession.
Definition loadedGap : Crossword.State := Crossword.onFile gapFile noOpts freshSession.
Definition loadedTwoRows : Crossword.State := Crossword.onFile twoRowFile noOpts freshSession.

(** The one-row puzzle after team 1 typed A into cell 0 and the puzzle was
    checked: cell 0 is locked, the focus has advanced to the empty cell 1. *)
Definition lockedFirstCell : Crossword.State :=
  Crossword.checkPuzzle (Crossword.onCellChange 0 "a" loadedRow).

(** The row [A.C] after team 1 typed B into cell 0 and the puzzle was
    checked: cell 0 is marked incorrect, the focus has advanced over the
    block to the empty cell 2. *)
Definition wrongFirstCell : Crossword.State :=
  Crossword.checkPuzzle (Crossword.onCellChange 0 "b" loadedGap).

(** The one-row puzzle with the letters A, X, C typed in. *)
Definition typedAXC : Crossword.State :=
  Crossword.onCellChange 2 "c"
    (Crossword.onCellChange 1 "x" (Crossword.onCellChange 0 "a" loadedRow)).
Definition typedABC : Crossword.State :=
  Crossword.onCellChange 2 "c"
    (Crossword.onCellChange 1 "b" (Crossword.onCellChange 0 "a" loadedRow)).

(** ** components/Crossword/Crossword.tsx: numbers, highlights, clue lists *)

Module View.

(** *** numberMap *)

(** [m.set(idx, e.number)] with [idx = e.cells[0]?.index], for an across
    entry *)
Definition setNumber (m : gmap nat nat) (e : Puz.ClueEntry) : gmap nat nat :=
  match Puz.cells e with
  | first :: _ => <[Puz.index first := Puz.number e]> m
  | [] => m
  end.

(** [if (typeof idx === "number" && !m.has(idx)) m.set(idx, e.number)], for
    a down entry *)
Definition setNumberIfAbsent (m : gmap nat nat) (e : Puz.ClueEntry) : gmap nat nat :=
  match Puz.cells e with
  | first :: _ =>
      match m !! Puz.index first with
      | Some _ => m
      | None => <[Puz.index first := Puz.number e]> m
      end
  | [] => m
  end.

Definition numberMap (puz : option Puz.ParsedPuz) : gmap nat nat :=
  match puz with
  | None => ∅
  | Some p => foldl setNumberIfAbsent (foldl setNumber ∅ (Puz.across p)) (Puz.down p)
  end.

(** *** Row and column highlight

    The divisions are by the width of a loaded puzzle, which is never 0. *)
Definition isRowHighlighted (st : Crossword.State) (cellIndex : nat) : bool :=
  match Crossword.puz st, Crossword.activeIndex st with
  | Some p, Some activeIndex =>
      match Crossword.mode st with
      | Crossword.Across => cellIndex / Puz.width p =? activeIndex / Puz.width p
      | Crossword.Down => false
      end
  | _, _ => false
  end.

Definition isColHighlighted (st : Crossword.State) (cellIndex : nat) : bool :=
  match Crossword.puz st, Crossword.activeIndex st with
  | Some p, Some activeIndex =>
      match Crossword.mode st with
      | Crossword.Down => cellIndex mod Puz.width p =? activeIndex mod Puz.width p
      | Crossword.Across => false
      end
  | _, _ => false
  end.

(** *** Clue lists: which clue texts are shown *)

Record Revealed := mkRevealed {
  revealedAcross : list bool;
  revealedDown : list bool
}.

(** What [onFile] sets them to: [new Array(parsed.across.length).fill(false)]. *)
Definition onFile (parsed : Puz.ParsedPuz) : Revealed :=
  {| revealedAcross := replicate (length (Puz.across parsed)) false;
     revealedDown := replicate (length (Puz.down parsed)) false |}.

(** [prev.map((v, idx) => (idx === i ? true : v))] *)
Definition reveal (i : nat) (prev : list bool) : list bool :=
  imap (fun idx v => if idx =? i then true else v) prev.

Definition revealedOf (dir : Crossword.Mode) (rv : Revealed) : list bool :=
  match dir with
  | Crossword.Across => revealedAcross rv
  | Crossword.Down => revealedDown rv
  end.

(** The click handler of item [i] of the across (down) clue list:
    [if (!shown) setRevealed...; setMode(dir); goToClue(dir, i)]. *)
Definition onClueClick (dir : Crossword.Mode) (i : nat) (rv : Revealed) (st : Crossword.State)
  : Revealed * Crossword.State :=
  let shown := default false (revealedOf dir rv !! i) in
  let rv' :=
    if shown then rv
    else
      match dir with
      | Crossword.Across =>
          {| revealedAcross := reveal i (revealedAcross rv); revealedDown := revealedDown rv |}
      | Crossword.Down =>
          {| revealedAcross := revealedAcross rv; revealedDown := reveal i (revealedDown rv) |}
      end in
  (rv', Crossword.goToClue dir (Z.of_nat i) (Crossword.setMode dir st)).

End View.

(** ** lib/puz.ts, the earlier revision of [parsePuz]

    The earlier revision takes no options.  It reads header, planes and
    strings as the later one does, finds the entry starts, the numbers and
    the entries in separate passes over the grid, refuses a file with fewer
    clues than entries, and hands out the clues across first, then down. *)

Module PuzV1.

Inductive Error :=
| Thrown (e : Puz.PuzError)   (* the failures the later revision has too *)
| NotEnoughClues.             (* "Invalid .puz: not enough clues for grid" *)

Inductive result (A : Type) :=
| Ok (a : A)
| Err (e : Error).
Arguments Ok {A} a.
Arguments Err {A} e.

#[global] Instance result_ret : MRet result := fun A a => Ok a.
#[global] Instance result_bind : MBind result := fun A B f m =>
  match m with
  | Ok a => f a
  | Err e => Err e
  end.

(** A call of one of the readers: what it throws passes through. *)
Definition thrown {A} (m : Puz.result A) : result A :=
  match m with
  | Puz.Ok a => Ok a
  | Puz.Err e => Err (Thrown e)
  end.

Record ParsedPuz := mkPuz {
  width : nat;
  height : nat;
  title : string;
  author : string;
  copyright : string;
  grid : list Puz.Cell;
  cluesRaw : list string;
  across : list Puz.ClueEntry;
  down : list Puz.ClueEntry
}.

Section Passes.
Variables (width height : nat) (grid : list Puz.Cell).

(** [for (let r = 0; r < height; r++) for (let c = 0; c < width; c++)] *)
Definition forCells {St : Type} (body : St → nat → nat → St) (init : St) : St :=
  foldl (fun st r => foldl (fun st c => body st r c) st (seq 0 width)) init (seq 0 height).

(** *** Determine starts *)

Record Starts := mkStarts {
  acrossStarts : list nat;
  downStarts : list nat
}.

Definition startsCell (st : Starts) (r c : nat) : Starts :=
  let idx := r * width + c in
  if Puz.isBlock (Puz.cellAt grid idx) then st
  else
    let startsAcross := Puz.startsAcrossAt width height grid r c in
    let startsDown := Puz.startsDownAt width height grid r c in
    {| acrossStarts := if startsAcross then acrossStarts st ++ [idx] else acrossStarts st;
       downStarts := if startsDown then downStarts st ++ [idx] else downStarts st |}.

(** *** Assign numbers in scan order *)

Record Numbering := mkNumbering {
  numbering : gmap nat nat;   (* cellIndex -> number *)
  nextNum : nat;
  ai : nat;
  di : nat
}.

(** [k < starts.length && starts[k] === idx] *)
Definition isAt (starts : list nat) (k idx : nat) : bool :=
  (k <? length starts) &&
  match starts !! k with
  | Some j => j =? idx
  | None => false
  end.

Definition numberCell (sts : Starts) (st : Numbering) (r c : nat) : Numbering :=
  let idx := r * width + c in
  if Puz.isBlock (Puz.cellAt grid idx) then st
  else
    let startsAcross := isAt (acrossStarts sts) (ai st) idx in
    let startsDown := isAt (downStarts sts) (di st) idx in
    if startsAcross || startsDown then
      {| numbering := <[idx := nextNum st]> (numbering st);
         nextNum := S (nextNum st);
         ai := if startsAcross then S (ai st) else ai st;
         di := if startsDown then S (di st) else di st |}
    else st.

(** [numbering.get(idx)!]: the assertion is erased at run time; 0, which is
    no entry number, stands for the [undefined] of a missing key. *)
Definition numberOf (numbering : gmap nat nat) (idx : nat) : nat :=
  default 0 (numbering !! idx).

(** *** Build across entries, build down entries *)

Definition acrossCell (numbering : gmap nat nat) (across : list Puz.ClueEntry) (r c : nat)
  : list Puz.ClueEntry :=
  let idx := r * width + c in
  if Puz.isBlock (Puz.cellAt grid idx) then across
  else if negb (Puz.startsAcrossAt width height grid r c) then across
  else across ++ [Puz.mkEntry (numberOf numbering idx) ""
                    (Puz.acrossCells width height grid r c)].

Definition downCell (numbering : gmap nat nat) (down : list Puz.ClueEntry) (r c : nat)
  : list Puz.ClueEntry :=
  let idx := r * width + c in
  if Puz.isBlock (Puz.cellAt grid idx) then down
  else if negb (Puz.startsDownAt width height grid r c) then down
  else down ++ [Puz.mkEntry (numberOf numbering idx) ""
                  (Puz.downCells width height grid r c)].

Definition entries : list Puz.ClueEntry * list Puz.ClueEntry :=
  let sts := forCells startsCell (mkStarts [] []) in
  let num := forCells (numberCell sts) (mkNumbering ∅ 1 0 0) in
  (forCells (acrossCell (numbering num)) [], forCells (downCell (numbering num)) []).
End Passes.

(** [cluesRaw[clueIdx] || ""] *)
Definition clueOrEmpty (cluesRaw : list string) (clueIdx : nat) : string :=
  match cluesRaw !! clueIdx with
  | Some c => if Js.isEmpty c then ""%string else c
  | None => ""%string
  end.

Definition parsePuz (bytes : list byte) : result ParsedPuz :=
  width ← thrown (Puz.getUint8 bytes Puz.OFFSET_WIDTH);
  height ← thrown (Puz.getUint8 bytes Puz.OFFSET_HEIGHT);
  numClues ← thrown (Puz.getUint16 bytes Puz.OFFSET_NUM_CLUES);
  if (width =? 0) || (height =? 0) then Err (Thrown Puz.MissingDimensions)
  else
    let gridSize := width * height in
    let OFFSET_FILL := Puz.OFFSET_SOLUTION + gridSize in
    if length bytes <? OFFSET_FILL + gridSize then Err (Thrown Puz.TruncatedGrid)
    else
      let solBytes :=
        Js.slice bytes Puz.OFFSET_SOLUTION (Puz.OFFSET_SOLUTION + gridSize) in
      let cursor := OFFSET_FILL + gridSize in
      '(title, cursor) ← thrown (Puz.readNullTerminated bytes cursor);
      '(author, cursor) ← thrown (Puz.readNullTerminated bytes cursor);
      '(copyright, cursor) ← thrown (Puz.readNullTerminated bytes cursor);
      '(cluesRaw, cursor) ← thrown (Puz.readClues bytes numClues cursor []);
      let grid := Puz.buildGrid width gridSize solBytes in
      let '(across, down) := entries width height grid in
      if length cluesRaw <? length across + length down then Err NotEnoughClues
      else
        let across' := imap (fun i e => Puz.setClue (clueOrEmpty cluesRaw i) e) across in
        let down' :=
          imap (fun i e => Puz.setClue (clueOrEmpty cluesRaw (length across + i)) e) down in
        Ok {| width := width; height := height;
              title := title; author := author; copyright := copyright;
              grid := grid; cluesRaw := cluesRaw;
              across := across'; down := down' |}.

End PuzV1.

(** ** components/Crossword/Crossword.tsx: the teams panel *)

Module Teams.

(** [String.prototype.trim] on strings of 8-bit code units: tab, line feed,
    vertical tab, form feed, carriage return, space and no-break space are
    the white space among them. *)
Definition isSpace (a : ascii) : bool :=
  let n := nat_of_ascii a in
  ((9 <=? n) && (n <=? 13)) || (n =? 32) || (n =? 160).

Fixpoint trimStart (s : string) : string :=
  match s with
  | EmptyString => EmptyString
  | String a s' => if isSpace a then trimStart s' else s
  end.

Fixpoint trimEnd (s : string) : string :=
  match s with
  | EmptyString => EmptyString
  | String a s' =>
      match trimEnd s' with
      | EmptyString => if isSpace a then EmptyString else String a EmptyString
      | t => String a t
      end
  end.

Definition trim (s : string) : string := trimEnd (trimStart s).

(** The decimal digits of a number, as a template literal prints it. *)
Fixpoint digits (fuel n : nat) (acc : string) : string :=
  match fuel with
  | 0 => acc
  | S fuel =>
      let acc := String (ascii_of_nat (48 + n mod 10)) acc in
      if n / 10 =? 0 then acc else digits fuel (n / 10) acc
  end.

Definition numberToString (n : nat) : string := digits (S n) n "".

(** The state of the panel. *)
Record Panel := mkPanel {
  teams : list Crossword.Team;
  selectedTeamId : option nat;
  newTeamName : string;
  newTeamColor : string;
  nextTeamId : nat;
  showTeamInputs : bool;
  editingTeamId : option nat
}.

(** The initial values of the [useState] calls. *)
Definition initial : Panel :=
  {| teams := []; selectedTeamId := None; newTeamName := ""; newTeamColor := "#2d7ff9";
     nextTeamId := 1; showTeamInputs := true; editingTeamId := None |}.

(** The [onSubmit] handler of the add-team form. *)
Definition onSubmit (pn : Panel) : Panel :=
  let trimmed := trim (newTeamName pn) in
  let name :=
    if Js.isEmpty trimmed then ("Team " ++ numberToString (nextTeamId pn))%string
    else trimmed in
  let team := Crossword.mkTeam (nextTeamId pn) name (newTeamColor pn) in
  {| teams := teams pn ++ [team];
     selectedTeamId := Some (Crossword.id team);
     newTeamName := "";
     newTeamColor := newTeamColor pn;
     nextTeamId := nextTeamId pn + 1;
     showTeamInputs := showTeamInputs pn;
     editingTeamId := editingTeamId pn |}.

(** [t.id === selectedTeamId] *)
Definition isSelected (t : Crossword.Team) (pn : Panel) : bool :=
  match selectedTeamId pn with
  | Some s => Crossword.id t =? s
  | None => false
  end.

(** The [onClick] handler of the item of team [t]; Enter and Space on the
    item do the same unless the team is being edited. *)
Definition onTeamClick (t : Crossword.Team) (pn : Panel) : Panel :=
  if isSelected t pn then
    {| teams := teams pn; selectedTeamId := selectedTeamId pn;
       newTeamName := newTeamName pn; newTeamColor := newTeamColor pn;
       nextTeamId := nextTeamId pn; showTeamInputs := showTeamInputs pn;
       editingTeamId := Some (Crossword.id t) |}
  else
    {| teams := teams pn; selectedTeamId := Some (Crossword.id t);
       newTeamName := newTeamName pn; newTeamColor := newTeamColor pn;
       nextTeamId := nextTeamId pn; showTeamInputs := showTeamInputs pn;
       editingTeamId := None |}.

Definition setTeams (f : list Crossword.Team → list Crossword.Team) (pn : Panel) : Panel :=
  {| teams := f (teams pn); selectedTeamId := selectedTeamId pn;
     newTeamName := newTeamName pn; newTeamColor := newTeamColor pn;
     nextTeamId := nextTeamId pn; showTeamInputs := showTeamInputs pn;
     editingTeamId := editingTeamId pn |}.

(** [prev.map((tm) => (tm.id === t.id ? { ...tm, color: value } : tm))] *)
Definition onColorChange (t : Crossword.Team) (value : string) (pn : Panel) : Panel :=
  setTeams (map (fun tm =>
                   if Crossword.id tm =? Crossword.id t
                   then Crossword.mkTeam (Crossword.id tm) (Crossword.name tm) value
                   else tm)) pn.

(** [prev.map((tm) => (tm.id === t.id ? { ...tm, name: value } : tm))] *)
Definition onNameChange (t : Crossword.Team) (value : string) (pn : Panel) : Panel :=
  setTeams (map (fun tm =>
                   if Crossword.id tm =? Crossword.id t
                   then Crossword.mkTeam (Crossword.id tm) value (Crossword.color tm)
                   else tm)) pn.

(** Save button, and focus leaving the item. *)
Definition stopEditing (pn : Panel) : Panel :=
  {| teams := teams pn; selectedTeamId := selectedTeamId pn;
     newTeamName := newTeamName pn; newTeamColor := newTeamColor pn;
     nextTeamId := nextTeamId pn; showTeamInputs := showTeamInputs pn;
     editingTeamId := None |}.

(** The two inputs of the form, and the Start button. *)
Definition onNewName (value : string) (pn : Panel) : Panel :=
  {| teams := teams pn; selectedTeamId := selectedTeamId pn;
     newTeamName := value; newTeamColor := newTeamColor pn;
     nextTeamId := nextTeamId pn; showTeamInputs := showTeamInputs pn;
     editingTeamId := editingTeamId pn |}.

Definition onNewColor (value : string) (pn : Panel) : Panel :=
  {| teams := teams pn; selectedTeamId := selectedTeamId pn;
     newTeamName := newTeamName pn; newTeamColor := value;
     nextTeamId := nextTeamId pn; showTeamInputs := showTeamInputs pn;
     editingTeamId := editingTeamId pn |}.

Definition onStart (pn : Panel) : Panel :=
  {| teams := teams pn; selectedTeamId := selectedTeamId pn;
     newTeamName := newTeamName pn; newTeamColor := newTeamColor pn;
     nextTeamId := nextTeamId pn; showTeamInputs := false;
     editingTeamId := editingTeamId pn |}.

(** The events of the panel.  An item exists for the teams of the list
    only, the form and its Start button while [showTeamInputs] holds, and
    Start is disabled with fewer than two teams. *)
Inductive Event :=
| Submit
| TeamClick (t : Crossword.Team)
| ColorChange (t : Crossword.Team) (value : string)
| NameChange (t : Crossword.Team) (value : string)
| StopEditing
| NewName (value : string)
| NewColor (value : string)
| Start.

Definition enabled (pn : Panel) (ev : Event) : Prop :=
  match ev with
  | Submit | NewName _ | NewColor _ => showTeamInputs pn = true
  | Start => showTeamInputs pn = true ∧ 2 ≤ length (teams pn)
  | TeamClick t => In t (teams pn)
  | ColorChange t _ | NameChange t _ => In t (teams pn) ∧ editingTeamId pn = Some (Crossword.id t)
  | StopEditing => True
  end.

Definition handle (ev : Event) (pn : Panel) : Panel :=
  match ev with
  | Submit => onSubmit pn
  | TeamClick t => onTeamClick t pn
  | ColorChange t value => onColorChange t value pn
  | NameChange t value => onNameChange t value pn
  | StopEditing => stopEditing pn
  | NewName value => onNewName value pn
  | NewColor value => onNewColor value pn
  | Start => onStart pn
  end.

(** [getTeamColor]: the colour a cell of owner [teamId] is drawn in. *)
Definition getTeamColor (teams : list Crossword.Team) (teamId : option nat) : string :=
  match teamId with
  | None => "var(--foreground)"
  | Some i =>
      match List.find (fun t => Crossword.id t =? i) teams with
      | Some t => if Js.isEmpty (Crossword.color t) then "var(--foreground)"
                  else Crossword.color t
      | None => "var(--foreground)"
      end
  end.

End Teams.

(** *** Session invariants *)

(** [status[i]] and [owners[i]] as the code reads them: a missing element
    compares unequal to "correct" and "incorrect", and equal to [null]
    under [!= null]. *)
Definition statusAt (status : list Crossword.CellStatus) (i : nat) : Crossword.CellStatus :=
  default Crossword.unchecked (status !! i).
Definition ownerAt (owners : list (option nat)) (i : nat) : option nat :=
  default None (owners !! i).

(** The three per-cell arrays have one element per grid cell. *)
Definition sized (p : Puz.ParsedPuz) (st : Crossword.State) : Prop :=
  length (Crossword.cells st) = Puz.width p * Puz.height p ∧
  length (Crossword.status st) = Puz.width p * Puz.height p ∧
  length (Crossword.owners st) = Puz.width p * Puz.height p.

(** Every cell marked correct holds the letter of the solution. *)
Definition lockSound (p : Puz.ParsedPuz) (st : Crossword.State) : Prop :=
  ∀ i, Crossword.isLocked (Crossword.status st) i = true →
       Puz.isBlock (Puz.cellAt (Puz.grid p) i) = false ∧
       Crossword.cellValue (Crossword.cells st) i ≠ ""%string ∧
       Js.toUpperCase (Crossword.cellValue (Crossword.cells st) i)
       = Puz.solution (Puz.cellAt (Puz.grid p) i).

(** What an input event with text [value] stores in a cell. *)
Definition typedLetter (value : string) : string :=
  Js.firstChar (Js.keepAZ (Js.toUpperCase value)).




(** The fields that no cell handler writes. *)
Definition fixedPart (st : Crossword.State) :=
  (Crossword.puz st, Crossword.teams st, Crossword.selectedTeamId st).

(** The score table the component shows for a state. *)
Definition scoresOf (st : Crossword.State) : gmap nat nat :=
  Crossword.scores (Crossword.teams st) (Crossword.status st) (Crossword.owners st).

(** *** Moving along a row or a column *)

Definition lineLen (p : Puz.ParsedPuz) (m : Crossword.Mode) : nat :=
  match m with
  | Crossword.Across => Puz.width p
  | Crossword.Down => Puz.height p
  end.

(** The axis of an arrow key and whether it points forward. *)
Definition arrowOf (key : Crossword.Key) : option (Crossword.Mode * bool) :=
  match key with
  | Crossword.ArrowRight => Some (Crossword.Across, true)
  | Crossword.ArrowLeft => Some (Crossword.Across, false)
  | Crossword.ArrowDown => Some (Crossword.Down, true)
  | Crossword.ArrowUp => Some (Crossword.Down, false)
  | _ => None
  end.

(** Position [k] of the row or column of [idx] holds the open cell nearest
    to [idx] on the forward (backward) side. *)
Definition nearestOpen (p : Puz.ParsedPuz) (m : Crossword.Mode) (idx : nat) (fwd : bool)
           (k : nat) : Prop :=
  Crossword.isOpen p (lineCell p m idx k) = true ∧
  if fwd
  then linePos p m idx < k < lineLen p m ∧
       ∀ j, linePos p m idx < j < k → Crossword.isOpen p (lineCell p m idx j) = false
  else k < linePos p m idx ∧
       ∀ j, k < j < linePos p m idx → Crossword.isOpen p (lineCell p m idx j) = false.

(** No open cell on that side. *)
Definition noneOpen (p : Puz.ParsedPuz) (m : Crossword.Mode) (idx : nat) (fwd : bool) : Prop :=
  if fwd
  then ∀ j, linePos p m idx < j < lineLen p m → Crossword.isOpen p (lineCell p m idx j) = false
  else ∀ j, j < linePos p m idx → Crossword.isOpen p (lineCell p m idx j) = false.


(** *** Entries along their row or column *)

(** Whether an entry of direction [dir] starts at cell [i]. *)
Definition startsIn (p : Puz.ParsedPuz) (dir : Crossword.Mode) (i : nat) : bool :=
  match dir with
  | Crossword.Across => startsAcrossCell p i
  | Crossword.Down => startsDownCell p i
  end.

(** *** The layout of a file *)



(** *** What the grid and the clue lists show *)

(** The cell-to-entry map of a direction. *)
Definition cellMapOf (p : Puz.ParsedPuz) (dir : Crossword.Mode) : gmap nat nat :=
  match dir with
  | Crossword.Across => Crossword.cellToAcross p
  | Crossword.Down => Crossword.cellToDown p
  end.

(** Whether the highlight of direction [dir] is on at a cell. *)
Definition highlighted (dir : Crossword.Mode) (st : Crossword.State) (i : nat) : bool :=
  match dir with
  | Crossword.Across => View.isRowHighlighted st i
  | Crossword.Down => View.isColHighlighted st i
  end.

(** *** The two revisions of the decoder *)

(** What the numbering pass of the earlier revision has done once it has
    visited the cells [l]. *)
Record numbered (w h : nat) (grid : list Puz.Cell) (l : list nat) (st : PuzV1.Numbering)
  : Prop := {
  nb_next : PuzV1.nextNum st = S (length (startCellsOf w h grid l));
  nb_ai : PuzV1.ai st
          = length (List.filter (fun i => openAt grid i && acrossStartAt w h grid i) l);
  nb_di : PuzV1.di st
          = length (List.filter (fun i => openAt grid i && downStartAt w h grid i) l);
  nb_map : ∀ k i, startCellsOf w h grid l !! k = Some i →
                  PuzV1.numbering st !! i = Some (S k)
}.

(** A result of the later revision, seen as one of the earlier. *)
Definition withoutOrder (p : Puz.ParsedPuz) : PuzV1.ParsedPuz :=
  PuzV1.mkPuz (Puz.width p) (Puz.height p) (Puz.title p) (Puz.author p) (Puz.copyright p)
    (Puz.grid p) (Puz.cluesRaw p) (Puz.across p) (Puz.down p).

Definition acrossThenDown : Puz.ParseOptions := Puz.mkOpts (Some Puz.across_down).

(** *** The teams panel *)

(** The teams carry the ids 1, 2, ... in the order of the list, the next id
    is the one after the last, and a team is selected as soon as there is
    one. *)
Definition wellNumbered (pn : Teams.Panel) : Prop :=
  map Crossword.id (Teams.teams pn) = seq 1 (length (Teams.teams pn)) ∧
  Teams.nextTeamId pn = S (length (Teams.teams pn)) ∧
  match Teams.selectedTeamId pn with
  | Some s => In s (map Crossword.id (Teams.teams pn))
  | None => Teams.teams pn = []
  end.

(** Every owner recorded in the grid, and the selected team, is a team of
    the list. *)
Definition ownersKnown (st : Crossword.State) : Prop :=
  (∀ i t, ownerAt (Crossword.owners st) i = Some t →
          In t (map Crossword.id (Crossword.teams st))) ∧
  (∀ s, Crossword.selectedTeamId st = Some s → In s (map Crossword.id (Crossword.teams st))).


(** * Proofs *)

(** ** The scan, cell by cell *)

Section ScanFacts.
Variables (w h : nat) (grid : list Puz.Cell).

Lemma divmod_cell r c : c < w → (r * w + c) / w = r ∧ (r * w + c) mod w = c.
Proof.
  intros Hc. split.
  - symmetry. apply (Nat.div_unique _ _ _ c); lia.
  - symmetry. apply (Nat.mod_unique _ _ r); lia.
Qed.

Lemma foldl_ext_in {A B C} (f : A → B → A) (g : A → C → A) (φ : B → C) l :
  (∀ a b, In b l → f a b = g a (φ b)) → ∀ a, foldl f a l = foldl g a (map φ l).
Proof.
  induction l as [|b l IH]; intros Hfg a; simpl; [done|].
  rewrite Hfg by (by left). apply IH. intros; apply Hfg; by right.
Qed.

Lemma scanRow_by_index st r :
  Puz.scanRow w h grid st r = foldl (scanAt w h grid) st (seq (r * w) w).
Proof.
  unfold Puz.scanRow.
  rewrite (foldl_ext_in _ (scanAt w h grid) (fun c => r * w + c)).
  - f_equal. pose proof (fmap_add_seq (r * w) 0 w) as E.
    rewrite Nat.add_0_r in E. exact E.
  - intros a c Hc%in_seq. unfold scanAt.
    destruct (divmod_cell r c) as [-> ->]; [lia|done].
Qed.

Lemma scanRows_by_index n st :
  foldl (Puz.scanRow w h grid) st (seq 0 n) = foldl (scanAt w h grid) st (seq 0 (n * w)).
Proof.
  induction n as [|n IH]; [done|].
  rewrite seq_S, foldl_app. simpl foldl at 1. rewrite IH, scanRow_by_index.
  replace (S n * w) with (n * w + w) by lia.
  by rewrite seq_app, foldl_app.
Qed.

Lemma scan_by_index : Puz.scan w h grid = foldl (scanAt w h grid) Puz.scanInit (seq 0 (h * w)).
Proof. apply scanRows_by_index. Qed.

Lemma cell_index_eq i : i / w * w + i mod w = i.
Proof. pose proof (Nat.div_mod_eq i w). lia. Qed.

Lemma numberedOf_snoc l i :
  numberedOf w h grid (l ++ [i]) =
  numberedOf w h grid l
  ++ (if isStartCell w h grid i then [(S (length (startCellsOf w h grid l)), i)] else []).
Proof.
  unfold numberedOf, startCellsOf. rewrite List.filter_app. simpl.
  destruct (isStartCell w h grid i); [|by rewrite !app_nil_r].
  rewrite imap_app. simpl. by rewrite Nat.add_0_r.
Qed.

Lemma scanned_init : scanned w h grid [] Puz.scanInit.
Proof. by split. Qed.

Lemma scanned_step l i st :
  scanned w h grid l st → scanned w h grid (l ++ [i]) (scanAt w h grid st i).
Proof.
  intros [Hn Ha Hd HsA HsD].
  unfold scanAt, Puz.scanCell. rewrite cell_index_eq.
  fold (acrossStartAt w h grid i) (downStartAt w h grid i).
  assert (Hst : isStartCell w h grid i
                = openAt grid i && (acrossStartAt w h grid i || downStartAt w h grid i)) by done.
  unfold openAt in Hst.
  assert (Hlen : startCellsOf w h grid (l ++ [i]) =
                 startCellsOf w h grid l ++ (if isStartCell w h grid i then [i] else [])).
  { unfold startCellsOf. rewrite List.filter_app. simpl. by destruct (isStartCell w h grid i). }
  pose proof (numberedOf_snoc l i) as Hnum.
  destruct (Puz.isBlock (Puz.cellAt grid i)); simpl in Hst.
  { rewrite Hst in Hlen, Hnum. rewrite app_nil_r in Hlen, Hnum.
    split; rewrite ?Hlen, ?Hnum; done. }
  destruct (acrossStartAt w h grid i) eqn:Ea, (downStartAt w h grid i) eqn:Ed; simpl in Hst |- *;
    rewrite Hst in Hlen, Hnum; rewrite ?app_nil_r in Hlen, Hnum;
    (split; simpl;
     [ rewrite Hlen, ?length_app; simpl; lia
     | rewrite Hnum, ?List.filter_app, ?map_app, Ha; simpl; rewrite ?Ea, ?app_nil_r;
       unfold acrossEntry; simpl; by rewrite ?Hn
     | rewrite Hnum, ?List.filter_app, ?map_app, Hd; simpl; rewrite ?Ed, ?app_nil_r;
       unfold downEntry; simpl; by rewrite ?Hn
     | rewrite ?omap_app, HsA, ?length_app; simpl; unfold slotA; simpl;
       rewrite ?app_nil_r, ?Nat.add_1_r, ?seq_S; done
     | rewrite ?omap_app, HsD, ?length_app; simpl; unfold slotD; simpl;
       rewrite ?app_nil_r, ?Nat.add_1_r, ?seq_S; done ]).
Qed.

Lemma scanned_foldl l : ∀ l0 st,
  scanned w h grid l0 st → scanned w h grid (l0 ++ l) (foldl (scanAt w h grid) st l).
Proof.
  induction l as [|i l IH]; intros l0 st H; simpl.
  - by rewrite app_nil_r.
  - replace (l0 ++ i :: l) with ((l0 ++ [i]) ++ l) by (by rewrite <- app_assoc).
    apply IH. by apply scanned_step.
Qed.

Lemma scanned_scan : scanned w h grid (seq 0 (h * w)) (Puz.scan w h grid).
Proof. rewrite scan_by_index. apply (scanned_foldl _ [] _ scanned_init). Qed.
End ScanFacts.

(** ** One line of the grid: a row or a column seen as [n] cells *)

Section Line.
Variables (n : nat) (open : nat → bool).

Lemma lineRun_In fuel : ∀ k j,
  n - k ≤ fuel → In j (lineRun n open fuel k) ↔ k ≤ j < n ∧ allOpen open k j.
Proof.
  induction fuel as [|fuel IH]; intros k j Hf; simpl.
  - split; [done|]. intros [? _]. lia.
  - destruct (Nat.ltb_spec k n) as [Hk|Hk]; simpl.
    2:{ split; [done|]. intros [? _]. lia. }
    destruct (open k) eqn:Ek; simpl.
    + rewrite IH by lia. split.
      * intros [->|[? Ho]].
        { split; [lia|]. intros m ?. by replace m with j by lia. }
        split; [lia|]. intros m ?. destruct (decide (m = k)) as [->|]; [done|].
        apply Ho. lia.
      * intros [? Ho]. destruct (decide (k = j)) as [->|]; [by left|right].
        split; [lia|]. intros m ?. apply Ho. lia.
    + split; [done|]. intros [? Ho]. rewrite Ho in Ek by lia. done.
Qed.

Lemma lineRun_ge fuel : ∀ k j, In j (lineRun n open fuel k) → k ≤ j < n.
Proof.
  induction fuel as [|fuel IH]; intros k j; simpl; [done|].
  destruct (Nat.ltb_spec k n); simpl; [|done].
  destruct (open k); simpl; [|done].
  intros [->|Hin%IH]; lia.
Qed.

Lemma lineRun_NoDup fuel : ∀ k, List.NoDup (lineRun n open fuel k).
Proof.
  induction fuel as [|fuel IH]; intros k; simpl; [constructor|].
  destruct ((k <? n) && open k); [|constructor].
  constructor; [|apply IH]. intros Hin%lineRun_ge. lia.
Qed.

Lemma lineRun_nonempty k : k < n → open k = true → lineRun n open (n - k) k ≠ [].
Proof.
  intros Hk Ho. destruct (n - k) as [|f] eqn:E; [lia|]. simpl.
  apply Nat.ltb_lt in Hk. by rewrite Hk, Ho.
Qed.

Lemma lineRun_head k : head (lineRun n open (n - k) k) = Some k ∨ lineRun n open (n - k) k = [].
Proof.
  destruct (n - k) as [|f]; [by right|]. simpl.
  destruct ((k <? n) && open k); [by left|by right].
Qed.

Lemma lineStart_exists j :
  open j = true → ∃ s, s ≤ j ∧ lineStart open s = true ∧ allOpen open s j.
Proof.
  induction j as [|j IH]; intros Ho.
  - exists 0. unfold lineStart. rewrite Ho. split; [lia|]. split; [done|].
    intros m ?. by replace m with 0 by lia.
  - destruct (open j) eqn:Ej.
    + destruct (IH eq_refl) as (s & ? & ? & Hs). exists s. split; [lia|]. split; [done|].
      intros m ?. destruct (decide (m = S j)) as [->|]; [done|]. apply Hs. lia.
    + exists (S j). unfold lineStart. rewrite Ho. simpl. rewrite Nat.sub_0_r, Ej.
      split; [lia|]. split; [done|]. intros m ?. by replace m with (S j) by lia.
Qed.

Lemma lineStart_unique s1 s2 j :
  lineStart open s1 = true → allOpen open s1 j → s1 ≤ j →
  lineStart open s2 = true → allOpen open s2 j → s2 ≤ j → s1 = s2.
Proof.
  assert (∀ a b, lineStart open b = true → allOpen open a j → b ≤ j → a < b → False)
    as Hlt.
  { intros a b Hb Ha ? ?. unfold lineStart in Hb.
    apply andb_true_iff in Hb as [_ Hb]. apply orb_true_iff in Hb as [Hb|Hb].
    - apply Nat.eqb_eq in Hb. lia.
    - rewrite Ha in Hb by lia. done. }
  intros H1 A1 ? H2 A2 ?.
  destruct (Nat.lt_trichotomy s1 s2) as [?|[?|?]]; [|done|]; exfalso; eauto.
Qed.
End Line.

Lemma lineRun_ext n open open' fuel : ∀ k,
  (∀ p, p < n → open p = open' p) → lineRun n open fuel k = lineRun n open' fuel k.
Proof.
  induction fuel as [|fuel IH]; intros k He; simpl; [done|].
  destruct (Nat.ltb_spec k n); simpl; [|done].
  rewrite <- He by done. destruct (open k); [|done]. f_equal. by apply IH.
Qed.

Lemma count_occ_flat_map_none {A} (f : A → list nat) (l : list A) j :
  (∀ s, In s l → ¬ In j (f s)) → count_occ Nat.eq_dec (flat_map f l) j = 0.
Proof.
  intros H. apply count_occ_not_In. intros (s & Hs & Hj)%in_flat_map. by apply (H s).
Qed.

Lemma count_occ_flat_map_one {A} (f : A → list nat) (l : list A) j s0 :
  List.NoDup l → In s0 l → count_occ Nat.eq_dec (f s0) j = 1 →
  (∀ s, In s l → In j (f s) → s = s0) →
  count_occ Nat.eq_dec (flat_map f l) j = 1.
Proof.
  induction l as [|s l IH]; intros Hnd Hin H1 Hu; [done|].
  simpl. rewrite count_occ_app. apply List.NoDup_cons_iff in Hnd as [Hs Hnd].
  destruct Hin as [->|Hin].
  - rewrite H1, count_occ_flat_map_none; [done|].
    intros s Hsl Hj. apply Hs. rewrite <- (Hu s); [done|by right|done].
  - rewrite IH; [|done..|intros; apply Hu; [by right|done]].
    rewrite (proj1 (count_occ_not_In Nat.eq_dec _ _)); [done|].
    intros Hj. apply Hs. rewrite (Hu s); [done|by left|done].
Qed.

(** ** Entries cover the open cells: one direction at a time *)

Section Cover.
(** [N] cells; cell [i] lies on line [lineOf i] at position [posOf i] of
    [len]; [at_ l p] is the cell at position [p] of line [l]. *)
Variables (N len : nat) (isOpen : nat → bool) (lineOf posOf : nat → nat)
          (at_ : nat → nat → nat).
Hypothesis Hat : ∀ i, i < N → at_ (lineOf i) (posOf i) = i ∧ posOf i < len.
Hypothesis Hin : ∀ i p, i < N → p < len →
  at_ (lineOf i) p < N ∧ lineOf (at_ (lineOf i) p) = lineOf i ∧ posOf (at_ (lineOf i) p) = p.
Hypothesis Hopen : ∀ i, isOpen i = true → i < N.

Lemma coverRun_In s j : s < N →
  In j (coverRun len isOpen lineOf posOf at_ s) ↔
  j < N ∧ lineOf j = lineOf s ∧ posOf s ≤ posOf j ∧
  allOpen (openOn isOpen lineOf at_ s) (posOf s) (posOf j).
Proof.
  intros Hs. unfold coverRun. rewrite in_map_iff. split.
  - intros (p & <- & Hp). apply lineRun_In in Hp as [? Ho]; [|lia].
    destruct (Hin s p) as (? & ? & ->); [done|lia|]. split; [done|]. split; [done|].
    split; [lia|done].
  - intros (Hj & Hl & Hle & Ho). exists (posOf j). destruct (Hat j Hj) as [E ?].
    split; [by rewrite <- Hl|]. apply lineRun_In; [lia|]. split; [lia|done].
Qed.

Lemma coverRun_NoDup s : s < N → List.NoDup (coverRun len isOpen lineOf posOf at_ s).
Proof.
  intros Hs. unfold coverRun. apply NoDup_ListNoDup, NoDup_fmap_2_strong.
  - intros p q Hp%list_elem_of_In%lineRun_ge Hq%list_elem_of_In%lineRun_ge E.
    destruct (Hin s p) as (_ & _ & <-); [done|lia|].
    destruct (Hin s q) as (_ & _ & <-); [done|lia|]. by rewrite E.
  - apply NoDup_ListNoDup, lineRun_NoDup.
Qed.

Lemma openOn_same i j :
  lineOf i = lineOf j → openOn isOpen lineOf at_ i = openOn isOpen lineOf at_ j.
Proof. intros E. unfold openOn. by rewrite E. Qed.

Theorem cover j :
  count_occ Nat.eq_dec
    (flat_map (coverRun len isOpen lineOf posOf at_)
       (List.filter (coverStart isOpen lineOf posOf at_) (seq 0 N))) j
  = if isOpen j then 1 else 0.
Proof.
  destruct (isOpen j) eqn:Ej.
  - pose proof (Hopen j Ej) as Hj. destruct (Hat j Hj) as [Ejj Hpj].
    assert (Hoj : openOn isOpen lineOf at_ j (posOf j) = true) by (unfold openOn; by rewrite Ejj).
    destruct (lineStart_exists (openOn isOpen lineOf at_ j) (posOf j) Hoj) as (p & Hp & Hst & Hall).
    destruct (Hin j p) as (HsN & Hsl & Hsp); [done|lia|].
    set (s0 := at_ (lineOf j) p) in *.
    apply (count_occ_flat_map_one _ _ _ s0).
    + apply List.NoDup_filter, List.seq_NoDup.
    + apply filter_In. split; [apply in_seq; lia|].
      unfold coverStart. by rewrite Hsp, (openOn_same s0 j).
    + apply NoDup_count_occ'; [by apply coverRun_NoDup|].
      apply coverRun_In; [done|]. rewrite Hsp, (openOn_same s0 j) by done. done.
    + intros s [Hs%in_seq Hss]%filter_In (_ & Hl & Hle & Ho)%coverRun_In; [|lia].
      unfold coverStart in Hss. rewrite (openOn_same s j) in Hss, Ho by done.
      assert (posOf s = p) as Eq by (eapply lineStart_unique; eauto).
      destruct (Hat s) as [<- _]; [lia|]. unfold s0. by rewrite <- Hl, Eq.
  - apply count_occ_flat_map_none.
    intros s [Hs%in_seq _]%filter_In (Hj & Hl & Hle & Ho)%coverRun_In; [|lia].
    specialize (Ho (posOf j)). unfold openOn in Ho. rewrite <- Hl in Ho.
    destruct (Hat j Hj) as [E _]. rewrite E, Ej in Ho. by discriminate Ho; lia.
Qed.
End Cover.

Lemma flat_map_ext_in {A B} (f g : A → list B) l :
  (∀ x, In x l → f x = g x) → flat_map f l = flat_map g l.
Proof.
  induction l as [|x l IH]; intros H; [done|]. simpl.
  rewrite H by (by left). rewrite IH; [done|]. intros; apply H; by right.
Qed.

Lemma filter_filter_and {A} (P Q : A → bool) l :
  List.filter P (List.filter Q l) = List.filter (fun x => Q x && P x) l.
Proof.
  induction l as [|x l IH]; [done|]. simpl.
  destruct (Q x); simpl; [destruct (P x)|]; by rewrite IH.
Qed.

Lemma snd_filter_imap {A B} (f : nat → A → B * A) (P : A → bool) l :
  (∀ k x, (f k x).2 = x) →
  map snd (List.filter (fun ni => P ni.2) (imap f l)) = List.filter P l.
Proof.
  revert f. induction l as [|x l IH]; intros f Hf; [done|]. simpl.
  rewrite Hf. destruct (P x); simpl; rewrite ?Hf, IH; try done; intros; apply Hf.
Qed.

Lemma acrossRun_line w h grid fuel r : ∀ cc,
  Puz.acrossRun w h grid fuel r cc =
  map (fun k => Puz.cellAt grid (r * w + k))
      (lineRun w (fun k => negb (Puz.isBlockAt w h grid r k)) fuel cc).
Proof.
  induction fuel as [|fuel IH]; intros cc; simpl; [done|].
  destruct ((cc <? w) && negb (Puz.isBlockAt w h grid r cc)); [|done].
  simpl. by rewrite IH.
Qed.

Lemma downRun_line w h grid fuel c : ∀ rr,
  Puz.downRun w h grid fuel rr c =
  map (fun k => Puz.cellAt grid (k * w + c))
      (lineRun h (fun k => negb (Puz.isBlockAt w h grid k c)) fuel rr).
Proof.
  induction fuel as [|fuel IH]; intros rr; simpl; [done|].
  destruct ((rr <? h) && negb (Puz.isBlockAt w h grid rr c)); [|done].
  simpl. by rewrite IH.
Qed.

Lemma cell_bounds w h i : i < h * w → 0 < w ∧ i / w < h ∧ i mod w < w.
Proof.
  intros Hi. assert (0 < w) by (destruct w; lia). split; [done|]. split.
  - apply Nat.Div0.div_lt_upper_bound. lia.
  - apply Nat.mod_upper_bound. lia.
Qed.

Lemma rowcol_lt w h r c : r < h → c < w → r * w + c < h * w.
Proof. nia. Qed.

Section GridFacts.
Variables (w h : nat) (grid : list Puz.Cell).
Hypothesis Hlen : length grid = h * w.
Hypothesis Hidx : ∀ i, i < h * w → Puz.index (Puz.cellAt grid i) = i.

#[local] Abbreviation openG := (openAt grid).
#[local] Abbreviation isBlockAtG := (Puz.isBlockAt w h grid).

Lemma openAt_lt i : openG i = true → i < h * w.
Proof.
  unfold openAt, Puz.cellAt. intros Ho.
  destruct (Nat.lt_ge_cases i (h * w)); [done|].
  rewrite nth_overflow in Ho by lia. done.
Qed.

Lemma isBlockAt_in r c : r < h → c < w → negb (isBlockAtG r c) = openG (r * w + c).
Proof.
  intros Hr Hc. unfold Puz.isBlockAt, openAt.
  destruct (Nat.leb_spec h r); [lia|]. destruct (Nat.leb_spec w c); [lia|]. done.
Qed.

Let atA (r k : nat) := r * w + k.
Let atD (c k : nat) := k * w + c.
Let rowOf (i : nat) := i / w.
Let colOf (i : nat) := i mod w.

Lemma acrossIdx_cover i : i < h * w →
  acrossIdx w h grid i = coverRun w openG rowOf colOf atA i.
Proof.
  intros Hi. destruct (cell_bounds w h i Hi) as (Hw & Hr & Hc).
  unfold acrossIdx, Puz.acrossCells, coverRun, rowOf, colOf, atA.
  rewrite acrossRun_line, map_map.
  rewrite (lineRun_ext w _ (openOn openG rowOf atA i)).
  2:{ intros p Hp. by apply isBlockAt_in. }
  apply map_ext_in. intros k Hk%lineRun_ge. apply Hidx, rowcol_lt; [done|lia].
Qed.

Lemma downIdx_cover i : i < h * w →
  downIdx w h grid i = coverRun h openG colOf rowOf atD i.
Proof.
  intros Hi. destruct (cell_bounds w h i Hi) as (Hw & Hr & Hc).
  unfold downIdx, Puz.downCells, coverRun, rowOf, colOf, atD.
  rewrite downRun_line, map_map.
  rewrite (lineRun_ext h _ (openOn openG colOf atD i)).
  2:{ intros p Hp. by apply isBlockAt_in. }
  apply map_ext_in. intros k Hk%lineRun_ge. apply Hidx, rowcol_lt; [lia|done].
Qed.

Lemma acrossStart_cover i : i < h * w →
  openG i && acrossStartAt w h grid i = coverStart openG rowOf colOf atA i.
Proof.
  intros Hi. destruct (cell_bounds w h i Hi) as (Hw & Hr & Hc).
  unfold coverStart, lineStart, openOn, rowOf, colOf, atA, acrossStartAt, Puz.startsAcrossAt.
  rewrite cell_index_eq. f_equal.
  destruct (Nat.eqb_spec (i mod w) 0); [done|]. simpl.
  rewrite <- isBlockAt_in by lia. by rewrite negb_involutive.
Qed.

Lemma downStart_cover i : i < h * w →
  openG i && downStartAt w h grid i = coverStart openG colOf rowOf atD i.
Proof.
  intros Hi. destruct (cell_bounds w h i Hi) as (Hw & Hr & Hc).
  unfold coverStart, lineStart, openOn, rowOf, colOf, atD, downStartAt, Puz.startsDownAt.
  rewrite cell_index_eq. f_equal.
  destruct (Nat.eqb_spec (i / w) 0); [done|]. simpl.
  rewrite <- isBlockAt_in by lia. by rewrite negb_involutive.
Qed.

Lemma isStart_across i :
  isStartCell w h grid i && acrossStartAt w h grid i = openG i && acrossStartAt w h grid i.
Proof.
  unfold isStartCell.
  destruct (openG i), (acrossStartAt w h grid i), (downStartAt w h grid i); done.
Qed.

Lemma isStart_down i :
  isStartCell w h grid i && downStartAt w h grid i = openG i && downStartAt w h grid i.
Proof.
  unfold isStartCell.
  destruct (openG i), (acrossStartAt w h grid i), (downStartAt w h grid i); done.
Qed.

Lemma scan_across_cells :
  entryCells (Puz.scAcross (Puz.scan w h grid))
  = flat_map (acrossIdx w h grid) (acrossStarts w h grid).
Proof.
  rewrite (sc_across _ _ _ _ _ (scanned_scan w h grid)).
  unfold entryCells. rewrite flat_map_concat_map, map_map, <- flat_map_concat_map.
  transitivity (flat_map (acrossIdx w h grid)
    (map snd (List.filter (fun ni => acrossStartAt w h grid ni.2)
                (numberedOf w h grid (seq 0 (h * w)))))).
  { rewrite (flat_map_concat_map (acrossIdx w h grid)), map_map, <- flat_map_concat_map. done. }
  f_equal. unfold numberedOf. rewrite snd_filter_imap by done.
  unfold startCellsOf, acrossStarts. rewrite filter_filter_and.
  apply List.filter_ext. intros i. apply isStart_across.
Qed.

Lemma scan_down_cells :
  entryCells (Puz.scDown (Puz.scan w h grid))
  = flat_map (downIdx w h grid) (downStarts w h grid).
Proof.
  rewrite (sc_down _ _ _ _ _ (scanned_scan w h grid)).
  unfold entryCells. rewrite flat_map_concat_map, map_map, <- flat_map_concat_map.
  transitivity (flat_map (downIdx w h grid)
    (map snd (List.filter (fun ni => downStartAt w h grid ni.2)
                (numberedOf w h grid (seq 0 (h * w)))))).
  { rewrite (flat_map_concat_map (downIdx w h grid)), map_map, <- flat_map_concat_map. done. }
  f_equal. unfold numberedOf. rewrite snd_filter_imap by done.
  unfold startCellsOf, downStarts. rewrite filter_filter_and.
  apply List.filter_ext. intros i. apply isStart_down.
Qed.

Lemma across_cover j :
  count_occ Nat.eq_dec (entryCells (Puz.scAcross (Puz.scan w h grid))) j
  = if openG j then 1 else 0.
Proof.
  rewrite scan_across_cells.
  rewrite <- (cover (h * w) w openG rowOf colOf atA); cycle 1.
  - intros i Hi. destruct (cell_bounds w h i Hi) as (? & ? & ?).
    unfold atA, rowOf, colOf. by rewrite cell_index_eq.
  - intros i p Hi Hp. destruct (cell_bounds w h i Hi) as (? & ? & ?).
    unfold atA, rowOf, colOf. destruct (divmod_cell w (i / w) p Hp) as [-> ->].
    split; [by apply rowcol_lt|done].
  - apply openAt_lt.
  - f_equal. unfold acrossStarts.
    rewrite (List.filter_ext_in _ (coverStart openG rowOf colOf atA)).
    2:{ intros i Hi%in_seq. apply acrossStart_cover. lia. }
    apply flat_map_ext_in. intros i [Hi%in_seq _]%filter_In. apply acrossIdx_cover. lia.
Qed.

Lemma down_cover j :
  count_occ Nat.eq_dec (entryCells (Puz.scDown (Puz.scan w h grid))) j
  = if openG j then 1 else 0.
Proof.
  rewrite scan_down_cells.
  rewrite <- (cover (h * w) h openG colOf rowOf atD); cycle 1.
  - intros i Hi. destruct (cell_bounds w h i Hi) as (? & ? & ?).
    unfold atD, rowOf, colOf. by rewrite cell_index_eq.
  - intros i p Hi Hp. destruct (cell_bounds w h i Hi) as (? & ? & ?).
    unfold atD, rowOf, colOf. destruct (divmod_cell w p (i mod w)) as [-> ->]; [done|].
    split; [by apply rowcol_lt|done].
  - apply openAt_lt.
  - f_equal. unfold downStarts.
    rewrite (List.filter_ext_in _ (coverStart openG colOf rowOf atD)).
    2:{ intros i Hi%in_seq. apply downStart_cover. lia. }
    apply flat_map_ext_in. intros i [Hi%in_seq _]%filter_In. apply downIdx_cover. lia.
Qed.
End GridFacts.

(** ** Clue assignment as a sequence of [take()] calls *)

Lemma map_alter_same {A B} (f : A → B) (g : A → A) l : ∀ i,
  (∀ x, f (g x) = f x) → map f (alter g i l) = map f l.
Proof.
  induction l as [|x l IH]; intros [|i] H; simpl; try done.
  - by rewrite H.
  - f_equal. by apply IH.
Qed.

Section Assign.
Variable raw : list string.

Lemma applySlot_shape a s :
  map Puz.number (Puz.asAcross (applySlot raw a s)) = map Puz.number (Puz.asAcross a) ∧
  map Puz.cells (Puz.asAcross (applySlot raw a s)) = map Puz.cells (Puz.asAcross a) ∧
  map Puz.number (Puz.asDown (applySlot raw a s)) = map Puz.number (Puz.asDown a) ∧
  map Puz.cells (Puz.asDown (applySlot raw a s)) = map Puz.cells (Puz.asDown a).
Proof.
  destruct s as [i|j]; simpl; unfold Puz.takeAcross, Puz.takeDown;
    destruct (Puz.take_ raw (Puz.clueIdx a)) as [c k]; simpl;
    repeat split; try done; by apply map_alter_same.
Qed.

Lemma foldl_applySlot_shape slots : ∀ a,
  let a' := foldl (applySlot raw) a slots in
  map Puz.number (Puz.asAcross a') = map Puz.number (Puz.asAcross a) ∧
  map Puz.cells (Puz.asAcross a') = map Puz.cells (Puz.asAcross a) ∧
  map Puz.number (Puz.asDown a') = map Puz.number (Puz.asDown a) ∧
  map Puz.cells (Puz.asDown a') = map Puz.cells (Puz.asDown a).
Proof.
  induction slots as [|s slots IH]; intros a; [done|]. simpl.
  destruct (IH (applySlot raw a s)) as (-> & -> & -> & ->). apply applySlot_shape.
Qed.

Lemma applySlot_length a s :
  length (Puz.asAcross (applySlot raw a s)) = length (Puz.asAcross a) ∧
  length (Puz.asDown (applySlot raw a s)) = length (Puz.asDown a).
Proof.
  destruct (applySlot_shape a s) as (H1 & _ & H2 & _).
  apply (f_equal length) in H1, H2. by rewrite !length_map in H1, H2.
Qed.

Lemma foldl_applySlot_length slots a :
  length (Puz.asAcross (foldl (applySlot raw) a slots)) = length (Puz.asAcross a) ∧
  length (Puz.asDown (foldl (applySlot raw) a slots)) = length (Puz.asDown a).
Proof.
  destruct (foldl_applySlot_shape slots a) as (H1 & _ & H2 & _).
  apply (f_equal length) in H1, H2. by rewrite !length_map in H1, H2.
Qed.

Lemma applySlot_other a s s' : s ≠ s' → clueAt (applySlot raw a s) s' = clueAt a s'.
Proof.
  intros Hne. destruct s as [i|j], s' as [i'|j']; simpl;
    unfold Puz.takeAcross, Puz.takeDown;
    destruct (Puz.take_ raw (Puz.clueIdx a)) as [c k]; simpl; try done;
    rewrite list_lookup_alter_ne; congruence.
Qed.

Lemma take_at k0 a :
  Puz.clueIdx a = k0 `min` length raw →
  Puz.take_ raw (Puz.clueIdx a) = (default ""%string (raw !! k0), S k0 `min` length raw).
Proof.
  intros ->. unfold Puz.take_.
  destruct (Nat.le_gt_cases (length raw) k0) as [Hle|Hlt].
  - rewrite Nat.min_r by done.
    rewrite (lookup_ge_None_2 raw (length raw)) by lia.
    rewrite (lookup_ge_None_2 raw k0) by lia. f_equal; try done; lia.
  - rewrite Nat.min_l by lia. destruct (lookup_lt_is_Some_2 raw k0 Hlt) as [c ->].
    f_equal; try done; lia.
Qed.

Lemma applySlot_same k0 a s :
  Puz.clueIdx a = k0 `min` length raw → inRange a s →
  clueAt (applySlot raw a s) s = Some (default ""%string (raw !! k0)) ∧
  Puz.clueIdx (applySlot raw a s) = S k0 `min` length raw.
Proof.
  intros Hk Hr. destruct s as [i|j]; simpl in *; unfold Puz.takeAcross, Puz.takeDown;
    rewrite (take_at k0) by done; simpl; (split; [|done]);
    rewrite list_lookup_alter_eq;
    [destruct (lookup_lt_is_Some_2 (Puz.asAcross a) i) as [e ->]; [done|]
    |destruct (lookup_lt_is_Some_2 (Puz.asDown a) j) as [e ->]; [done|]]; done.
Qed.

Lemma applySlot_idx k0 a s :
  Puz.clueIdx a = k0 `min` length raw →
  Puz.clueIdx (applySlot raw a s) = S k0 `min` length raw.
Proof.
  intros Hk. destruct s as [i|j]; simpl; unfold Puz.takeAcross, Puz.takeDown;
    by rewrite (take_at k0) by done.
Qed.

Lemma foldl_applySlot_other slots : ∀ a s',
  ¬ In s' slots → clueAt (foldl (applySlot raw) a slots) s' = clueAt a s'.
Proof.
  induction slots as [|s slots IH]; intros a s' Hn; [done|]. simpl.
  rewrite IH by (intros ?; apply Hn; by right).
  apply applySlot_other. intros ->. apply Hn. by left.
Qed.

Lemma foldl_applySlot_clue slots : ∀ k0 a,
  List.NoDup slots → Puz.clueIdx a = k0 `min` length raw →
  (∀ s, In s slots → inRange a s) →
  ∀ k s, slots !! k = Some s →
    clueAt (foldl (applySlot raw) a slots) s = Some (default ""%string (raw !! (k0 + k))).
Proof.
  induction slots as [|s0 slots IH]; intros k0 a Hnd Hk Hr k s Hks; [done|].
  apply List.NoDup_cons_iff in Hnd as [Hs0 Hnd]. simpl.
  destruct (applySlot_same k0 a s0 Hk) as [Hc Hk']; [apply Hr; by left|].
  destruct k as [|k]; simpl in Hks.
  - injection Hks as <-. rewrite foldl_applySlot_other by done.
    by rewrite Nat.add_0_r.
  - replace (k0 + S k) with (S k0 + k) by lia. apply IH; try done.
    intros s' Hs'. destruct (applySlot_length a s0) as [E1 E2].
    specialize (Hr s' (or_intror Hs')). destruct s'; simpl in *; lia.
Qed.

(** *** [assignClues] is that sequence *)

Lemma foldl_map_slot {A} (f : A → nat + nat) (g : Puz.Assign → A → Puz.Assign) l :
  (∀ a x, applySlot raw a (f x) = g a x) →
  ∀ a, foldl (applySlot raw) a (map f l) = foldl g a l.
Proof.
  intros H. induction l as [|x l IH]; intros a; [done|]. simpl. by rewrite H, IH.
Qed.

Lemma foldl_flat_map_slot {A} (f : A → list (nat + nat)) (g : Puz.Assign → A → Puz.Assign) l :
  (∀ a x, foldl (applySlot raw) a (f x) = g a x) →
  ∀ a, foldl (applySlot raw) a (flat_map f l) = foldl g a l.
Proof.
  intros H. induction l as [|x l IH]; intros a; [done|]. simpl.
  by rewrite foldl_app, H, IH.
Qed.

Lemma startAcross_slots a s : foldl (applySlot raw) a (slotsA s) = Puz.startAcross raw a s.
Proof.
  unfold slotsA, slotA, Puz.startAcross.
  destruct (Puz.startsAcross s), (Puz.acrossIndex s); done.
Qed.

Lemma startDown_slots a s : foldl (applySlot raw) a (slotsD s) = Puz.startDown raw a s.
Proof.
  unfold slotsD, slotD, Puz.startDown.
  destruct (Puz.startsDown s), (Puz.downIndex s); done.
Qed.

Lemma assignClues_takeOrder order starts a :
  Puz.assignClues raw order starts a =
  foldl (applySlot raw) a
        (takeOrder order starts (length (Puz.asAcross a)) (length (Puz.asDown a))).
Proof.
  destruct order; simpl; rewrite ?foldl_app.
  - unfold Puz.allDown, Puz.allAcross.
    rewrite (foldl_map_slot inl (Puz.takeAcross raw)) by done.
    rewrite (foldl_map_slot inr (Puz.takeDown raw)) by done.
    do 2 f_equal.
    pose proof (foldl_applySlot_length (map inl (seq 0 (length (Puz.asAcross a)))) a) as [_ E].
    rewrite (foldl_map_slot inl (Puz.takeAcross raw)) in E by done. done.
  - unfold Puz.allDown, Puz.allAcross.
    rewrite (foldl_map_slot inr (Puz.takeDown raw)) by done.
    rewrite (foldl_map_slot inl (Puz.takeAcross raw)) by done.
    do 2 f_equal.
    pose proof (foldl_applySlot_length (map inr (seq 0 (length (Puz.asDown a)))) a) as [E _].
    rewrite (foldl_map_slot inr (Puz.takeDown raw)) in E by done. done.
  - symmetry. apply foldl_flat_map_slot. intros a' s.
    by rewrite foldl_app, startAcross_slots, startDown_slots.
  - symmetry. apply foldl_flat_map_slot. intros a' s.
    by rewrite foldl_app, startAcross_slots, startDown_slots.
Qed.
End Assign.

Lemma flat_map_app_perm {A B} (f g : A → list B) l :
  flat_map (fun x => f x ++ g x) l ≡ₚ flat_map f l ++ flat_map g l.
Proof.
  induction l as [|x l IH]; [done|]. simpl. rewrite IH.
  rewrite <- !app_assoc. apply Permutation_app_head.
  rewrite !app_assoc. apply Permutation_app_tail, Permutation_app_comm.
Qed.

Lemma flat_map_option_list {A B} (f : A → option B) l :
  flat_map (fun x => option_list (f x)) l = omap f l.
Proof.
  induction l as [|x l IH]; [done|]. csimpl. destruct (f x); csimpl; by rewrite IH.
Qed.

Lemma omap_fmap_option {A B C} (g : B → C) (f : A → option B) (l : list A) :
  omap (fun x => g <$> f x) l = map g (omap f l).
Proof.
  induction l as [|x l IH]; [done|]. csimpl. destruct (f x); csimpl; by rewrite IH.
Qed.

Lemma takeOrder_perm order starts na nd :
  omap slotA starts = seq 0 na → omap slotD starts = seq 0 nd →
  takeOrder order starts na nd ≡ₚ allSlots na nd.
Proof.
  intros HA HD. unfold allSlots.
  assert (EA : flat_map slotsA starts = map inl (seq 0 na)).
  { unfold slotsA. by rewrite flat_map_option_list, omap_fmap_option, HA. }
  assert (ED : flat_map slotsD starts = map inr (seq 0 nd)).
  { unfold slotsD. by rewrite flat_map_option_list, omap_fmap_option, HD. }
  destruct order; simpl.
  - done.
  - apply Permutation_app_comm.
  - by rewrite flat_map_app_perm, EA, ED.
  - rewrite flat_map_app_perm, EA, ED. apply Permutation_app_comm.
Qed.

Lemma allSlots_NoDup na nd : List.NoDup (allSlots na nd).
Proof.
  unfold allSlots. apply NoDup_ListNoDup, NoDup_app. split; [|split].
  - apply (NoDup_fmap_2 inl), NoDup_seq.
  - intros s (i & -> & _)%list_elem_of_fmap (j & ? & _)%list_elem_of_fmap. done.
  - apply (NoDup_fmap_2 inr), NoDup_seq.
Qed.

Lemma allSlots_In na nd s :
  In s (allSlots na nd) ↔ match s with inl i => i < na | inr j => j < nd end.
Proof.
  unfold allSlots. rewrite in_app_iff, !in_map_iff. split.
  - intros [(i & <- & ?%in_seq)|(j & <- & ?%in_seq)]; lia.
  - destruct s as [i|j]; intros ?; [left; exists i|right; exists j];
      (split; [done|apply in_seq; lia]).
Qed.

Section Build.
Variables (w h : nat) (grid : list Puz.Cell) (raw : list string) (order : Puz.ClueOrder).

Let sc := Puz.scan w h grid.
Let a := Puz.buildEntries w h grid raw order.

Lemma buildEntries_fold :
  a = foldl (applySlot raw) (Puz.mkAssign (Puz.scAcross sc) (Puz.scDown sc) 0)
        (takeOrder order (Puz.scStarts sc) (length (Puz.scAcross sc)) (length (Puz.scDown sc))).
Proof. unfold a, Puz.buildEntries. by rewrite assignClues_takeOrder. Qed.

Lemma buildEntries_shape :
  map Puz.number (Puz.asAcross a) = map Puz.number (Puz.scAcross sc) ∧
  map Puz.cells (Puz.asAcross a) = map Puz.cells (Puz.scAcross sc) ∧
  map Puz.number (Puz.asDown a) = map Puz.number (Puz.scDown sc) ∧
  map Puz.cells (Puz.asDown a) = map Puz.cells (Puz.scDown sc).
Proof. rewrite buildEntries_fold. apply foldl_applySlot_shape. Qed.

Lemma buildEntries_length :
  length (Puz.asAcross a) = length (Puz.scAcross sc) ∧
  length (Puz.asDown a) = length (Puz.scDown sc).
Proof. rewrite buildEntries_fold. apply foldl_applySlot_length. Qed.

Lemma buildEntries_clues :
  let slots := takeOrder order (Puz.scStarts sc)
                 (length (Puz.asAcross a)) (length (Puz.asDown a)) in
  slots ≡ₚ allSlots (length (Puz.asAcross a)) (length (Puz.asDown a)) ∧
  ∀ k s, slots !! k = Some s → clueAt a s = Some (default ""%string (raw !! k)).
Proof.
  destruct buildEntries_length as [-> ->].
  pose proof (scanned_scan w h grid) as Hsc. fold sc in Hsc.
  pose proof (takeOrder_perm order (Puz.scStarts sc) _ _
                (sc_slotsA _ _ _ _ _ Hsc) (sc_slotsD _ _ _ _ _ Hsc)) as Hp.
  split; [done|]. intros k s Hk. rewrite buildEntries_fold.
  apply (foldl_applySlot_clue raw _ 0); try done.
  - eapply Permutation_NoDup; [symmetry; exact Hp|apply allSlots_NoDup].
  - intros s' Hs'. apply (Permutation_in _ Hp), allSlots_In in Hs'. by destruct s'.
Qed.
End Build.

(** ** The decoder's failures *)

Lemma skipToNul_spec rest : ∀ c,
  let c' := Puz.skipToNul rest c in
  c ≤ c' ≤ c + length rest ∧
  (c' = c + length rest → countNul rest = 0) ∧
  (c' < c + length rest → countNul (drop (S (c' - c)) rest) + 1 = countNul rest).
Proof.
  induction rest as [|b rest IH]; intros c; simpl.
  - repeat split; try lia; done.
  - unfold countNul. simpl. destruct (Puz.isNul b) eqn:Eb; simpl.
    + repeat split; try lia. intros _. rewrite Nat.sub_diag. simpl. rewrite drop_0. lia.
    + destruct (IH (S c)) as (Hr & H0 & H1). repeat split; try lia.
      * intros E. apply H0. lia.
      * intros Hlt. unfold countNul in H1. rewrite <- H1 by lia.
        replace (Puz.skipToNul rest (S c) - c) with (S (Puz.skipToNul rest (S c) - S c)) by lia.
        done.
Qed.

Lemma readNullTerminated_spec bytes c :
  c ≤ length bytes →
  match Puz.readNullTerminated bytes c with
  | Puz.Err e => e = Puz.UnterminatedString ∧ countNul (drop c bytes) = 0
  | Puz.Ok (_, c') => c' ≤ length bytes ∧ countNul (drop c' bytes) + 1 = countNul (drop c bytes)
  end.
Proof.
  intros Hc. unfold Puz.readNullTerminated.
  destruct (skipToNul_spec (drop c bytes) c) as (Hr & H0 & H1).
  rewrite length_drop in Hr, H0, H1.
  destruct (Nat.leb_spec (length bytes) (Puz.skipToNul (drop c bytes) c)) as [Hle|Hlt].
  - split; [done|]. apply H0. lia.
  - split; [lia|]. rewrite <- H1 by lia. rewrite drop_drop. do 3 f_equal. lia.
Qed.

Lemma readClues_spec bytes n : ∀ c acc,
  c ≤ length bytes →
  match Puz.readClues bytes n c acc with
  | Puz.Err e => e = Puz.UnterminatedString ∧ countNul (drop c bytes) < n
  | Puz.Ok (raw, _) => n ≤ countNul (drop c bytes) ∧ length raw = length acc + n
  end.
Proof.
  induction n as [|n IH]; intros c acc Hc; simpl.
  - split; lia.
  - pose proof (readNullTerminated_spec bytes c Hc) as H1.
    destruct (Puz.readNullTerminated bytes c) as [[s c']|e]; simpl.
    + destruct H1 as [Hc' Hn]. specialize (IH c' (acc ++ [s]) Hc').
      destruct (Puz.readClues bytes n c' (acc ++ [s])) as [[raw c'']|e].
      * rewrite length_app in IH. simpl in IH. lia.
      * destruct IH as [-> ?]. split; [done|lia].
    + destruct H1 as [-> ?]. split; [done|lia].
Qed.

Lemma header_reads bytes :
  48 ≤ length bytes →
  Puz.getUint8 bytes Puz.OFFSET_WIDTH = Puz.Ok (widthOf bytes) ∧
  Puz.getUint8 bytes Puz.OFFSET_HEIGHT = Puz.Ok (heightOf bytes) ∧
  Puz.getUint16 bytes Puz.OFFSET_NUM_CLUES = Puz.Ok (numCluesOf bytes).
Proof.
  intros Hl. unfold Puz.getUint8, Puz.getUint16, widthOf, heightOf, numCluesOf, byteAt,
    Puz.OFFSET_WIDTH, Puz.OFFSET_HEIGHT, Puz.OFFSET_NUM_CLUES.
  destruct (lookup_lt_is_Some_2 bytes 44) as [b0 ->]; [lia|].
  destruct (lookup_lt_is_Some_2 bytes 45) as [b1 ->]; [lia|].
  destruct (lookup_lt_is_Some_2 bytes 46) as [b2 ->]; [lia|].
  destruct (lookup_lt_is_Some_2 bytes 47) as [b3 ->]; [lia|]. done.
Qed.

Ltac string_missing :=
  match goal with
  | |- context [?n <? ?m] => destruct (Nat.ltb_spec n m); [done|lia]
  end.

Lemma parsePuz_outcome bytes opts :
  match outcomeOf bytes with
  | HeaderOutOfRange => Puz.parsePuz bytes opts = Puz.Err Puz.RangeError
  | NoDimensions => Puz.parsePuz bytes opts = Puz.Err Puz.MissingDimensions
  | GridTooShort => Puz.parsePuz bytes opts = Puz.Err Puz.TruncatedGrid
  | StringMissing => Puz.parsePuz bytes opts = Puz.Err Puz.UnterminatedString
  | Decoded =>
      ∃ p, Puz.parsePuz bytes opts = Puz.Ok p ∧
           Puz.width p = widthOf bytes ∧ Puz.height p = heightOf bytes ∧
           Puz.width p ≠ 0 ∧ Puz.height p ≠ 0 ∧
           Puz.grid p = gridOf bytes ∧
           length (Puz.cluesRaw p) = numCluesOf bytes ∧
           Puz.clueOrder p = default Puz.interleaved_ad (Puz.optClueOrder opts) ∧
           let a := Puz.buildEntries (Puz.width p) (Puz.height p) (Puz.grid p)
                      (Puz.cluesRaw p) (Puz.clueOrder p) in
           Puz.across p = Puz.asAcross a ∧ Puz.down p = Puz.asDown a
  end.
Proof.
  unfold outcomeOf. destruct (Nat.ltb_spec (length bytes) 48) as [Hs|Hl].
  { unfold Puz.parsePuz, Puz.getUint8, Puz.getUint16,
      Puz.OFFSET_WIDTH, Puz.OFFSET_HEIGHT, Puz.OFFSET_NUM_CLUES.
    destruct (bytes !! 44) eqn:E0; [|done]. simpl.
    destruct (bytes !! 45) eqn:E1; [|done]. simpl.
    destruct (bytes !! 46) eqn:E2; [|done].
    rewrite (lookup_ge_None_2 bytes 47) by lia. done. }
  destruct (header_reads bytes Hl) as (Ew & Eh & En).
  unfold Puz.parsePuz. rewrite Ew, Eh, En. cbn [mbind Puz.result_bind].
  destruct ((widthOf bytes =? 0) || (heightOf bytes =? 0)) eqn:Ed; [done|].
  apply orb_false_iff in Ed as [Hw%Nat.eqb_neq Hh%Nat.eqb_neq].
  unfold stringsOffset.
  replace (Puz.OFFSET_SOLUTION + widthOf bytes * heightOf bytes + widthOf bytes * heightOf bytes)
    with (Puz.OFFSET_SOLUTION + 2 * (widthOf bytes * heightOf bytes)) by lia.
  set (c0 := Puz.OFFSET_SOLUTION + 2 * (widthOf bytes * heightOf bytes)).
  destruct (Nat.ltb_spec (length bytes) c0) as [Ht|Hc0]; [done|].
  pose proof (readNullTerminated_spec bytes c0 Hc0) as H1.
  destruct (Puz.readNullTerminated bytes c0) as [[t c1]|e]; cbn [mbind Puz.result_bind].
  2:{ destruct H1 as [-> H1]. by string_missing. }
  destruct H1 as [Hc1 H1]. pose proof (readNullTerminated_spec bytes c1 Hc1) as H2.
  destruct (Puz.readNullTerminated bytes c1) as [[au c2]|e]; cbn [mbind Puz.result_bind].
  2:{ destruct H2 as [-> H2]. by string_missing. }
  destruct H2 as [Hc2 H2]. pose proof (readNullTerminated_spec bytes c2 Hc2) as H3.
  destruct (Puz.readNullTerminated bytes c2) as [[cp c3]|e]; cbn [mbind Puz.result_bind].
  2:{ destruct H3 as [-> H3]. by string_missing. }
  destruct H3 as [Hc3 H3].
  pose proof (readClues_spec bytes (numCluesOf bytes) c3 [] Hc3) as H4.
  destruct (Puz.readClues bytes (numCluesOf bytes) c3 []) as [[raw c4]|e];
    cbn [mbind Puz.result_bind].
  2:{ destruct H4 as [-> H4]. by string_missing. }
  destruct H4 as [H4 Hraw].
  destruct (Nat.ltb_spec (countNul (drop c0 bytes)) (3 + numCluesOf bytes)); [lia|].
  eexists. split; [done|].
  cbn [Puz.width Puz.height Puz.grid Puz.cluesRaw Puz.clueOrder Puz.across Puz.down].
  repeat split; done.
Qed.

(** ** The grid [parsePuz] builds *)

Lemma buildGrid_length w n sol : length (Puz.buildGrid w n sol) = n.
Proof. unfold Puz.buildGrid. by rewrite length_map, length_seq. Qed.

Lemma buildGrid_cellAt w n sol i :
  i < n → Puz.cellAt (Puz.buildGrid w n sol) i = Puz.buildCell w sol i.
Proof.
  intros Hi. unfold Puz.cellAt, Puz.buildGrid.
  rewrite (nth_indep _ _ (Puz.buildCell w sol 0)) by (by rewrite length_map, length_seq).
  rewrite (map_nth (Puz.buildCell w sol)). by rewrite seq_nth.
Qed.

Lemma buildGrid_index w n sol i :
  i < n → Puz.index (Puz.cellAt (Puz.buildGrid w n sol) i) = i.
Proof. intros Hi. by rewrite buildGrid_cellAt. Qed.

Lemma filter_seq_sorted (P : nat → bool) n : ∀ a k1 k2 i1 i2,
  List.filter P (seq a n) !! k1 = Some i1 →
  List.filter P (seq a n) !! k2 = Some i2 →
  k1 < k2 → i1 < i2.
Proof.
  induction n as [|n IH]; intros a k1 k2 i1 i2 H1 H2 Hk; [done|].
  simpl in H1, H2. destruct (P a); [|by eapply IH].
  destruct k2 as [|k2]; [lia|]. simpl in H2. destruct k1 as [|k1]; simpl in H1.
  - injection H1 as <-.
    apply list_elem_of_lookup_2, list_elem_of_In, filter_In in H2 as [H2%in_seq _]. lia.
  - eapply IH; eauto. lia.
Qed.

Lemma filter_seq_lookup_inj (P : nat → bool) n a k1 k2 i :
  List.filter P (seq a n) !! k1 = Some i →
  List.filter P (seq a n) !! k2 = Some i → k1 = k2.
Proof.
  intros H1 H2. destruct (Nat.lt_trichotomy k1 k2) as [?|[?|?]]; [|done|].
  - pose proof (filter_seq_sorted P n a k1 k2 i i H1 H2). lia.
  - pose proof (filter_seq_sorted P n a k2 k1 i i H2 H1). lia.
Qed.

Section GridHeads.
Variables (w h : nat) (grid : list Puz.Cell).
Hypothesis Hlen : length grid = h * w.
Hypothesis Hidx : ∀ i, i < h * w → Puz.index (Puz.cellAt grid i) = i.

Lemma acrossIdx_head i :
  i < h * w → openAt grid i = true → head (acrossIdx w h grid i) = Some i.
Proof.
  intros Hi Ho. destruct (cell_bounds w h i Hi) as (Hw & Hr & Hc).
  rewrite (acrossIdx_cover w h grid Hlen Hidx i Hi). unfold coverRun.
  destruct (lineRun_head w (openOn (openAt grid) (fun i => i / w) (fun r k => r * w + k) i)
              (i mod w)) as [E|E].
  - destruct (lineRun _ _ _ _); [done|]. simpl in *. injection E as ->.
    by rewrite cell_index_eq.
  - exfalso. revert E. apply lineRun_nonempty; [done|].
    unfold openOn. by rewrite cell_index_eq.
Qed.

Lemma downIdx_head i :
  i < h * w → openAt grid i = true → head (downIdx w h grid i) = Some i.
Proof.
  intros Hi Ho. destruct (cell_bounds w h i Hi) as (Hw & Hr & Hc).
  rewrite (downIdx_cover w h grid Hlen Hidx i Hi). unfold coverRun.
  destruct (lineRun_head h (openOn (openAt grid) (fun i => i mod w) (fun c k => k * w + c) i)
              (i / w)) as [E|E].
  - destruct (lineRun _ _ _ _); [done|]. simpl in *. injection E as ->.
    by rewrite cell_index_eq.
  - exfalso. revert E. apply lineRun_nonempty; [done|].
    unfold openOn. by rewrite cell_index_eq.
Qed.
End GridHeads.

(** ** What a decoded puzzle looks like *)

Lemma map_lookup {A B} (f : A → B) (l : list A) (i : nat) : map f l !! i = f <$> l !! i.
Proof. apply (list_lookup_fmap f l i). Qed.

Lemma parsePuz_Ok_inv bytes opts p :
  Puz.parsePuz bytes opts = Puz.Ok p →
  Puz.width p ≠ 0 ∧ Puz.height p ≠ 0 ∧
  Puz.grid p = gridOf bytes ∧ Puz.width p = widthOf bytes ∧ Puz.height p = heightOf bytes ∧
  Puz.across p = Puz.asAcross (Puz.buildEntries (Puz.width p) (Puz.height p) (Puz.grid p)
                                  (Puz.cluesRaw p) (Puz.clueOrder p)) ∧
  Puz.down p = Puz.asDown (Puz.buildEntries (Puz.width p) (Puz.height p) (Puz.grid p)
                                  (Puz.cluesRaw p) (Puz.clueOrder p)).
Proof.
  intros Hp. pose proof (parsePuz_outcome bytes opts) as H.
  destruct (outcomeOf bytes); try congruence.
  destruct H as (p' & Hp' & Hw & Hh & ? & ? & Hg & _ & _ & Ha & Hd).
  assert (p' = p) as -> by congruence. done.
Qed.

Section Decoded.
Variables (bytes : list byte) (opts : Puz.ParseOptions) (p : Puz.ParsedPuz).
Hypothesis Hp : Puz.parsePuz bytes opts = Puz.Ok p.

Lemma decoded_dims : Puz.width p ≠ 0 ∧ Puz.height p ≠ 0.
Proof. destruct (parsePuz_Ok_inv _ _ _ Hp) as (? & ? & _). done. Qed.

Lemma decoded_grid_length : length (Puz.grid p) = Puz.height p * Puz.width p.
Proof.
  destruct (parsePuz_Ok_inv _ _ _ Hp) as (_ & _ & -> & -> & -> & _).
  unfold gridOf. rewrite buildGrid_length. lia.
Qed.

Lemma decoded_grid_index i :
  i < Puz.height p * Puz.width p → Puz.index (Puz.cellAt (Puz.grid p) i) = i.
Proof.
  destruct (parsePuz_Ok_inv _ _ _ Hp) as (_ & _ & -> & -> & -> & _).
  intros Hi. apply buildGrid_index. lia.
Qed.

Lemma decoded_across_view :
  map Puz.number (Puz.across p) = map fst (acrossView p) ∧
  map cellIdxs (Puz.across p) =
    map (fun ni => acrossIdx (Puz.width p) (Puz.height p) (Puz.grid p) ni.2) (acrossView p).
Proof.
  destruct (parsePuz_Ok_inv _ _ _ Hp) as (_ & _ & _ & _ & _ & -> & _).
  destruct (buildEntries_shape (Puz.width p) (Puz.height p) (Puz.grid p)
              (Puz.cluesRaw p) (Puz.clueOrder p)) as (Hn & Hc & _ & _).
  rewrite Hn. unfold cellIdxs.
  rewrite <- (map_map Puz.cells (map Puz.index)), Hc.
  rewrite (sc_across _ _ _ _ _ (scanned_scan (Puz.width p) (Puz.height p) (Puz.grid p))).
  rewrite !map_map. done.
Qed.

Lemma decoded_down_view :
  map Puz.number (Puz.down p) = map fst (downView p) ∧
  map cellIdxs (Puz.down p) =
    map (fun ni => downIdx (Puz.width p) (Puz.height p) (Puz.grid p) ni.2) (downView p).
Proof.
  destruct (parsePuz_Ok_inv _ _ _ Hp) as (_ & _ & _ & _ & _ & _ & ->).
  destruct (buildEntries_shape (Puz.width p) (Puz.height p) (Puz.grid p)
              (Puz.cluesRaw p) (Puz.clueOrder p)) as (_ & _ & Hn & Hc).
  rewrite Hn. unfold cellIdxs.
  rewrite <- (map_map Puz.cells (map Puz.index)), Hc.
  rewrite (sc_down _ _ _ _ _ (scanned_scan (Puz.width p) (Puz.height p) (Puz.grid p))).
  rewrite !map_map. done.
Qed.

Lemma startCells_lookup k i :
  startCells p !! k = Some i →
  i < Puz.height p * Puz.width p ∧ isOpenCell p i = true ∧
  (startsAcrossCell p i = true ∨ startsDownCell p i = true).
Proof.
  intros H%list_elem_of_lookup_2%list_elem_of_In.
  apply filter_In in H as [Hi%in_seq Hs]. split; [lia|].
  unfold isStartCell in Hs. apply andb_true_iff in Hs as [Ho Hs].
  apply orb_true_iff in Hs. done.
Qed.

Lemma view_lookup (P : nat → bool) a n i :
  List.filter (fun ni => P ni.2) (imap (fun k i => (S k, i)) (startCells p)) !! a = Some (n, i) →
  ∃ k, n = S k ∧ startCells p !! k = Some i ∧ P i = true.
Proof.
  intros H%list_elem_of_lookup_2%list_elem_of_In.
  apply filter_In in H as [H%list_elem_of_In%elem_of_lookup_imap HP].
  destruct H as (k & i' & [= -> ->] & Hk). by exists k.
Qed.

Lemma view_elem (P : nat → bool) k i :
  startCells p !! k = Some i → P i = true →
  In (S k, i) (List.filter (fun ni => P ni.2) (imap (fun k i => (S k, i)) (startCells p))).
Proof.
  intros Hk HP. apply filter_In. split; [|done].
  apply list_elem_of_In, elem_of_lookup_imap. by exists k, i.
Qed.

(** Entry [a] of the across list: its number and cells. *)
Lemma across_entry a e :
  Puz.across p !! a = Some e →
  ∃ k i, acrossView p !! a = Some (S k, i) ∧ startCells p !! k = Some i ∧
         Puz.number e = S k ∧ firstCell e = Some i ∧
         cellIdxs e = acrossIdx (Puz.width p) (Puz.height p) (Puz.grid p) i.
Proof.
  intros He. destruct decoded_across_view as [Hn Hc].
  assert (map Puz.number (Puz.across p) !! a = Some (Puz.number e)) as H1
    by (by rewrite map_lookup, He).
  assert (map cellIdxs (Puz.across p) !! a = Some (cellIdxs e)) as H2
    by (by rewrite map_lookup, He).
  rewrite Hn, map_lookup in H1. rewrite Hc, map_lookup in H2.
  destruct (acrossView p !! a) as [[n i]|] eqn:Ev; [|done].
  simpl in H1, H2. injection H1 as En. injection H2 as Ec.
  destruct (view_lookup _ _ _ _ Ev) as (k & E & Hk & Hs).
  destruct (startCells_lookup k i Hk) as (Hi & Ho & _).
  exists k, i. unfold firstCell. rewrite <- Ec.
  repeat split; try done; try congruence.
  apply (acrossIdx_head _ _ _ decoded_grid_length decoded_grid_index); done.
Qed.

Lemma down_entry a e :
  Puz.down p !! a = Some e →
  ∃ k i, downView p !! a = Some (S k, i) ∧ startCells p !! k = Some i ∧
         Puz.number e = S k ∧ firstCell e = Some i ∧
         cellIdxs e = downIdx (Puz.width p) (Puz.height p) (Puz.grid p) i.
Proof.
  intros He. destruct decoded_down_view as [Hn Hc].
  assert (map Puz.number (Puz.down p) !! a = Some (Puz.number e)) as H1
    by (by rewrite map_lookup, He).
  assert (map cellIdxs (Puz.down p) !! a = Some (cellIdxs e)) as H2
    by (by rewrite map_lookup, He).
  rewrite Hn, map_lookup in H1. rewrite Hc, map_lookup in H2.
  destruct (downView p !! a) as [[n i]|] eqn:Ev; [|done].
  simpl in H1, H2. injection H1 as En. injection H2 as Ec.
  destruct (view_lookup _ _ _ _ Ev) as (k & E & Hk & Hs).
  destruct (startCells_lookup k i Hk) as (Hi & Ho & _).
  exists k, i. unfold firstCell. rewrite <- Ec.
  repeat split; try done; try congruence.
  apply (downIdx_head _ _ _ decoded_grid_length decoded_grid_index); done.
Qed.

Lemma across_entry_at k i :
  startCells p !! k = Some i → startsAcrossCell p i = true →
  ∃ a e, Puz.across p !! a = Some e ∧ Puz.number e = S k ∧ firstCell e = Some i.
Proof.
  intros Hk Hs. pose proof (view_elem _ k i Hk Hs) as Hin.
  apply list_elem_of_In, list_elem_of_lookup_1 in Hin as [a Ha]. fold (acrossView p) in Ha.
  destruct decoded_across_view as [Hn _].
  assert (a < length (Puz.across p)) as Hlt.
  { apply lookup_lt_Some in Ha. apply (f_equal length) in Hn.
    rewrite !length_map in Hn. lia. }
  destruct (lookup_lt_is_Some_2 _ _ Hlt) as [e He]. exists a, e. split; [done|].
  destruct (across_entry a e He) as (k' & i' & Hv & _ & -> & -> & _).
  rewrite Hv in Ha. by injection Ha as -> ->.
Qed.

Lemma down_entry_at k i :
  startCells p !! k = Some i → startsDownCell p i = true →
  ∃ a e, Puz.down p !! a = Some e ∧ Puz.number e = S k ∧ firstCell e = Some i.
Proof.
  intros Hk Hs. pose proof (view_elem _ k i Hk Hs) as Hin.
  apply list_elem_of_In, list_elem_of_lookup_1 in Hin as [a Ha]. fold (downView p) in Ha.
  destruct decoded_down_view as [Hn _].
  assert (a < length (Puz.down p)) as Hlt.
  { apply lookup_lt_Some in Ha. apply (f_equal length) in Hn.
    rewrite !length_map in Hn. lia. }
  destruct (lookup_lt_is_Some_2 _ _ Hlt) as [e He]. exists a, e. split; [done|].
  destruct (down_entry a e He) as (k' & i' & Hv & _ & -> & -> & _).
  rewrite Hv in Ha. by injection Ha as -> ->.
Qed.

Lemma entry_start e :
  In e (Puz.across p ++ Puz.down p) →
  ∃ k i, startCells p !! k = Some i ∧ firstCell e = Some i ∧ Puz.number e = S k.
Proof.
  intros [H|H]%in_app_iff; apply list_elem_of_In, list_elem_of_lookup_1 in H as [a Ha].
  - destruct (across_entry a e Ha) as (k & i & _ & ? & ? & ? & _). by exists k, i.
  - destruct (down_entry a e Ha) as (k & i & _ & ? & ? & ? & _). by exists k, i.
Qed.
End Decoded.

(** ** The grid model of a decoded puzzle *)

Lemma entryCells_cells es es' :
  map Puz.cells es = map Puz.cells es' → entryCells es = entryCells es'.
Proof.
  intros H. unfold entryCells.
  rewrite !flat_map_concat_map, <- !(map_map Puz.cells (map Puz.index)). by rewrite H.
Qed.

Lemma decoded_entry_cells bytes opts p :
  Puz.parsePuz bytes opts = Puz.Ok p →
  entryCells (Puz.across p)
  = entryCells (Puz.scAcross (Puz.scan (Puz.width p) (Puz.height p) (Puz.grid p))) ∧
  entryCells (Puz.down p)
  = entryCells (Puz.scDown (Puz.scan (Puz.width p) (Puz.height p) (Puz.grid p))).
Proof.
  intros Hp.
  destruct (parsePuz_Ok_inv _ _ _ Hp) as (_ & _ & _ & _ & _ & Ha & Hd).
  destruct (buildEntries_shape (Puz.width p) (Puz.height p) (Puz.grid p)
              (Puz.cluesRaw p) (Puz.clueOrder p)) as (_ & Hca & _ & Hcd).
  rewrite <- Ha in Hca. rewrite <- Hd in Hcd.
  split; by apply entryCells_cells.
Qed.

(** C6: in a decoded puzzle every non-block cell index occurs exactly once in
    the cell lists of the across entries taken together, and exactly once in
    those of the down entries; a block cell (or an index outside the grid)
    occurs in none. *)
Theorem entries_cover_open_cells bytes opts p :
  Puz.parsePuz bytes opts = Puz.Ok p →
  ∀ i, count_occ Nat.eq_dec (entryCells (Puz.across p)) i = (if isOpenCell p i then 1 else 0) ∧
       count_occ Nat.eq_dec (entryCells (Puz.down p)) i = (if isOpenCell p i then 1 else 0).
Proof.
  intros Hp i. destruct (decoded_entry_cells bytes opts p Hp) as [-> ->].
  pose proof (decoded_grid_length bytes opts p Hp) as Hlen.
  pose proof (decoded_grid_index bytes opts p Hp) as Hidx.
  split.
  - by apply across_cover.
  - by apply down_cover.
Qed.

(** The row [A.C]: the open cell 0 occurs once, the block 1 never. *)
Lemma entries_cover_open_cells_witness :
  (count_occ Nat.eq_dec (entryCells (Puz.across gapPuz)) 0 = 1 ∧
   count_occ Nat.eq_dec (entryCells (Puz.down gapPuz)) 0 = 1) ∧
  (count_occ Nat.eq_dec (entryCells (Puz.across gapPuz)) 1 = 0 ∧
   count_occ Nat.eq_dec (entryCells (Puz.down gapPuz)) 1 = 0).
Proof.
  split.
  - apply (entries_cover_open_cells gapFile noOpts gapPuz eq_refl 0).
  - apply (entries_cover_open_cells gapFile noOpts gapPuz eq_refl 1).
Defined.

(** C5: the cells that start an entry, taken in row-major scan order, are
    numbered 1, 2, 3, ... : every entry starting at the k-th of them (from 0)
    has number k+1, an across and a down entry starting at the same cell
    share it, and the numbers grow strictly with the scan position. *)
Theorem numbering_sequential bytes opts p :
  Puz.parsePuz bytes opts = Puz.Ok p →
  (∀ e, In e (Puz.across p ++ Puz.down p) →
     ∃ k i, startCells p !! k = Some i ∧ firstCell e = Some i ∧ Puz.number e = k + 1) ∧
  (∀ k i, startCells p !! k = Some i →
     (startsAcrossCell p i = true ∨ startsDownCell p i = true) ∧
     (startsAcrossCell p i = true →
        ∃ e, In e (Puz.across p) ∧ firstCell e = Some i ∧ Puz.number e = k + 1) ∧
     (startsDownCell p i = true →
        ∃ e, In e (Puz.down p) ∧ firstCell e = Some i ∧ Puz.number e = k + 1)) ∧
  (∀ e1 e2 i1 i2,
     In e1 (Puz.across p ++ Puz.down p) → In e2 (Puz.across p ++ Puz.down p) →
     firstCell e1 = Some i1 → firstCell e2 = Some i2 →
     (i1 < i2 ↔ Puz.number e1 < Puz.number e2) ∧ (i1 = i2 ↔ Puz.number e1 = Puz.number e2)).
Proof.
  intros Hp. split; [|split].
  - intros e He. destruct (entry_start bytes opts p Hp e He) as (k & i & ? & ? & ->).
    exists k, i. repeat split; try done. lia.
  - intros k i Hk. destruct (startCells_lookup p k i Hk) as (_ & _ & Hs). split; [done|]. split.
    + intros Ha. destruct (across_entry_at bytes opts p Hp k i Hk Ha) as (a & e & He & En & ?).
      exists e. split; [by eapply list_elem_of_In, list_elem_of_lookup_2|]. split; [done|lia].
    + intros Hd. destruct (down_entry_at bytes opts p Hp k i Hk Hd) as (a & e & He & En & ?).
      exists e. split; [by eapply list_elem_of_In, list_elem_of_lookup_2|]. split; [done|lia].
  - intros e1 e2 i1 i2 H1 H2 F1 F2.
    destruct (entry_start bytes opts p Hp e1 H1) as (k1 & j1 & K1 & G1 & ->).
    destruct (entry_start bytes opts p Hp e2 H2) as (k2 & j2 & K2 & G2 & ->).
    assert (j1 = i1) as -> by congruence. assert (j2 = i2) as -> by congruence.
    unfold startCells, startCellsOf in K1, K2.
    pose proof (filter_seq_sorted _ _ _ k1 k2 i1 i2 K1 K2).
    pose proof (filter_seq_sorted _ _ _ k2 k1 i2 i1 K2 K1).
    assert (k1 = k2 → i1 = i2) by (intros ->; congruence).
    pose proof (fun E : i1 = i2 => filter_seq_lookup_inj _ _ _ k1 k2 i2
                  (eq_ind _ (fun x => _ !! k1 = Some x) K1 _ E) K2).
    lia.
Qed.

Lemma numbering_sequential_witness :
  (∀ e, In e (Puz.across twoRowPuz ++ Puz.down twoRowPuz) →
     ∃ k i, startCells twoRowPuz !! k = Some i ∧ firstCell e = Some i ∧
            Puz.number e = k + 1) ∧
  (∀ k i, startCells twoRowPuz !! k = Some i →
     (startsAcrossCell twoRowPuz i = true ∨ startsDownCell twoRowPuz i = true) ∧
     (startsAcrossCell twoRowPuz i = true →
        ∃ e, In e (Puz.across twoRowPuz) ∧ firstCell e = Some i ∧ Puz.number e = k + 1) ∧
     (startsDownCell twoRowPuz i = true →
        ∃ e, In e (Puz.down twoRowPuz) ∧ firstCell e = Some i ∧ Puz.number e = k + 1)) ∧
  (∀ e1 e2 i1 i2,
     In e1 (Puz.across twoRowPuz ++ Puz.down twoRowPuz) →
     In e2 (Puz.across twoRowPuz ++ Puz.down twoRowPuz) →
     firstCell e1 = Some i1 → firstCell e2 = Some i2 →
     (i1 < i2 ↔ Puz.number e1 < Puz.number e2) ∧ (i1 = i2 ↔ Puz.number e1 = Puz.number e2)).
Proof. apply (numbering_sequential twoRowFile noOpts). vm_compute. reflexivity. Defined.

(** C3: whatever the ordering policy and however few raw clues there are,
    the build returns its entries; the entries taken in the order in which
    the policy hands out clues get the raw clues in file order, and every
    entry left when the raw clues run out gets the empty string. *)
Theorem clues_run_out_gracefully w h grid raw order :
  let a := Puz.buildEntries w h grid raw order in
  let slots := takeOrder order (Puz.scStarts (Puz.scan w h grid))
                 (length (Puz.asAcross a)) (length (Puz.asDown a)) in
  slots ≡ₚ allSlots (length (Puz.asAcross a)) (length (Puz.asDown a)) ∧
  (∀ k s, slots !! k = Some s →
     clueAt a s = Some (match raw !! k with Some c => c | None => ""%string end)) ∧
  (∀ k s, slots !! k = Some s → length raw ≤ k → clueAt a s = Some ""%string).
Proof.
  intros a slots. destruct (buildEntries_clues w h grid raw order) as [Hperm Hclue].
  fold a in Hperm, Hclue. fold slots in Hperm, Hclue.
  split; [done|]. split.
  - intros k s Hk. rewrite (Hclue k s Hk). by destruct (raw !! k).
  - intros k s Hk Hlen. rewrite (Hclue k s Hk). by rewrite lookup_ge_None_2.
Qed.

(** ** The decoder's failures *)

(** A buffer too short for the header makes the [DataView] reads throw. *)
Lemma parsePuz_short_header bytes opts :
  length bytes < 48 → Puz.parsePuz bytes opts = Puz.Err Puz.RangeError.
Proof.
  intros Hs. pose proof (parsePuz_outcome bytes opts) as H. unfold outcomeOf in H.
  destruct (Nat.ltb_spec (length bytes) 48); [done|lia].
Qed.

(** Once header, grid planes and strings are there the decoder returns a
    puzzle, whatever the number of clues and of entries. *)
Lemma parsePuz_decodes bytes opts :
  outcomeOf bytes = Decoded →
  ∃ p, Puz.parsePuz bytes opts = Puz.Ok p ∧ length (Puz.cluesRaw p) = numCluesOf bytes.
Proof.
  intros Ho. pose proof (parsePuz_outcome bytes opts) as H. rewrite Ho in H.
  destruct H as (p & Hp & _ & _ & _ & _ & _ & Hn & _). by exists p.
Qed.

(** The one-row file has one raw clue for four entries: the across entry
    gets it, the three down entries get the empty string. *)
Example rowFile_clues :
  let p := rowPuz in
  Puz.parsePuz rowFile (Puz.mkOpts (Some Puz.across_down)) =
    Puz.Ok (Puz.mkPuz 3 1 "" "" "" (Puz.grid p) ["Test"%string]
              [Puz.mkEntry 1 "Test" (Puz.grid p)]
              (imap (fun k c => Puz.mkEntry (S k) "" [c]) (Puz.grid p))
              Puz.across_down).
Proof. vm_compute. reflexivity. Qed.

Ltac solve_classes :=
  repeat split; intros;
  repeat match goal with
         | H : ∃ _, _ |- _ => destruct H
         | H : _ ∧ _ |- _ => destruct H
         end;
  try congruence; try lia; try tauto; auto.

(** C2, as the code has it: on a buffer that holds the 48 header bytes the
    three failures are tested in order.  [MissingDimensions] iff the width or
    the height byte is 0; otherwise [TruncatedGrid] iff the buffer is shorter
    than 0x34 + 2*width*height; otherwise [UnterminatedString] iff fewer than
    3 + clueCount NUL bytes follow the two grid planes (one of title, author,
    copyright and the clues has no terminator); otherwise a puzzle is
    returned.  No other failure occurs on such a buffer. *)
Theorem parsePuz_failure_classes bytes opts :
  48 ≤ length bytes →
  let w := widthOf bytes in
  let h := heightOf bytes in
  let off := Puz.OFFSET_SOLUTION + 2 * (w * h) in
  let nuls := countNul (drop off bytes) in
  (Puz.parsePuz bytes opts = Puz.Err Puz.MissingDimensions ↔ w = 0 ∨ h = 0) ∧
  (Puz.parsePuz bytes opts = Puz.Err Puz.TruncatedGrid ↔
     w ≠ 0 ∧ h ≠ 0 ∧ length bytes < off) ∧
  (Puz.parsePuz bytes opts = Puz.Err Puz.UnterminatedString ↔
     w ≠ 0 ∧ h ≠ 0 ∧ off ≤ length bytes ∧ nuls < 3 + numCluesOf bytes) ∧
  ((∃ p, Puz.parsePuz bytes opts = Puz.Ok p) ↔
     w ≠ 0 ∧ h ≠ 0 ∧ off ≤ length bytes ∧ 3 + numCluesOf bytes ≤ nuls) ∧
  Puz.parsePuz bytes opts ≠ Puz.Err Puz.RangeError.
Proof.
  intros Hl w h off nuls.
  pose proof (parsePuz_outcome bytes opts) as H. unfold outcomeOf in H.
  destruct (Nat.ltb_spec (length bytes) 48); [lia|].
  fold w h in H. unfold stringsOffset in H. fold w h off nuls in H.
  destruct (Nat.eqb_spec w 0) as [Hw|Hw]; cbn [orb] in H.
  { rewrite H. solve_classes. }
  destruct (Nat.eqb_spec h 0) as [Hh|Hh]; cbn [orb] in H.
  { rewrite H. solve_classes. }
  destruct (Nat.ltb_spec (length bytes) off).
  { rewrite H. solve_classes. }
  destruct (Nat.ltb_spec nuls (3 + numCluesOf bytes)).
  { rewrite H. solve_classes. }
  destruct H as (p & Hp & _). rewrite Hp.
  solve_classes; by exists p.
Qed.

Lemma parsePuz_failure_classes_witness :
  let w := widthOf rowFile in
  let h := heightOf rowFile in
  let off := Puz.OFFSET_SOLUTION + 2 * (w * h) in
  let nuls := countNul (drop off rowFile) in
  (Puz.parsePuz rowFile noOpts = Puz.Err Puz.MissingDimensions ↔ w = 0 ∨ h = 0) ∧
  (Puz.parsePuz rowFile noOpts = Puz.Err Puz.TruncatedGrid ↔
     w ≠ 0 ∧ h ≠ 0 ∧ length rowFile < off) ∧
  (Puz.parsePuz rowFile noOpts = Puz.Err Puz.UnterminatedString ↔
     w ≠ 0 ∧ h ≠ 0 ∧ off ≤ length rowFile ∧ nuls < 3 + numCluesOf rowFile) ∧
  ((∃ p, Puz.parsePuz rowFile noOpts = Puz.Ok p) ↔
     w ≠ 0 ∧ h ≠ 0 ∧ off ≤ length rowFile ∧ 3 + numCluesOf rowFile ≤ nuls) ∧
  Puz.parsePuz rowFile noOpts ≠ Puz.Err Puz.RangeError.
Proof. apply (parsePuz_failure_classes rowFile noOpts). vm_compute. lia. Defined.

(** C2 as stated fails: this 48-byte buffer is shorter than
    0x34 + 2*width*height, yet the decoder reports the missing width, which
    it tests first, and not a truncated grid. *)
Lemma short_file_without_width_is_not_truncated :
  length noWidthFile < Puz.OFFSET_SOLUTION + 2 * (widthOf noWidthFile * heightOf noWidthFile) ∧
  Puz.parsePuz noWidthFile noOpts = Puz.Err Puz.MissingDimensions ∧
  Puz.parsePuz noWidthFile noOpts ≠ Puz.Err Puz.TruncatedGrid.
Proof.
  split; [vm_compute; lia|]. split; [by vm_compute|].
  vm_compute. intros E. discriminate E.
Qed.

(** ** The cell-to-entry maps and [goToClue] *)

Lemma fold_insert_in (i : nat) cs : ∀ (m : gmap nat nat) idx,
  In idx (map Puz.index cs) →
  foldl (fun m cell => <[Puz.index cell := i]> m) m cs !! idx = Some i.
Proof.
  induction cs as [|c cs IH]; intros m idx Hin; [done|]. simpl.
  destruct (in_dec Nat.eq_dec idx (map Puz.index cs)) as [Hcs|Hcs]; [by apply IH|].
  destruct Hin as [<-|Hin]; [|done].
  clear IH. revert m. induction cs as [|c' cs IH]; intros m; simpl.
  - apply lookup_insert_eq.
  - simpl in Hcs. destruct (decide (Puz.index c' = Puz.index c)) as [E|E]; [tauto|].
    rewrite insert_insert_ne by done. apply IH. tauto.
Qed.

Lemma fold_insert_notin (i : nat) cs : ∀ (m : gmap nat nat) idx,
  ¬ In idx (map Puz.index cs) →
  foldl (fun m cell => <[Puz.index cell := i]> m) m cs !! idx = m !! idx.
Proof.
  induction cs as [|c cs IH]; intros m idx Hin; [done|]. simpl in *.
  rewrite IH by tauto. apply lookup_insert_ne. tauto.
Qed.

Lemma cellToEntry_snoc es e :
  Crossword.cellToEntry (es ++ [e]) =
  foldl (fun m cell => <[Puz.index cell := length es]> m) (Crossword.cellToEntry es) (Puz.cells e).
Proof.
  unfold Crossword.cellToEntry. rewrite imap_app, foldl_app. simpl.
  by rewrite Nat.add_0_r.
Qed.

Lemma cellToEntry_Some es : ∀ idx a,
  Crossword.cellToEntry es !! idx = Some a → ∃ e, es !! a = Some e ∧ In idx (cellIdxs e).
Proof.
  induction es as [|e es IH] using rev_ind; intros idx a H; [done|].
  rewrite cellToEntry_snoc in H.
  destruct (in_dec Nat.eq_dec idx (map Puz.index (Puz.cells e))) as [Hin|Hin].
  - rewrite fold_insert_in in H by done. injection H as <-.
    exists e. split; [|done]. by rewrite lookup_app_r, Nat.sub_diag.
  - rewrite fold_insert_notin in H by done. destruct (IH idx a H) as (e' & He' & ?).
    exists e'. split; [|done]. by apply lookup_app_l_Some.
Qed.

Lemma cellToEntry_covered es : ∀ idx a e,
  es !! a = Some e → In idx (cellIdxs e) → is_Some (Crossword.cellToEntry es !! idx).
Proof.
  induction es as [|e es IH] using rev_ind; intros idx a e0 Ha Hin; [done|].
  rewrite cellToEntry_snoc.
  destruct (in_dec Nat.eq_dec idx (map Puz.index (Puz.cells e))) as [Hi|Hi].
  - rewrite fold_insert_in by done. by eexists.
  - rewrite fold_insert_notin by done.
    apply lookup_app_Some in Ha as [Ha|[Hlen Ha]]; [by eapply IH|].
    destruct (a - length es) as [|n]; simpl in Ha; [|done].
    injection Ha as ->. done.
Qed.

Lemma count_occ_in_ge {A} (eq_dec : ∀ x y : A, {x = y} + {x ≠ y}) l x :
  In x l → 1 ≤ count_occ eq_dec l x.
Proof. intros H. apply (count_occ_In eq_dec) in H. lia. Qed.

Lemma single_entry es : ∀ idx a a' e e',
  count_occ Nat.eq_dec (entryCells es) idx = 1 →
  es !! a = Some e → es !! a' = Some e' →
  In idx (cellIdxs e) → In idx (cellIdxs e') → a = a'.
Proof.
  induction es as [|x es IH]; intros idx a a' e e' Hc Ha Ha' Hi Hi'; [done|].
  unfold entryCells in Hc. simpl in Hc. rewrite count_occ_app in Hc.
  fold (entryCells es) in Hc. fold (cellIdxs x) in Hc.
  assert (∀ b y, es !! b = Some y → In idx (cellIdxs y) →
                 1 ≤ count_occ Nat.eq_dec (entryCells es) idx) as Hrest.
  { intros b y Hb Hy. apply count_occ_in_ge, in_flat_map. exists y.
    split; [|done]. by eapply list_elem_of_In, list_elem_of_lookup_2. }
  destruct a as [|a], a' as [|a']; simpl in Ha, Ha'; [done| | |].
  - injection Ha as ->. pose proof (count_occ_in_ge Nat.eq_dec _ _ Hi).
    pose proof (Hrest a' e' Ha' Hi'). lia.
  - injection Ha' as ->. pose proof (count_occ_in_ge Nat.eq_dec _ _ Hi').
    pose proof (Hrest a e Ha Hi). lia.
  - f_equal. apply (IH idx a a' e e'); try done.
    pose proof (Hrest a e Ha Hi). lia.
Qed.

Lemma cellToEntry_unique es idx a e :
  count_occ Nat.eq_dec (entryCells es) idx = 1 →
  es !! a = Some e → In idx (cellIdxs e) → Crossword.cellToEntry es !! idx = Some a.
Proof.
  intros Hc Ha Hi. destruct (cellToEntry_covered es idx a e Ha Hi) as [a' Ha'].
  rewrite Ha'. f_equal. destruct (cellToEntry_Some es idx a' Ha') as (e' & He' & Hi').
  by apply (single_entry es idx a' a e' e).
Qed.

Lemma normIndex_mod k len :
  0 < len → Crossword.normIndex k len = (k mod Z.of_nat len)%Z.
Proof.
  intros Hlen. unfold Crossword.normIndex.
  set (n := Z.of_nat len). assert (0 < n)%Z by lia.
  pose proof (Z.quot_rem' k n) as Hq.
  assert (- n < Z.rem k n < n)%Z.
  { pose proof (Z.rem_bound_abs k n ltac:(lia)). lia. }
  rewrite Z.rem_mod_nonneg by lia.
  replace (Z.rem k n + n)%Z with (k + (1 - Z.quot k n) * n)%Z by lia.
  apply Z.mod_add. lia.
Qed.

Lemma firstCell_cells e f :
  firstCell e = Some f → ∃ c cs, Puz.cells e = c :: cs ∧ Puz.index c = f.
Proof.
  unfold firstCell, cellIdxs. destruct (Puz.cells e) as [|c cs]; [done|].
  simpl. intros [= <-]. by exists c, cs.
Qed.

(** Where [goToClue] lands when the direction has entries. *)
Lemma goToClue_lands p st dir k e f :
  Crossword.puz st = Some p →
  Crossword.entriesOf p dir
    !! Z.to_nat (k mod Z.of_nat (length (Crossword.entriesOf p dir))) = Some e →
  firstCell e = Some f →
  Crossword.goToClue dir k st =
  Crossword.mkState (Crossword.puz st) (Crossword.cells st) (Crossword.status st)
    (Crossword.owners st) dir (Some f) (Crossword.teams st) (Crossword.selectedTeamId st).
Proof.
  intros Hp He Hf. unfold Crossword.goToClue. rewrite Hp.
  assert (0 < length (Crossword.entriesOf p dir)) as Hlen.
  { apply lookup_lt_Some in He. lia. }
  destruct (Nat.eqb_spec (length (Crossword.entriesOf p dir)) 0); [lia|].
  rewrite normIndex_mod by done. rewrite He.
  destruct (firstCell_cells e f Hf) as (c & cs & E & <-). rewrite E.
  unfold Crossword.setActiveIndex, Crossword.setMode. simpl. by rewrite Hp.
Qed.

(** ** Navigation *)

Lemma decoded_cover_dir bytes opts p dir i :
  Puz.parsePuz bytes opts = Puz.Ok p →
  count_occ Nat.eq_dec (entryCells (Crossword.entriesOf p dir)) i
  = (if isOpenCell p i then 1 else 0).
Proof.
  intros Hp. destruct (decoded_entry_cells bytes opts p Hp) as [Ea Ed].
  pose proof (decoded_grid_length bytes opts p Hp) as Hlen.
  pose proof (decoded_grid_index bytes opts p Hp) as Hidx.
  destruct dir; simpl; rewrite ?Ea, ?Ed.
  - by apply across_cover.
  - by apply down_cover.
Qed.

Lemma entry_has_first bytes opts p dir a e :
  Puz.parsePuz bytes opts = Puz.Ok p →
  Crossword.entriesOf p dir !! a = Some e → ∃ f, firstCell e = Some f.
Proof.
  intros Hp He. destruct dir; simpl in He.
  - destruct (across_entry bytes opts p Hp a e He) as (_ & i & _ & _ & _ & ? & _). by exists i.
  - destruct (down_entry bytes opts p Hp a e He) as (_ & i & _ & _ & _ & ? & _). by exists i.
Qed.

Lemma entry_cell_open bytes opts p dir a e idx :
  Puz.parsePuz bytes opts = Puz.Ok p →
  Crossword.entriesOf p dir !! a = Some e → In idx (cellIdxs e) → isOpenCell p idx = true.
Proof.
  intros Hp He Hin. pose proof (decoded_cover_dir bytes opts p dir idx Hp) as Hc.
  destruct (isOpenCell p idx); [done|]. exfalso.
  apply (count_occ_not_In Nat.eq_dec) in Hc. apply Hc, in_flat_map. exists e.
  split; [|done]. by eapply list_elem_of_In, list_elem_of_lookup_2.
Qed.

Lemma cellTo_lookup bytes opts p dir a e idx :
  Puz.parsePuz bytes opts = Puz.Ok p →
  Crossword.entriesOf p dir !! a = Some e → In idx (cellIdxs e) →
  Crossword.cellToEntry (Crossword.entriesOf p dir) !! idx = Some a.
Proof.
  intros Hp He Hin. apply (cellToEntry_unique _ _ _ e); try done.
  rewrite (decoded_cover_dir bytes opts p dir idx Hp).
  by rewrite (entry_cell_open bytes opts p dir a e idx Hp He Hin).
Qed.

Lemma open_cell_has_entries bytes opts p dir idx :
  Puz.parsePuz bytes opts = Puz.Ok p → isOpenCell p idx = true →
  ∃ e, Crossword.entriesOf p dir !! 0 = Some e.
Proof.
  intros Hp Ho. pose proof (decoded_cover_dir bytes opts p dir idx Hp) as Hc.
  rewrite Ho in Hc. destruct (Crossword.entriesOf p dir) as [|e es]; [done|]. by exists e.
Qed.

Lemma onTab_uniform p idx st :
  Crossword.onTab p idx st =
  let es := Crossword.entriesOf p (Crossword.mode st) in
  let i := default 0 (Crossword.cellToEntry es !! idx) in
  if i + 1 <? length es then Crossword.goToClue (Crossword.mode st) (Z.of_nat (i + 1)) st
  else Crossword.goToClue (otherMode (Crossword.mode st)) 0%Z st.
Proof. unfold Crossword.onTab. by destruct (Crossword.mode st). Qed.



(** C7: Tab from a cell of an entry moves to the first cell of the next
    entry of the current direction and keeps the mode; from a cell of the last
    entry of the direction it moves to the first cell of the first entry of
    the other direction and switches the mode to it. *)
Theorem tab_crosses_directions bytes opts p st idx a e :
  Puz.parsePuz bytes opts = Puz.Ok p → Crossword.puz st = Some p →
  Crossword.entriesOf p (Crossword.mode st) !! a = Some e → In idx (cellIdxs e) →
  (a + 1 < length (Crossword.entriesOf p (Crossword.mode st)) →
     ∃ e' f, Crossword.entriesOf p (Crossword.mode st) !! (a + 1) = Some e' ∧
             firstCell e' = Some f ∧
             Crossword.onCellKeyDown idx Crossword.Tab st = focused (Crossword.mode st) f st) ∧
  (a + 1 = length (Crossword.entriesOf p (Crossword.mode st)) →
     ∃ e' f, Crossword.entriesOf p (otherMode (Crossword.mode st)) !! 0 = Some e' ∧
             firstCell e' = Some f ∧
             Crossword.onCellKeyDown idx Crossword.Tab st
             = focused (otherMode (Crossword.mode st)) f st).
Proof.
  intros Hp Hst He Hin.
  pose proof (cellTo_lookup bytes opts p _ a e idx Hp He Hin) as Hmap.
  pose proof (entry_cell_open bytes opts p _ a e idx Hp He Hin) as Hopen.
  assert (Crossword.onCellKeyDown idx Crossword.Tab st = Crossword.onTab p idx st) as ->.
  { unfold Crossword.onCellKeyDown. rewrite Hst. simpl. by rewrite andb_false_r. }
  split.
  - intros Hlt.
    destruct (lookup_lt_is_Some_2 _ _ Hlt) as [e' He'].
    destruct (entry_has_first bytes opts p _ _ e' Hp He') as [f Hf].
    exists e', f. split; [done|]. split; [done|].
    rewrite onTab_uniform. cbv zeta. rewrite Hmap. change (default 0 (Some a)) with a.
    destruct (Nat.ltb_spec (a + 1) (length (Crossword.entriesOf p (Crossword.mode st))));
      [|lia].
    apply (goToClue_lands p st _ _ e' f); try done.
    rewrite Z.mod_small by lia. by rewrite Nat2Z.id.
  - intros Hlast.
    destruct (open_cell_has_entries bytes opts p (otherMode (Crossword.mode st)) idx Hp Hopen)
      as [e' He'].
    destruct (entry_has_first bytes opts p _ _ e' Hp He') as [f Hf].
    exists e', f. split; [done|]. split; [done|].
    assert (0 < length (Crossword.entriesOf p (otherMode (Crossword.mode st)))) as Hpos
      by (apply lookup_lt_Some in He'; lia).
    rewrite onTab_uniform. cbv zeta. rewrite Hmap. change (default 0 (Some a)) with a.
    destruct (Nat.ltb_spec (a + 1) (length (Crossword.entriesOf p (Crossword.mode st))));
      [lia|].
    by apply (goToClue_lands p st _ _ e' f).
Qed.

(** The case of the specification: two across entries and three down
    entries; Tab from cell 4, in the second and last across entry. *)
Lemma tab_crosses_directions_witness :
  let st := loadedTwoRows in
  (1 + 1 < length (Crossword.entriesOf twoRowPuz (Crossword.mode st)) →
     ∃ e' f, Crossword.entriesOf twoRowPuz (Crossword.mode st) !! (1 + 1) = Some e' ∧
             firstCell e' = Some f ∧
             Crossword.onCellKeyDown 4 Crossword.Tab st = focused (Crossword.mode st) f st) ∧
  (1 + 1 = length (Crossword.entriesOf twoRowPuz (Crossword.mode st)) →
     ∃ e' f, Crossword.entriesOf twoRowPuz (otherMode (Crossword.mode st)) !! 0 = Some e' ∧
             firstCell e' = Some f ∧
             Crossword.onCellKeyDown 4 Crossword.Tab st
             = focused (otherMode (Crossword.mode st)) f st).
Proof.
  intros st.
  apply (tab_crosses_directions twoRowFile noOpts twoRowPuz st 4 1
           (Puz.mkEntry 4 "" (drop 3 (Puz.grid twoRowPuz))));
    [vm_compute; reflexivity | vm_compute; reflexivity | vm_compute; reflexivity
    | vm_compute; tauto].
Defined.

Example tab_from_last_across :
  let st := Crossword.onCellKeyDown 4 Crossword.Tab loadedTwoRows in
  length (Puz.across twoRowPuz) = 2 ∧ length (Puz.down twoRowPuz) = 3 ∧
  Crossword.mode st = Crossword.Down ∧ Crossword.activeIndex st = Some 0.
Proof. by vm_compute. Qed.

Example tab_from_last_down :
  let st := Crossword.onCellKeyDown 5 Crossword.Tab
              (Crossword.onCellKeyDown 5 Crossword.Space loadedTwoRows) in
  Crossword.mode st = Crossword.Across ∧ Crossword.activeIndex st = Some 0.
Proof. by vm_compute. Qed.

(** ** Checking *)

Lemma toUpperCase_isEmpty s : Js.isEmpty (Js.toUpperCase s) = Js.isEmpty s.
Proof. destruct s as [|a s]; [done|]. simpl. by destruct (nat_of_ascii a =? 223). Qed.

Lemma isEmpty_spec s : Js.isEmpty s = true ↔ s = ""%string.
Proof. by destruct s. Qed.

Lemma checkCell_expected p cells i :
  Crossword.checkCell p cells i
  = expectedStatus (Puz.cellAt (Puz.grid p) i) (Crossword.cellValue cells i).
Proof.
  unfold Crossword.checkCell, expectedStatus.
  destruct (Puz.isBlock (Puz.cellAt (Puz.grid p) i)); [done|].
  rewrite toUpperCase_isEmpty.
  destruct (decide (Crossword.cellValue cells i = ""%string)) as [E|E].
  - by rewrite E.
  - destruct (Js.isEmpty (Crossword.cellValue cells i)) eqn:Ee.
    + by apply isEmpty_spec in Ee.
    + destruct (String.eqb_spec (Js.toUpperCase (Crossword.cellValue cells i))
                  (Puz.solution (Puz.cellAt (Puz.grid p) i)));
        by destruct (decide _).
Qed.



Example check_ABC :
  Crossword.cells typedABC = ["A"; "B"; "C"]%string ∧
  Crossword.status (Crossword.checkPuzzle typedABC)
  = [Crossword.correct; Crossword.correct; Crossword.correct].
Proof. by vm_compute. Qed.

Example check_AXC :
  Crossword.cells typedAXC = ["A"; "X"; "C"]%string ∧
  Crossword.status (Crossword.checkPuzzle typedAXC)
  = [Crossword.correct; Crossword.incorrect; Crossword.correct].
Proof. by vm_compute. Qed.

(** ** Scoring *)

Lemma teams_start_at_zero teams : ∀ (m : gmap nat nat) t,
  foldl (fun m tm => <[Crossword.id tm := 0]> m) m teams !! t
  = if knownTeam teams t then Some 0 else m !! t.
Proof.
  induction teams as [|tm teams IH]; intros m t; [done|].
  cbn [foldl]. rewrite IH. unfold knownTeam. cbn [existsb]. fold (knownTeam teams t).
  destruct (knownTeam teams t); [by rewrite orb_true_r|]. rewrite orb_false_r.
  destruct (Nat.eqb_spec (Crossword.id tm) t) as [E|Hne].
  - rewrite <- E. apply lookup_insert_eq.
  - by apply lookup_insert_ne.
Qed.

Lemma isLocked_app_l status s i :
  i < length status → Crossword.isLocked (status ++ [s]) i = Crossword.isLocked status i.
Proof. intros Hi. unfold Crossword.isLocked. by rewrite lookup_app_l. Qed.

Lemma correctCells_snoc status s owners t :
  correctCells (status ++ [s]) owners t
  = correctCells status owners t
    + (if Crossword.isLocked [s] 0 && ownedBy owners t (length status) then 1 else 0).
Proof.
  unfold correctCells. rewrite length_app. simpl. rewrite seq_app, List.filter_app, length_app.
  f_equal.
  - f_equal. apply List.filter_ext_in. intros i Hi%in_seq. by rewrite isLocked_app_l by lia.
  - simpl. unfold Crossword.isLocked at 1.
    rewrite lookup_app_r, Nat.sub_diag by lia. simpl.
    by destruct s, (ownedBy owners t (length status)).
Qed.

(** The score map, key by key. *)
Lemma scores_lookup teams owners status : ∀ t,
  Crossword.scores teams status owners !! t
  = if knownTeam teams t || (0 <? correctCells status owners t)
    then Some (correctCells status owners t) else None.
Proof.
  unfold Crossword.scores.
  induction status as [|s status IH] using rev_ind; intros t.
  - simpl. rewrite teams_start_at_zero, lookup_empty.
    by destruct (knownTeam teams t).
  - rewrite imap_app, foldl_app. simpl. rewrite Nat.add_0_r, correctCells_snoc.
    unfold Crossword.scoreCell at 1. simpl.
    destruct s; simpl; rewrite ?Nat.add_0_r; try apply IH.
    unfold ownedBy. destruct (owners !! length status) as [[o|]|] eqn:Eo;
      simpl; rewrite ?Nat.add_0_r; try apply IH.
    destruct (Nat.eqb_spec o t) as [->|Hne].
    + rewrite lookup_insert_eq, IH.
      destruct (knownTeam teams t); simpl.
      * by rewrite Nat.add_1_r.
      * destruct (Nat.ltb_spec 0 (correctCells status owners t)); simpl;
          destruct (Nat.ltb_spec 0 (correctCells status owners t + 1)); try lia;
          f_equal; lia.
    + rewrite lookup_insert_ne by done. by rewrite IH, Nat.add_0_r.
Qed.

Lemma knownTeam_In teams t :
  knownTeam teams t = true ↔ In t (map Crossword.id teams).
Proof.
  unfold knownTeam. rewrite existsb_exists, in_map_iff. split.
  - intros (tm & ? & E%Nat.eqb_eq). by exists tm.
  - intros (tm & <- & ?). exists tm. by rewrite Nat.eqb_refl.
Qed.

Lemma correctCells_no_owner status owners i s t :
  ownedBy owners t i = false →
  correctCells (<[i := s]> status) owners t = correctCells status owners t.
Proof.
  intros Ho. unfold correctCells. rewrite length_insert. f_equal.
  apply List.filter_ext. intros j. destruct (decide (i = j)) as [->|Hne].
  - by rewrite Ho, !andb_false_r.
  - unfold Crossword.isLocked. by rewrite list_lookup_insert_ne.
Qed.

(** C9: the score of every known team is the number of cells marked correct
    whose owner is that team (0 when there is none), and a cell without an
    owner counts for nobody: whatever its mark, all scores stay the same. *)
Theorem scores_count_owned_correct_cells teams status owners :
  (∀ t, In t (map Crossword.id teams) →
        Crossword.scores teams status owners !! t = Some (correctCells status owners t)) ∧
  (∀ i s, owners !! i = Some None ∨ owners !! i = None →
          Crossword.scores teams (<[i := s]> status) owners
          = Crossword.scores teams status owners).
Proof.
  split.
  - intros t Ht%knownTeam_In. by rewrite scores_lookup, Ht.
  - intros i s Ho. apply map_eq. intros t. rewrite !scores_lookup.
    rewrite correctCells_no_owner; [done|].
    unfold ownedBy. by destruct Ho as [-> | ->].
Qed.

(** The scoring example of the specification: team 1 owns the correct cells
    0 and 1, team 2 the correct cell 2. *)
Example scores_two_teams :
  let teams := [Crossword.mkTeam 1 "A" ""; Crossword.mkTeam 2 "B" ""] in
  let status := [Crossword.correct; Crossword.correct; Crossword.correct] in
  map_to_list (Crossword.scores teams status [Some 1; Some 1; Some 2]) ≡ₚ [(1, 2); (2, 1)] ∧
  map_to_list (Crossword.scores teams status [Some 1; None; Some 2]) ≡ₚ [(1, 1); (2, 1)].
Proof. split; vm_compute; [apply perm_swap|apply perm_swap]. Qed.

(** ** Editing *)

Lemma downFrom_S c : Crossword.downFrom (S c) = c :: Crossword.downFrom c.
Proof. unfold Crossword.downFrom. by rewrite seq_S, rev_app_distr. Qed.

Lemma find_downFrom_Some (P : nat → bool) c k :
  k < c → P k = true → (∀ m, k < m < c → P m = false) →
  List.find P (Crossword.downFrom c) = Some k.
Proof.
  induction c as [|c IH]; intros Hk HP Hnone; [lia|].
  rewrite downFrom_S. simpl. destruct (decide (k = c)) as [->|Hne].
  - by rewrite HP.
  - rewrite Hnone by lia. apply IH; [lia|done|]. intros m ?. apply Hnone. lia.
Qed.

Lemma find_downFrom_None (P : nat → bool) c :
  (∀ m, m < c → P m = false) → List.find P (Crossword.downFrom c) = None.
Proof.
  induction c as [|c IH]; intros Hnone; [done|].
  rewrite downFrom_S. simpl. rewrite Hnone by lia. apply IH. intros m ?. apply Hnone. lia.
Qed.

Lemma onBackspace_uniform p idx st :
  Crossword.onBackspace p idx st =
  if Js.isEmpty (Crossword.cellValue (Crossword.cells st) idx) then
    match List.find (fun k => Crossword.isOpen p (lineCell p (Crossword.mode st) idx k))
            (Crossword.downFrom (linePos p (Crossword.mode st) idx)) with
    | Some k => Crossword.clearCell (lineCell p (Crossword.mode st) idx k)
                  (Crossword.setActiveIndex (lineCell p (Crossword.mode st) idx k) st)
    | None => st
    end
  else st.
Proof. unfold Crossword.onBackspace, lineCell, linePos. by destruct (Crossword.mode st). Qed.

Lemma arraySet_in_range {A} (hole : A) l i v :
  i < length l → Js.arraySet hole l i v = <[i := v]> l.
Proof. intros Hi. unfold Js.arraySet. apply Nat.ltb_lt in Hi. by rewrite Hi. Qed.

Lemma clearCell_in_range j st :
  j < length (Crossword.cells st) → j < length (Crossword.status st) →
  j < length (Crossword.owners st) →
  Crossword.clearCell j (Crossword.setActiveIndex j st) = cleared j st.
Proof.
  intros H1 H2 H3. unfold Crossword.clearCell, Crossword.setOwners, Crossword.setStatus,
    Crossword.setCells, Crossword.setActiveIndex, cleared. simpl.
  by rewrite !arraySet_in_range.
Qed.

Lemma lineCell_before p m idx k : k < linePos p m idx → lineCell p m idx k < idx.
Proof.
  unfold linePos, lineCell. pose proof (Nat.div_mod_eq idx (Puz.width p)).
  destruct m; intros Hk; [lia|].
  destruct (Puz.width p) as [|w]; [simpl in Hk; lia|]. nia.
Qed.

(** C4, as the code has it: Backspace on an unlocked cell whose letter is
    empty goes back along the row (across) or the column (down) to the
    nearest cell that is not a block, passing over blocks; when that cell is
    not locked it is emptied, its status reset to unchecked and its owner to
    none, and it takes the focus.  With no open cell before it in the row or
    column nothing changes, and on an unlocked cell that holds a letter the
    handler changes nothing. *)
Theorem backspace_steps_to_previous_open_cell st p idx :
  Crossword.puz st = Some p →
  Crossword.isLocked (Crossword.status st) idx = false →
  idx < length (Crossword.cells st) → idx < length (Crossword.status st) →
  idx < length (Crossword.owners st) →
  let pos := linePos p (Crossword.mode st) idx in
  let cell := lineCell p (Crossword.mode st) idx in
  (Crossword.cellValue (Crossword.cells st) idx = ""%string →
   ∀ k, k < pos → Crossword.isOpen p (cell k) = true →
        (∀ m, k < m < pos → Crossword.isOpen p (cell m) = false) →
        Crossword.isLocked (Crossword.status st) (cell k) = false →
        Crossword.onCellKeyDown idx Crossword.Backspace st = cleared (cell k) st) ∧
  (Crossword.cellValue (Crossword.cells st) idx = ""%string →
   (∀ m, m < pos → Crossword.isOpen p (cell m) = false) →
   Crossword.onCellKeyDown idx Crossword.Backspace st = st) ∧
  (Crossword.cellValue (Crossword.cells st) idx ≠ ""%string →
   Crossword.onCellKeyDown idx Crossword.Backspace st = st).
Proof.
  intros Hp Hlock Hc Hs Ho pos cell.
  assert (Crossword.onCellKeyDown idx Crossword.Backspace st = Crossword.onBackspace p idx st)
    as ->.
  { unfold Crossword.onCellKeyDown. by rewrite Hp, Hlock. }
  rewrite onBackspace_uniform. fold pos cell. split; [|split].
  - intros -> k Hk Hopen Hnone _. simpl.
    rewrite (find_downFrom_Some _ pos k Hk Hopen Hnone).
    pose proof (lineCell_before p (Crossword.mode st) idx k Hk). fold cell in H.
    apply clearCell_in_range; lia.
  - intros -> Hnone. simpl. by rewrite (find_downFrom_None _ pos Hnone).
  - intros Hne. destruct (Js.isEmpty _) eqn:E; [|done]. by apply isEmpty_spec in E.
Qed.

(** Backspace in the last cell of the row [A.C], cell 0 holding a wrong
    letter and cell 2 empty. *)
Lemma backspace_steps_to_previous_open_cell_witness :
  let st := wrongFirstCell in
  let pos := linePos gapPuz (Crossword.mode st) 2 in
  let cell := lineCell gapPuz (Crossword.mode st) 2 in
  (Crossword.cellValue (Crossword.cells st) 2 = ""%string →
   ∀ k, k < pos → Crossword.isOpen gapPuz (cell k) = true →
        (∀ m, k < m < pos → Crossword.isOpen gapPuz (cell m) = false) →
        Crossword.isLocked (Crossword.status st) (cell k) = false →
        Crossword.onCellKeyDown 2 Crossword.Backspace st = cleared (cell k) st) ∧
  (Crossword.cellValue (Crossword.cells st) 2 = ""%string →
   (∀ m, m < pos → Crossword.isOpen gapPuz (cell m) = false) →
   Crossword.onCellKeyDown 2 Crossword.Backspace st = st) ∧
  (Crossword.cellValue (Crossword.cells st) 2 ≠ ""%string →
   Crossword.onCellKeyDown 2 Crossword.Backspace st = st).
Proof.
  intros st. apply (backspace_steps_to_previous_open_cell st gapPuz 2);
    [vm_compute; reflexivity | vm_compute; reflexivity
    | vm_compute; lia | vm_compute; lia | vm_compute; lia].
Defined.

(** C4 as stated fails: in the row [A.C] the cell one step back from cell 2
    is the block 1, yet Backspace on the empty cell 2 moves the focus two
    cells back, to cell 0, and empties that cell. *)
Lemma backspace_passes_over_block :
  let st := wrongFirstCell in
  let st' := Crossword.onCellKeyDown 2 Crossword.Backspace st in
  Crossword.isOpen gapPuz 1 = false ∧
  Crossword.activeIndex st = Some 2 ∧ Crossword.cells st !! 2 = Some ""%string ∧
  Crossword.activeIndex st' = Some 0 ∧ Crossword.activeIndex st' ≠ Some (2 - 1) ∧
  Crossword.cells st !! 0 = Some "B"%string ∧ Crossword.cells st' !! 0 = Some ""%string ∧
  Crossword.status st' !! 0 = Some Crossword.unchecked ∧
  Crossword.owners st' !! 0 = Some None.
Proof. vm_compute. repeat split; try reflexivity. intros E. discriminate E. Qed.

(** ** Locked cells *)

(** What the lock does cover: events on the locked cell itself.  Letter
    input and the editing keys are dropped, and no key pressed in the cell
    changes any letter, mark or owner. *)
Lemma goToClue_keeps_letters dir k st :
  Crossword.cells (Crossword.goToClue dir k st) = Crossword.cells st ∧
  Crossword.status (Crossword.goToClue dir k st) = Crossword.status st ∧
  Crossword.owners (Crossword.goToClue dir k st) = Crossword.owners st.
Proof.
  unfold Crossword.goToClue. destruct (Crossword.puz st); [|done].
  destruct (length _ =? 0); [done|]. destruct (_ !! _) as [target|]; [|done].
  by destruct (Puz.cells target).
Qed.

Lemma move_keeps_letters p nr nc st :
  Crossword.cells (Crossword.move p nr nc st) = Crossword.cells st ∧
  Crossword.status (Crossword.move p nr nc st) = Crossword.status st ∧
  Crossword.owners (Crossword.move p nr nc st) = Crossword.owners st.
Proof.
  unfold Crossword.move. destruct (_ || _); [done|]. by destruct (Puz.isBlock _).
Qed.

Lemma locked_cell_rejects_own_events st j :
  Crossword.isLocked (Crossword.status st) j = true →
  (∀ v, Crossword.onCellChange j v st = st) ∧
  (∀ key, Crossword.isEditKey key = true → Crossword.onCellKeyDown j key st = st) ∧
  (∀ key, Crossword.cells (Crossword.onCellKeyDown j key st) = Crossword.cells st ∧
          Crossword.status (Crossword.onCellKeyDown j key st) = Crossword.status st ∧
          Crossword.owners (Crossword.onCellKeyDown j key st) = Crossword.owners st).
Proof.
  intros Hl. split; [|split].
  - intros v. unfold Crossword.onCellChange. by rewrite Hl.
  - intros key Hk. unfold Crossword.onCellKeyDown. rewrite Hl, Hk.
    by destruct (Crossword.puz st).
  - intros key. unfold Crossword.onCellKeyDown. destruct (Crossword.puz st) as [p|]; [|done].
    rewrite Hl. destruct key; simpl; try done.
    + unfold Crossword.onTab.
      destruct (Crossword.mode st); destruct (_ <? _); apply goToClue_keeps_letters.
    + destruct (List.find _ _); [|done]. apply (move_keeps_letters p _ _ (Crossword.setMode _ st)).
    + destruct (List.find _ _); [|done]. apply (move_keeps_letters p _ _ (Crossword.setMode _ st)).
    + destruct (List.find _ _); [|done]. apply (move_keeps_letters p _ _ (Crossword.setMode _ st)).
    + destruct (List.find _ _); [|done]. apply (move_keeps_letters p _ _ (Crossword.setMode _ st)).
Qed.

(** C1, the code at the failing input.  Team 1 types A into cell 0 of the
    one-row puzzle and the puzzle is checked: cell 0 is locked and the focus
    is on the empty cell 1.  Backspace there steps back onto the locked cell
    and empties it, resets its status and drops its owner. *)
Theorem backspace_clears_locked_neighbour :
  let st := lockedFirstCell in
  let st' := Crossword.onCellKeyDown 1 Crossword.Backspace st in
  (Crossword.isLocked (Crossword.status st) 0 = true ∧
   Crossword.cells st !! 0 = Some "A"%string ∧
   Crossword.owners st !! 0 = Some (Some 1) ∧
   Crossword.cells st !! 1 = Some ""%string ∧
   Crossword.activeIndex st = Some 1) ∧
  (Crossword.cells st' !! 0 = Some ""%string ∧
   Crossword.status st' !! 0 = Some Crossword.unchecked ∧
   Crossword.owners st' !! 0 = Some None ∧
   Crossword.activeIndex st' = Some 0).
Proof. by vm_compute. Qed.

(** * Further properties *)

(** ** Array writes *)

Lemma arraySet_lookup {A} (hole : A) l i v j :
  Js.arraySet hole l i v !! j =
  if decide (j = i) then Some v
  else if decide (j < length l) then l !! j
  else if decide (j < i) then Some hole else None.
Proof.
  unfold Js.arraySet. destruct (Nat.ltb_spec i (length l)) as [Hi|Hi].
  - destruct (decide (j = i)) as [->|Hne].
    + by rewrite list_lookup_insert_eq.
    + rewrite list_lookup_insert_ne by done.
      destruct (decide (j < length l)); [done|].
      rewrite lookup_ge_None_2 by lia. destruct (decide (j < i)); [lia|done].
  - destruct (decide (j = i)) as [->|Hne].
    + rewrite lookup_app_r by lia. rewrite lookup_app_r by (rewrite length_replicate; lia).
      rewrite length_replicate. by replace (i - length l - (i - length l)) with 0 by lia.
    + destruct (decide (j < length l)) as [Hj|Hj].
      * by rewrite lookup_app_l.
      * rewrite lookup_app_r by lia. destruct (decide (j < i)) as [Hji|Hji].
        -- rewrite lookup_app_l by (rewrite length_replicate; lia).
           apply lookup_replicate_2. lia.
        -- apply lookup_ge_None_2. rewrite length_app, length_replicate. simpl. lia.
Qed.

Lemma arraySet_length_in {A} (hole : A) l i v :
  i < length l → length (Js.arraySet hole l i v) = length l.
Proof. intros Hi. rewrite arraySet_in_range by done. apply length_insert. Qed.

(** Reading with the hole as default sees the written value at [i] and the
    old reading elsewhere, whether or not the write grew the array. *)
Lemma arraySet_read {A} (hole : A) l i v j :
  default hole (Js.arraySet hole l i v !! j)
  = if decide (j = i) then v else default hole (l !! j).
Proof.
  rewrite arraySet_lookup. destruct (decide (j = i)); [done|].
  destruct (decide (j < length l)); [done|].
  rewrite (lookup_ge_None_2 l j) by lia. by destruct (decide (j < i)).
Qed.

Lemma cellValue_arraySet l i v j :
  Crossword.cellValue (Js.arraySet ""%string l i v) j
  = if decide (j = i) then v else Crossword.cellValue l j.
Proof. apply arraySet_read. Qed.

Lemma statusAt_arraySet l i v j :
  statusAt (Js.arraySet Crossword.unchecked l i v) j
  = if decide (j = i) then v else statusAt l j.
Proof. apply arraySet_read. Qed.

Lemma ownerAt_arraySet l i v j :
  ownerAt (Js.arraySet None l i v) j = if decide (j = i) then v else ownerAt l j.
Proof. apply arraySet_read. Qed.

Lemma isLocked_statusAt status i :
  Crossword.isLocked status i = true ↔ statusAt status i = Crossword.correct.
Proof.
  unfold Crossword.isLocked, statusAt. destruct (status !! i) as [[]|]; simpl; split; congruence.
Qed.

Lemma isLocked_false_statusAt status i :
  Crossword.isLocked status i = false ↔ statusAt status i ≠ Crossword.correct.
Proof.
  rewrite <- isLocked_statusAt. by destruct (Crossword.isLocked status i).
Qed.

(** ** What the handlers do to the per-cell arrays *)


Lemma fixed_goToClue dir k st : fixedPart (Crossword.goToClue dir k st) = fixedPart st.
Proof.
  unfold Crossword.goToClue. destruct (Crossword.puz st) eqn:E; [|done].
  destruct (length _ =? 0); [done|]. destruct (_ !! _) as [target|]; [|done].
  by destruct (Puz.cells target).
Qed.

Lemma fixed_move p nr nc st : fixedPart (Crossword.move p nr nc st) = fixedPart st.
Proof. unfold Crossword.move. destruct (_ || _); [done|]. by destruct (Puz.isBlock _). Qed.

Lemma fixedPart_eq st st' :
  fixedPart st' = fixedPart st →
  Crossword.puz st' = Crossword.puz st ∧ Crossword.teams st' = Crossword.teams st ∧
  Crossword.selectedTeamId st' = Crossword.selectedTeamId st.
Proof. unfold fixedPart. intros [= -> -> ->]. done. Qed.

Lemma fixed_onCellKeyDown idx key st :
  fixedPart (Crossword.onCellKeyDown idx key st) = fixedPart st.
Proof.
  unfold Crossword.onCellKeyDown. destruct (Crossword.puz st) as [p|] eqn:Hp; [|done].
  destruct (_ && _); [done|].
  destruct key; simpl; try done.
  - unfold Crossword.onTab.
    destruct (Crossword.mode st); destruct (_ <? _); apply fixed_goToClue.
  - destruct (List.find _ _); [|done]. by rewrite fixed_move.
  - destruct (List.find _ _); [|done]. by rewrite fixed_move.
  - destruct (List.find _ _); [|done]. by rewrite fixed_move.
  - destruct (List.find _ _); [|done]. by rewrite fixed_move.
  - rewrite onBackspace_uniform. destruct (Js.isEmpty _); [|done].
    by destruct (List.find _ _).
  - by destruct (Crossword.isLocked _ _).
Qed.

(** A key either leaves the three arrays alone or empties one cell at or
    before the cell that received it; a key other than Backspace empties at
    most the cell that received it, and only when that cell is not locked. *)
Lemma onCellKeyDown_arrays idx key st :
  let st' := Crossword.onCellKeyDown idx key st in
  (Crossword.cells st' = Crossword.cells st ∧ Crossword.status st' = Crossword.status st ∧
   Crossword.owners st' = Crossword.owners st) ∨
  ∃ j, j ≤ idx ∧
    (key ≠ Crossword.Backspace →
     j = idx ∧ Crossword.isLocked (Crossword.status st) idx = false) ∧
    Crossword.cells st' = Js.arraySet ""%string (Crossword.cells st) j ""%string ∧
    Crossword.status st' = Js.arraySet Crossword.unchecked (Crossword.status st) j
                             Crossword.unchecked ∧
    Crossword.owners st' = Js.arraySet None (Crossword.owners st) j None.
Proof.
  unfold Crossword.onCellKeyDown. destruct (Crossword.puz st) as [p|] eqn:Hp; [|by left].
  destruct (_ && _); [by left|].
  destruct key; simpl; try (by left).
  - unfold Crossword.onTab.
    destruct (Crossword.mode st); destruct (_ <? _); left; apply goToClue_keeps_letters.
  - destruct (List.find _ _); [|by left].
    left. apply (move_keeps_letters p _ _ (Crossword.setMode _ st)).
  - destruct (List.find _ _); [|by left].
    left. apply (move_keeps_letters p _ _ (Crossword.setMode _ st)).
  - destruct (List.find _ _); [|by left].
    left. apply (move_keeps_letters p _ _ (Crossword.setMode _ st)).
  - destruct (List.find _ _); [|by left].
    left. apply (move_keeps_letters p _ _ (Crossword.setMode _ st)).
  - rewrite onBackspace_uniform. destruct (Js.isEmpty _); [|by left].
    destruct (List.find _ _) as [k|] eqn:Ef; [|by left].
    right. exists (lineCell p (Crossword.mode st) idx k). split; [|done].
    apply find_some in Ef as [Hin _]. unfold Crossword.downFrom in Hin.
    apply in_rev, in_seq in Hin.
    pose proof (lineCell_before p (Crossword.mode st) idx k). lia.
  - destruct (Crossword.isLocked _ _) eqn:El; [by left|].
    right. by exists idx.
Qed.

(** A text input either is dropped (locked cell) or writes the typed letter
    and its owner into the cell, and resets an incorrect mark when the cell
    is emptied. *)
Lemma onCellChange_arrays idx value st :
  let st' := Crossword.onCellChange idx value st in
  let c := typedLetter value in
  Crossword.puz st' = Crossword.puz st ∧
  Crossword.mode st' = Crossword.mode st ∧
  Crossword.teams st' = Crossword.teams st ∧
  Crossword.selectedTeamId st' = Crossword.selectedTeamId st ∧
  (Crossword.isLocked (Crossword.status st) idx = true → st' = st) ∧
  (Crossword.isLocked (Crossword.status st) idx = false →
   Crossword.cells st' = Js.arraySet ""%string (Crossword.cells st) idx c ∧
   Crossword.owners st' = Js.arraySet None (Crossword.owners st) idx
                            (if Js.isEmpty c then None else Crossword.selectedTeamId st) ∧
   Crossword.status st' =
     match Crossword.status st !! idx with
     | Some Crossword.incorrect =>
         Js.arraySet Crossword.unchecked (Crossword.status st) idx
           (if Js.isEmpty c then Crossword.unchecked else Crossword.incorrect)
     | _ => Crossword.status st
     end).
Proof.
  unfold Crossword.onCellChange, typedLetter.
  set (v := Js.keepAZ (Js.toUpperCase value)).
  assert (Hv : Js.isEmpty (Js.firstChar v) = Js.isEmpty v) by (by destruct v).
  destruct (Crossword.isLocked (Crossword.status st) idx) eqn:Hl.
  { by repeat split. }
  rewrite Hv.
  assert (Hgo : ∀ s s' : Crossword.State,
    s' = s ∨ (∃ n, s' = Crossword.setActiveIndex n s) →
    Crossword.puz s' = Crossword.puz s ∧ Crossword.mode s' = Crossword.mode s ∧
    Crossword.teams s' = Crossword.teams s ∧
    Crossword.selectedTeamId s' = Crossword.selectedTeamId s ∧
    Crossword.cells s' = Crossword.cells s ∧ Crossword.owners s' = Crossword.owners s ∧
    Crossword.status s' = Crossword.status s).
  { intros s s' [-> | [n ->]]; by repeat split. }
  match goal with |- context [match Crossword.puz st with Some p => _ | None => ?s end] =>
    match goal with |- context [Crossword.puz ?s' = _] =>
      destruct (Hgo s s') as (-> & -> & -> & -> & -> & -> & ->) end end.
  { destruct (Crossword.puz st) as [p|]; [|by left].
    destruct (Js.isEmpty v); [by left|]. destruct (_ =? _); [by left|right; eauto]. }
  simpl. repeat split; done.
Qed.

(** ** The handlers, cell by cell *)

(** After a key, every cell reads as before or reads as cleared. *)
Lemma onCellKeyDown_pointwise idx key st i :
  let st' := Crossword.onCellKeyDown idx key st in
  (Crossword.cellValue (Crossword.cells st') i = Crossword.cellValue (Crossword.cells st) i ∧
   statusAt (Crossword.status st') i = statusAt (Crossword.status st) i ∧
   ownerAt (Crossword.owners st') i = ownerAt (Crossword.owners st) i) ∨
  (Crossword.cellValue (Crossword.cells st') i = ""%string ∧
   statusAt (Crossword.status st') i = Crossword.unchecked ∧
   ownerAt (Crossword.owners st') i = None).
Proof.
  cbv zeta.
  destruct (onCellKeyDown_arrays idx key st) as [(-> & -> & ->) | (j & _ & _ & -> & -> & ->)].
  - by left.
  - rewrite cellValue_arraySet, statusAt_arraySet, ownerAt_arraySet.
    destruct (decide (i = j)); [by right|by left].
Qed.

(** After a text input, every cell reads as before, except that an unlocked
    target cell takes the typed letter and the selected team, and loses an
    incorrect mark when the letter is empty. *)
Lemma onCellChange_pointwise idx value st i :
  let st' := Crossword.onCellChange idx value st in
  let c := typedLetter value in
  (Crossword.cellValue (Crossword.cells st') i = Crossword.cellValue (Crossword.cells st) i ∧
   statusAt (Crossword.status st') i = statusAt (Crossword.status st) i ∧
   ownerAt (Crossword.owners st') i = ownerAt (Crossword.owners st) i) ∨
  (i = idx ∧ statusAt (Crossword.status st) idx ≠ Crossword.correct ∧
   Crossword.cellValue (Crossword.cells st') i = c ∧
   ownerAt (Crossword.owners st') i
   = (if Js.isEmpty c then None else Crossword.selectedTeamId st) ∧
   statusAt (Crossword.status st') i
   = match statusAt (Crossword.status st) idx with
     | Crossword.incorrect => if Js.isEmpty c then Crossword.unchecked else Crossword.incorrect
     | s => s
     end).
Proof.
  destruct (onCellChange_arrays idx value st) as (_ & _ & _ & _ & Hl & Hu).
  destruct (Crossword.isLocked (Crossword.status st) idx) eqn:El.
  { left. cbv zeta. by rewrite Hl. }
  destruct (Hu eq_refl) as (Hc & Ho & Hs). cbv zeta. rewrite Hc, Ho, Hs.
  rewrite cellValue_arraySet, ownerAt_arraySet.
  apply isLocked_false_statusAt in El.
  destruct (decide (i = idx)) as [->|Hne].
  - right. do 4 (split; [done|]).
    destruct (Crossword.status st !! idx) as [[]|] eqn:Es.
    + unfold statusAt. by rewrite Es.
    + unfold statusAt. by rewrite Es.
    + rewrite statusAt_arraySet, decide_True by done. unfold statusAt. by rewrite Es.
    + unfold statusAt. by rewrite Es.
  - left. split; [done|]. split; [|done].
    destruct (Crossword.status st !! idx) as [[]|]; try done.
    by rewrite statusAt_arraySet, decide_False.
Qed.




Lemma checkPuzzle_statusAt st p i :
  Crossword.puz st = Some p →
  statusAt (Crossword.status (Crossword.checkPuzzle st)) i
  = if decide (i < Puz.width p * Puz.height p)
    then expectedStatus (Puz.cellAt (Puz.grid p) i) (Crossword.cellValue (Crossword.cells st) i)
    else Crossword.unchecked.
Proof.
  intros Hp. unfold Crossword.checkPuzzle. rewrite Hp. simpl. unfold statusAt.
  destruct (decide (i < Puz.width p * Puz.height p)) as [Hi|Hi].
  - rewrite map_lookup, lookup_seq_lt by done. simpl. apply checkCell_expected.
  - rewrite lookup_ge_None_2; [done|]. rewrite length_map, length_seq. lia.
Qed.

Lemma expectedStatus_correct cell letter :
  expectedStatus cell letter = Crossword.correct ↔
  Puz.isBlock cell = false ∧ letter ≠ ""%string ∧ Js.toUpperCase letter = Puz.solution cell.
Proof.
  unfold expectedStatus. destruct (Puz.isBlock cell).
  { split; [done|]. by intros [? _]. }
  destruct (decide (letter = ""%string)) as [->|Hne].
  { split; [done|]. by intros (_ & ? & _). }
  destruct (decide (Js.toUpperCase letter = Puz.solution cell)); split; try done.
  by intros (_ & _ & ?).
Qed.


(** ** Loading a file *)

Lemma blank_read {A B} (v : B) (l : list A) i : default v (map (fun _ => v) l !! i) = v.
Proof. rewrite map_lookup. by destruct (l !! i). Qed.

Lemma blank_replicate {A B} (v : B) (l : list A) : map (fun _ => v) l = replicate (length l) v.
Proof. induction l as [|a l IH]; simpl; by f_equal. Qed.

Lemma correctCells_unmarked status owners t :
  (∀ i, Crossword.isLocked status i = false) → correctCells status owners t = 0.
Proof.
  intros H. unfold correctCells.
  rewrite (List.filter_ext _ (fun _ => false)); [|by intros i; rewrite H].
  by induction (seq 0 (length status)).
Qed.

(** X1: a file that does not decode leaves the session as it is; a file that
    decodes becomes the puzzle of the session, with one empty, unchecked and
    unowned cell per grid cell, while direction, focus, teams and selected
    team are kept; every team then has score 0. *)
Theorem onFile_resets_session bytes opts st :
  match Puz.parsePuz bytes opts with
  | Puz.Err _ => Crossword.onFile bytes opts st = st
  | Puz.Ok p =>
      let n := Puz.width p * Puz.height p in
      Crossword.onFile bytes opts st
      = Crossword.mkState (Some p) (replicate n ""%string) (replicate n Crossword.unchecked)
          (replicate n None) (Crossword.mode st) (Crossword.activeIndex st)
          (Crossword.teams st) (Crossword.selectedTeamId st) ∧
      ∀ t, In t (map Crossword.id (Crossword.teams st)) →
           scoresOf (Crossword.onFile bytes opts st) !! t = Some 0
  end.
Proof.
  unfold Crossword.onFile. destruct (Puz.parsePuz bytes opts) as [p|e] eqn:Hp; [|done].
  pose proof (decoded_grid_length bytes opts p Hp) as Hlen. cbv zeta. split.
  - rewrite !blank_replicate, Hlen. by rewrite (Nat.mul_comm (Puz.height p)).
  - intros t Ht%knownTeam_In. unfold scoresOf. simpl. rewrite scores_lookup, Ht. simpl.
    f_equal. apply correctCells_unmarked. intros i. unfold Crossword.isLocked.
    rewrite map_lookup. by destruct (Puz.grid p !! i).
Qed.

(** ** What every handler maintains *)

(** X2: once the three per-cell arrays have one element per grid cell, they
    keep that length under the check, under text input and key presses on a
    cell of the grid, and under clue navigation. *)
Theorem array_lengths_preserved p st :
  Crossword.puz st = Some p → sized p st →
  sized p (Crossword.checkPuzzle st) ∧
  (∀ idx value, idx < Puz.width p * Puz.height p →
                sized p (Crossword.onCellChange idx value st)) ∧
  (∀ idx key, idx < Puz.width p * Puz.height p →
              sized p (Crossword.onCellKeyDown idx key st)) ∧
  (∀ dir k, sized p (Crossword.goToClue dir k st)).
Proof.
  intros Hp (Hc & Hs & Ho). split; [|split; [|split]].
  - unfold Crossword.checkPuzzle. rewrite Hp. unfold sized. simpl.
    by rewrite length_map, length_seq.
  - intros idx value Hi.
    destruct (onCellChange_arrays idx value st) as (_ & _ & _ & _ & Hl & Hu).
    destruct (Crossword.isLocked (Crossword.status st) idx) eqn:El.
    { by rewrite Hl. }
    destruct (Hu eq_refl) as (Ec & Eo & Es). unfold sized. rewrite Ec, Eo, Es.
    rewrite !arraySet_length_in by lia. split; [done|]. split; [|done].
    destruct (Crossword.status st !! idx) as [[]|]; try done.
    by rewrite arraySet_length_in by lia.
  - intros idx key Hi.
    destruct (onCellKeyDown_arrays idx key st)
      as [(Ec & Es & Eo) | (j & Hj & _ & Ec & Es & Eo)]; unfold sized; rewrite Ec, Es, Eo.
    + done.
    + by rewrite !arraySet_length_in by lia.
  - intros dir k. destruct (goToClue_keeps_letters dir k st) as (Ec & Es & Eo).
    unfold sized. by rewrite Ec, Es, Eo.
Qed.

(** The one-row puzzle [ABC], just loaded. *)
Lemma array_lengths_preserved_witness :
  sized rowPuz (Crossword.checkPuzzle loadedRow) ∧
  (∀ idx value, idx < Puz.width rowPuz * Puz.height rowPuz →
                sized rowPuz (Crossword.onCellChange idx value loadedRow)) ∧
  (∀ idx key, idx < Puz.width rowPuz * Puz.height rowPuz →
              sized rowPuz (Crossword.onCellKeyDown idx key loadedRow)) ∧
  (∀ dir k, sized rowPuz (Crossword.goToClue dir k loadedRow)).
Proof.
  apply (array_lengths_preserved rowPuz loadedRow); [vm_compute; reflexivity|].
  vm_compute. auto.
Defined.

Lemma checkPuzzle_lockSound p st :
  Crossword.puz st = Some p → lockSound p (Crossword.checkPuzzle st).
Proof.
  intros Hp i Hl%isLocked_statusAt. rewrite (checkPuzzle_statusAt st p i Hp) in Hl.
  destruct (decide (i < _)); [|done].
  apply expectedStatus_correct in Hl.
  unfold Crossword.checkPuzzle. rewrite Hp. exact Hl.
Qed.

(** X3: if every cell marked correct holds the letter of the solution, this
    is still so after a text input, after a key press, after clue navigation
    and after another check: no handler lets a locked cell keep its mark with
    a different letter. *)
Theorem locked_cells_hold_solution p st :
  Crossword.puz st = Some p → lockSound p st →
  (∀ idx value, lockSound p (Crossword.onCellChange idx value st)) ∧
  (∀ idx key, lockSound p (Crossword.onCellKeyDown idx key st)) ∧
  (∀ dir k, lockSound p (Crossword.goToClue dir k st)) ∧
  lockSound p (Crossword.checkPuzzle st).
Proof.
  intros Hp Hinv. split; [|split; [|split]].
  - intros idx value i Hl%isLocked_statusAt.
    destruct (onCellChange_pointwise idx value st i) as [(Ec & Es & _) | (-> & Hn & _ & _ & Es)].
    + rewrite Ec. apply Hinv. apply isLocked_statusAt. by rewrite <- Es.
    + rewrite Es in Hl. destruct (statusAt (Crossword.status st) idx); try done.
      by destruct (Js.isEmpty _).
  - intros idx key i Hl%isLocked_statusAt.
    destruct (onCellKeyDown_pointwise idx key st i) as [(Ec & Es & _) | (_ & Es & _)].
    + rewrite Ec. apply Hinv. apply isLocked_statusAt. by rewrite <- Es.
    + by rewrite Es in Hl.
  - intros dir k i. destruct (goToClue_keeps_letters dir k st) as (-> & -> & _). apply Hinv.
  - by apply checkPuzzle_lockSound.
Qed.

(** The one-row puzzle [ABC] with the checked letter A in cell 0. *)
Lemma locked_cells_hold_solution_witness :
  (∀ idx value, lockSound rowPuz (Crossword.onCellChange idx value lockedFirstCell)) ∧
  (∀ idx key, lockSound rowPuz (Crossword.onCellKeyDown idx key lockedFirstCell)) ∧
  (∀ dir k, lockSound rowPuz (Crossword.goToClue dir k lockedFirstCell)) ∧
  lockSound rowPuz (Crossword.checkPuzzle lockedFirstCell).
Proof.
  apply (locked_cells_hold_solution rowPuz lockedFirstCell); [vm_compute; reflexivity|].
  apply checkPuzzle_lockSound. vm_compute; reflexivity.
Defined.





(** ** Scores and editing *)

Lemma ownedBy_ownerAt owners t i :
  ownedBy owners t i = match ownerAt owners i with Some o => o =? t | None => false end.
Proof. unfold ownedBy, ownerAt. by destruct (owners !! i) as [[]|]. Qed.

Lemma isLocked_beyond status i : length status ≤ i → Crossword.isLocked status i = false.
Proof. intros Hi. unfold Crossword.isLocked. by rewrite lookup_ge_None_2. Qed.

Lemma filter_seq_beyond (f : nat → bool) n m :
  (∀ i, n ≤ i → f i = false) → List.filter f (seq 0 (n + m)) = List.filter f (seq 0 n).
Proof.
  intros Hf. rewrite seq_app, List.filter_app.
  rewrite (List.filter_ext_in f (fun _ => false) (seq (0 + n) m)).
  - replace (List.filter (fun _ => false) (seq (0 + n) m)) with (@nil nat);
      [by rewrite app_nil_r|].
    by induction (seq (0 + n) m).
  - intros i Hi%in_seq. apply Hf. lia.
Qed.

(** The count of a team depends only on which cells read as locked and
    owned by it. *)
Lemma correctCells_ext status owners status' owners' t :
  (∀ i, Crossword.isLocked status' i && ownedBy owners' t i
        = Crossword.isLocked status i && ownedBy owners t i) →
  correctCells status' owners' t = correctCells status owners t.
Proof.
  intros Hext. unfold correctCells.
  set (f := fun i => Crossword.isLocked status i && ownedBy owners t i).
  set (f' := fun i => Crossword.isLocked status' i && ownedBy owners' t i).
  set (n := length status). set (n' := length status').
  rewrite <- (filter_seq_beyond f' n' (n - n')).
  2: { intros i Hi. unfold f'. by rewrite isLocked_beyond. }
  rewrite <- (filter_seq_beyond f n (n' - n)).
  2: { intros i Hi. unfold f. by rewrite isLocked_beyond. }
  replace (n' + (n - n')) with (n + (n' - n)) by lia.
  f_equal. apply List.filter_ext. intros i. apply Hext.
Qed.

Lemma scores_ext teams status owners status' owners' :
  (∀ i, statusAt status' i = statusAt status i ∧ ownerAt owners' i = ownerAt owners i ∨
        statusAt status' i ≠ Crossword.correct ∧ statusAt status i ≠ Crossword.correct) →
  Crossword.scores teams status' owners' = Crossword.scores teams status owners.
Proof.
  intros H. apply map_eq. intros t. rewrite !scores_lookup.
  rewrite (correctCells_ext status owners status' owners' t); [done|].
  intros i. rewrite !ownedBy_ownerAt.
  destruct (H i) as [[Es Eo] | [E1%isLocked_false_statusAt E2%isLocked_false_statusAt]].
  - rewrite Eo. f_equal.
    destruct (Crossword.isLocked status i) eqn:E.
    + apply isLocked_statusAt. rewrite Es. by apply isLocked_statusAt.
    + apply isLocked_false_statusAt. rewrite Es. by apply isLocked_false_statusAt.
  - by rewrite E1, E2.
Qed.

(** X6: typing never changes a score.  A text input, and every key other
    than Backspace, leaves the score of every team as it was: scores move
    only when the puzzle is checked (or when Backspace steps back onto a
    cell). *)
Theorem typing_keeps_scores st idx :
  (∀ value, scoresOf (Crossword.onCellChange idx value st) = scoresOf st) ∧
  (∀ key, key ≠ Crossword.Backspace →
          scoresOf (Crossword.onCellKeyDown idx key st) = scoresOf st).
Proof.
  split.
  - intros value. unfold scoresOf.
    destruct (onCellChange_arrays idx value st) as (_ & _ & -> & _).
    apply scores_ext. intros i.
    destruct (onCellChange_pointwise idx value st i)
      as [(_ & Es & Eo) | (-> & Hn & _ & _ & Es)]; [by left|right].
    split; [|done]. rewrite Es.
    destruct (statusAt (Crossword.status st) idx); try done. by destruct (Js.isEmpty _).
  - intros key Hkey. unfold scoresOf.
    destruct (fixedPart_eq _ _ (fixed_onCellKeyDown idx key st)) as (_ & -> & _).
    apply scores_ext. intros i.
    destruct (onCellKeyDown_arrays idx key st)
      as [(_ & -> & ->) | (j & _ & Hj & _ & -> & ->)]; [by left|].
    destruct (Hj Hkey) as [-> El%isLocked_false_statusAt].
    rewrite statusAt_arraySet, ownerAt_arraySet.
    destruct (decide (i = idx)) as [->|]; [by right|by left].
Qed.

(** ** Moving along a row or a column *)

Lemma find_seq_Some (P : nat → bool) a n k :
  a ≤ k < a + n → P k = true → (∀ j, a ≤ j < k → P j = false) →
  List.find P (seq a n) = Some k.
Proof.
  revert a. induction n as [|n IH]; intros a Hk Pk Hnone; [lia|].
  simpl. destruct (decide (a = k)) as [->|Hne]; [by rewrite Pk|].
  rewrite Hnone by lia. apply IH; [lia|done|]. intros j Hj. apply Hnone. lia.
Qed.

Lemma find_seq_None (P : nat → bool) a n :
  (∀ j, a ≤ j < a + n → P j = false) → List.find P (seq a n) = None.
Proof.
  revert a. induction n as [|n IH]; intros a Hnone; [done|].
  simpl. rewrite Hnone by lia. apply IH. intros j Hj. apply Hnone. lia.
Qed.

Lemma onArrow_uniform p st idx key m fwd :
  Crossword.puz st = Some p → arrowOf key = Some (m, fwd) →
  Crossword.onCellKeyDown idx key st =
  let st1 := Crossword.setMode m st in
  let pos := linePos p m idx in
  match List.find (fun k => Crossword.isOpen p (lineCell p m idx k))
          (if fwd then seq (S pos) (lineLen p m - S pos) else Crossword.downFrom pos) with
  | Some k => match m with
              | Crossword.Across => Crossword.move p (idx / Puz.width p) k st1
              | Crossword.Down => Crossword.move p k (idx mod Puz.width p) st1
              end
  | None => st1
  end.
Proof.
  intros Hp Hkey. unfold Crossword.onCellKeyDown. rewrite Hp.
  destruct key; try done; simpl in Hkey; injection Hkey as <- <-;
    simpl; by rewrite andb_false_r.
Qed.

Lemma move_lands p st r c :
  r < Puz.height p → c < Puz.width p →
  Crossword.isOpen p (r * Puz.width p + c) = true →
  Crossword.move p r c st = Crossword.setActiveIndex (r * Puz.width p + c) st.
Proof.
  intros Hr Hc Hopen. unfold Crossword.move.
  destruct (Nat.leb_spec (Puz.height p) r); [lia|].
  destruct (Nat.leb_spec (Puz.width p) c); [lia|]. simpl.
  unfold Crossword.isOpen in Hopen. by destruct (Puz.isBlock _).
Qed.

Lemma line_bounds p idx :
  idx < Puz.width p * Puz.height p →
  idx / Puz.width p < Puz.height p ∧ idx mod Puz.width p < Puz.width p.
Proof.
  intros Hi. assert (Puz.width p ≠ 0) by (intros E; rewrite E in Hi; simpl in Hi; lia).
  split.
  - apply Nat.Div0.div_lt_upper_bound. lia.
  - by apply Nat.mod_upper_bound.
Qed.

(** X7: an arrow key sets the direction to its own axis (across for left
    and right, down for up and down) and moves the focus to the nearest cell
    that is not a block on its side of the row or column, passing over
    blocks; with no such cell the focus stays and only the direction is set.
    Letters, marks and owners are untouched, and a locked cell can be left
    and entered like any other. *)
Theorem arrow_moves_to_nearest_open_cell st p idx key m fwd :
  Crossword.puz st = Some p → idx < Puz.width p * Puz.height p →
  arrowOf key = Some (m, fwd) →
  (∀ k, nearestOpen p m idx fwd k →
        Crossword.onCellKeyDown idx key st = focused m (lineCell p m idx k) st) ∧
  (noneOpen p m idx fwd → Crossword.onCellKeyDown idx key st = Crossword.setMode m st).
Proof.
  intros Hp Hi Hkey. rewrite (onArrow_uniform p st idx key m fwd Hp Hkey). cbv zeta.
  destruct (line_bounds p idx Hi) as [Hr Hc]. split.
  - intros k [Hopen Hnear].
    assert (List.find (fun k => Crossword.isOpen p (lineCell p m idx k))
              (if fwd then seq (S (linePos p m idx)) (lineLen p m - S (linePos p m idx))
               else Crossword.downFrom (linePos p m idx)) = Some k) as ->.
    { destruct fwd.
      - destruct Hnear as [Hk Hnone]. apply find_seq_Some; [lia|done|].
        intros j Hj. apply Hnone. lia.
      - destruct Hnear as [Hk Hnone]. by apply find_downFrom_Some. }
    assert (k < lineLen p m) as Hlen.
    { destruct fwd; [lia|]. destruct Hnear as [Hk _].
      unfold linePos, lineLen in *. destruct m; lia. }
    destruct m; simpl in *; by rewrite move_lands.
  - intros Hnone.
    assert (List.find (fun k => Crossword.isOpen p (lineCell p m idx k))
              (if fwd then seq (S (linePos p m idx)) (lineLen p m - S (linePos p m idx))
               else Crossword.downFrom (linePos p m idx)) = None) as ->; [|done].
    destruct fwd.
    + apply find_seq_None. intros j Hj. apply Hnone. lia.
    + by apply find_downFrom_None.
Qed.

(** The row [A.C]: from cell 0 the right arrow passes over the block. *)
Lemma arrow_moves_to_nearest_open_cell_witness :
  (∀ k, nearestOpen gapPuz Crossword.Across 0 true k →
        Crossword.onCellKeyDown 0 Crossword.ArrowRight loadedGap
        = focused Crossword.Across (lineCell gapPuz Crossword.Across 0 k) loadedGap) ∧
  (noneOpen gapPuz Crossword.Across 0 true →
   Crossword.onCellKeyDown 0 Crossword.ArrowRight loadedGap
   = Crossword.setMode Crossword.Across loadedGap).
Proof.
  apply (arrow_moves_to_nearest_open_cell loadedGap gapPuz 0 Crossword.ArrowRight
           Crossword.Across true);
    [vm_compute; reflexivity | vm_compute; lia | reflexivity].
Defined.






(** ** The decoder, further *)

(** X9: the only way the decoder raises a [RangeError] is a buffer shorter
    than the 48 bytes its three header reads need; on such a buffer it raises
    nothing else and returns nothing. *)
Theorem header_reads_fail_iff_short bytes opts :
  Puz.parsePuz bytes opts = Puz.Err Puz.RangeError ↔ length bytes < 48.
Proof.
  split; [|apply parsePuz_short_header].
  intros H. pose proof (parsePuz_outcome bytes opts) as Ho. unfold outcomeOf in Ho.
  destruct (Nat.ltb_spec (length bytes) 48); [done|].
  destruct (_ || _); [congruence|].
  destruct (_ <? _); [congruence|]. destruct (_ <? _); [congruence|].
  destruct Ho as (p & Hp & _). congruence.
Qed.

(** *** Entries are maximal runs *)

Lemma lineRun_seq n (open : nat → bool) : ∀ fuel k,
  n - k ≤ fuel →
  ∃ len, lineRun n open fuel k = seq k len ∧
         (len = 0 ∨ k + len ≤ n) ∧
         (∀ j, k ≤ j < k + len → open j = true) ∧
         (k + len < n → open (k + len) = false) ∧
         (k < n → open k = true → 0 < len).
Proof.
  induction fuel as [|fuel IH]; intros k Hf.
  { exists 0. simpl. repeat split; try lia. }
  simpl. destruct (Nat.ltb_spec k n) as [Hk|Hk]; simpl.
  - destruct (open k) eqn:Ek.
    + destruct (IH (S k)) as (len & -> & Hb & Ho & He & _); [lia|].
      exists (S len). split; [done|]. split; [right; lia|]. split; [|split].
      * intros j Hj. destruct (decide (j = k)) as [->|]; [done|]. apply Ho. lia.
      * intros Hlt. replace (k + S len) with (S k + len) by lia. apply He. lia.
      * lia.
    + exists 0. simpl. split; [done|]. split; [by left|]. split; [intros; lia|].
      split; [by rewrite Nat.add_0_r|]. intros _ E. congruence.
  - exists 0. simpl. split; [done|]. split; [by left|]. repeat split; intros; lia.
Qed.

(** The cells of an entry, along the row or column of its first cell. *)
Lemma entry_line bytes opts p dir a e :
  Puz.parsePuz bytes opts = Puz.Ok p →
  Crossword.entriesOf p dir !! a = Some e →
  ∃ k i, startCells p !! k = Some i ∧ Puz.number e = S k ∧ firstCell e = Some i ∧
         startsIn p dir i = true ∧
         cellIdxs e = map (lineCell p dir i)
                        (lineRun (lineLen p dir)
                           (fun k => Crossword.isOpen p (lineCell p dir i k))
                           (lineLen p dir - linePos p dir i) (linePos p dir i)).
Proof.
  intros Hp He.
  pose proof (decoded_grid_length bytes opts p Hp) as Hlen.
  pose proof (decoded_grid_index bytes opts p Hp) as Hidx.
  destruct dir; simpl in He.
  - destruct (across_entry bytes opts p Hp a e He) as (k & i & Hv & Hk & Hn & Hf & Hc).
    exists k, i. do 3 (split; [done|]).
    destruct (view_lookup p _ _ _ _ Hv) as (k' & _ & _ & Hs). split; [done|].
    destruct (startCells_lookup p k i Hk) as (Hi & _).
    rewrite Hc. by rewrite (acrossIdx_cover _ _ _ Hlen Hidx i Hi).
  - destruct (down_entry bytes opts p Hp a e He) as (k & i & Hv & Hk & Hn & Hf & Hc).
    exists k, i. do 3 (split; [done|]).
    destruct (view_lookup p _ _ _ _ Hv) as (k' & _ & _ & Hs). split; [done|].
    destruct (startCells_lookup p k i Hk) as (Hi & _).
    rewrite Hc. by rewrite (downIdx_cover _ _ _ Hlen Hidx i Hi).
Qed.

Lemma lineCell_pos p m i : lineCell p m i (linePos p m i) = i.
Proof.
  unfold lineCell, linePos. pose proof (Nat.div_mod_eq i (Puz.width p)).
  destruct m; lia.
Qed.

Lemma linePos_lt p m i :
  i < Puz.height p * Puz.width p → linePos p m i < lineLen p m.
Proof.
  intros Hi. destruct (cell_bounds _ _ _ Hi) as (_ & Hr & Hc).
  unfold linePos, lineLen. by destruct m.
Qed.

Lemma isOpen_openAt p j : Crossword.isOpen p j = openAt (Puz.grid p) j.
Proof. done. Qed.

(** The cell before the first cell of an entry, if there is one, is a block. *)
Lemma startsIn_before p dir i :
  length (Puz.grid p) = Puz.height p * Puz.width p →
  i < Puz.height p * Puz.width p → startsIn p dir i = true →
  linePos p dir i = 0 ∨ Crossword.isOpen p (lineCell p dir i (linePos p dir i - 1)) = false.
Proof.
  intros Hlen Hi Hs. destruct (cell_bounds _ _ _ Hi) as (_ & Hr & Hc).
  destruct (Nat.eqb_spec (linePos p dir i) 0) as [E0|E0]; [by left|right].
  rewrite isOpen_openAt.
  destruct dir; unfold linePos, lineCell in *; simpl in Hs.
  - unfold startsAcrossCell, acrossStartAt, Puz.startsAcrossAt in Hs.
    destruct (Nat.eqb_spec (i mod Puz.width p) 0); [done|]. simpl in Hs.
    rewrite <- (isBlockAt_in _ _ _ Hlen) by lia. by rewrite Hs.
  - unfold startsDownCell, downStartAt, Puz.startsDownAt in Hs.
    destruct (Nat.eqb_spec (i / Puz.width p) 0); [done|]. simpl in Hs.
    rewrite <- (isBlockAt_in _ _ _ Hlen) by lia. by rewrite Hs.
Qed.

Lemma decoded_cells_view bytes opts p :
  Puz.parsePuz bytes opts = Puz.Ok p →
  map Puz.cells (Puz.across p)
  = map (fun ni => Puz.acrossCells (Puz.width p) (Puz.height p) (Puz.grid p)
                     (ni.2 / Puz.width p) (ni.2 mod Puz.width p)) (acrossView p) ∧
  map Puz.cells (Puz.down p)
  = map (fun ni => Puz.downCells (Puz.width p) (Puz.height p) (Puz.grid p)
                     (ni.2 / Puz.width p) (ni.2 mod Puz.width p)) (downView p).
Proof.
  intros Hp.
  destruct (parsePuz_Ok_inv _ _ _ Hp) as (_ & _ & _ & _ & _ & -> & ->).
  destruct (buildEntries_shape (Puz.width p) (Puz.height p) (Puz.grid p)
              (Puz.cluesRaw p) (Puz.clueOrder p)) as (_ & -> & _ & ->).
  rewrite (sc_across _ _ _ _ _ (scanned_scan (Puz.width p) (Puz.height p) (Puz.grid p))).
  rewrite (sc_down _ _ _ _ _ (scanned_scan (Puz.width p) (Puz.height p) (Puz.grid p))).
  by rewrite !map_map.
Qed.

(** The cells of an entry are the cells of the grid at its indices. *)
Lemma entry_cells_of_grid bytes opts p dir a e :
  Puz.parsePuz bytes opts = Puz.Ok p →
  Crossword.entriesOf p dir !! a = Some e →
  Puz.cells e = map (Puz.cellAt (Puz.grid p)) (cellIdxs e).
Proof.
  intros Hp He.
  pose proof (decoded_grid_index bytes opts p Hp) as Hidx.
  destruct (decoded_cells_view bytes opts p Hp) as [Ha Hd].
  assert (∀ (n : nat) f (l : list nat),
            (∀ k, In k l → f k < Puz.height p * Puz.width p) →
            map (fun k => Puz.cellAt (Puz.grid p) (f k)) l
            = map (Puz.cellAt (Puz.grid p))
                (map Puz.index (map (fun k => Puz.cellAt (Puz.grid p) (f k)) l))) as Hgo.
  { intros _ f l Hl. rewrite !map_map. apply map_ext_in. intros k Hk.
    by rewrite Hidx by (by apply Hl). }
  unfold cellIdxs. destruct dir; simpl in He.
  - destruct (across_entry bytes opts p Hp a e He) as (k & i & Hv & Hk & _).
    destruct (startCells_lookup p k i Hk) as (Hi & _).
    destruct (cell_bounds _ _ _ Hi) as (_ & Hr & Hc).
    apply (f_equal (fun l => l !! a)) in Ha. rewrite !map_lookup, He, Hv in Ha.
    injection Ha as ->. simpl. unfold Puz.acrossCells. rewrite acrossRun_line.
    apply (Hgo 0). intros j Hj%lineRun_ge. apply rowcol_lt; [done|lia].
  - destruct (down_entry bytes opts p Hp a e He) as (k & i & Hv & Hk & _).
    destruct (startCells_lookup p k i Hk) as (Hi & _).
    destruct (cell_bounds _ _ _ Hi) as (_ & Hr & Hc).
    apply (f_equal (fun l => l !! a)) in Hd. rewrite !map_lookup, He, Hv in Hd.
    injection Hd as ->. simpl. unfold Puz.downCells. rewrite downRun_line.
    apply (Hgo 0). intros j Hj%lineRun_ge. apply rowcol_lt; [lia|done].
Qed.

(** The cells of an entry lie on one line of the grid, at consecutive
    positions. *)
Lemma entry_span bytes opts p dir a e :
  Puz.parsePuz bytes opts = Puz.Ok p →
  Crossword.entriesOf p dir !! a = Some e →
  ∃ i len, cellIdxs e = map (lineCell p dir i) (seq (linePos p dir i) len) ∧
           linePos p dir i + len ≤ lineLen p dir.
Proof.
  intros Hp He.
  destruct (entry_line bytes opts p dir a e Hp He) as (k & i & Hk & _ & _ & _ & Hc).
  destruct (startCells_lookup p k i Hk) as (Hi & _).
  pose proof (linePos_lt p dir i Hi) as Hpos.
  destruct (lineRun_seq (lineLen p dir) (fun k => Crossword.isOpen p (lineCell p dir i k))
              (lineLen p dir - linePos p dir i) (linePos p dir i))
    as (len & Hrun & Hb & _); [lia|].
  exists i, len. split; [by rewrite Hc, Hrun|lia].
Qed.

(** X10: every entry is a maximal run of cells that are not blocks, along
    one row (across) or one column (down): its cells are consecutive
    positions of that line starting at its first cell, at least one, all of
    them open; the position before the first one, and the position after the
    last one, is a block or lies outside the grid.  The cells the entry holds
    are the cells of the grid at those indices. *)
Theorem entries_are_maximal_runs bytes opts p dir a e :
  Puz.parsePuz bytes opts = Puz.Ok p →
  Crossword.entriesOf p dir !! a = Some e →
  ∃ i len,
    let pos := linePos p dir i in
    firstCell e = Some i ∧ 0 < len ∧
    cellIdxs e = map (lineCell p dir i) (seq pos len) ∧
    pos + len ≤ lineLen p dir ∧
    (∀ k, pos ≤ k < pos + len → Crossword.isOpen p (lineCell p dir i k) = true) ∧
    (pos = 0 ∨ Crossword.isOpen p (lineCell p dir i (pos - 1)) = false) ∧
    (pos + len = lineLen p dir ∨ Crossword.isOpen p (lineCell p dir i (pos + len)) = false) ∧
    Puz.cells e = map (Puz.cellAt (Puz.grid p)) (cellIdxs e).
Proof.
  intros Hp He.
  destruct (entry_line bytes opts p dir a e Hp He) as (k & i & Hk & _ & Hf & Hs & Hc).
  destruct (startCells_lookup p k i Hk) as (Hi & Hopen & _).
  pose proof (decoded_grid_length bytes opts p Hp) as Hlen.
  pose proof (linePos_lt p dir i Hi) as Hpos.
  destruct (lineRun_seq (lineLen p dir) (fun k => Crossword.isOpen p (lineCell p dir i k))
              (lineLen p dir - linePos p dir i) (linePos p dir i))
    as (len & Hrun & Hb & Ho & He' & Hne); [lia|].
  exists i, len. cbv zeta. split; [done|].
  assert (0 < len) as Hpl.
  { apply Hne; [done|]. by rewrite lineCell_pos. }
  split; [done|]. split; [by rewrite Hc, Hrun|]. split; [lia|]. split; [done|].
  split; [by apply startsIn_before|]. split.
  - destruct (decide (linePos p dir i + len = lineLen p dir)); [by left|right].
    apply He'. lia.
  - by apply (entry_cells_of_grid bytes opts p dir a e).
Qed.

(** The second across entry of the row [A.C]: the single cell 2 after the
    block. *)
Lemma entries_are_maximal_runs_witness :
  ∃ i len,
    let pos := linePos gapPuz Crossword.Across i in
    firstCell (Puz.mkEntry 2 "" [Puz.mkCell 0 2 2 false "C"]) = Some i ∧ 0 < len ∧
    cellIdxs (Puz.mkEntry 2 "" [Puz.mkCell 0 2 2 false "C"])
    = map (lineCell gapPuz Crossword.Across i) (seq pos len) ∧
    pos + len ≤ lineLen gapPuz Crossword.Across ∧
    (∀ k, pos ≤ k < pos + len →
          Crossword.isOpen gapPuz (lineCell gapPuz Crossword.Across i k) = true) ∧
    (pos = 0 ∨ Crossword.isOpen gapPuz (lineCell gapPuz Crossword.Across i (pos - 1)) = false) ∧
    (pos + len = lineLen gapPuz Crossword.Across ∨
     Crossword.isOpen gapPuz (lineCell gapPuz Crossword.Across i (pos + len)) = false) ∧
    Puz.cells (Puz.mkEntry 2 "" [Puz.mkCell 0 2 2 false "C"])
    = map (Puz.cellAt (Puz.grid gapPuz))
        (cellIdxs (Puz.mkEntry 2 "" [Puz.mkCell 0 2 2 false "C"])).
Proof.
  apply (entries_are_maximal_runs gapFile noOpts gapPuz Crossword.Across 1);
    vm_compute; reflexivity.
Defined.

(** *** The order of the entry lists *)

Lemma view_numbers_sorted {A} (Q : nat * A → bool) (l : list A) : ∀ n,
  let L := map fst (List.filter Q (imap (fun k i => (n + k, i)) l)) in
  Forall (fun m => n ≤ m < n + length l) L ∧
  ∀ a b na nb, L !! a = Some na → L !! b = Some nb → a < b → na < nb.
Proof.
  induction l as [|x l IH]; intros n L.
  { split; [constructor|]. intros a b na nb Ha. by destruct a. }
  unfold L. rewrite imap_cons.
  rewrite (imap_ext _ (fun k i => (S n + k, i))) by (intros; simpl; f_equal; lia).
  destruct (IH (S n)) as [Hf Hs]. simpl List.filter.
  assert (Forall (fun m => n ≤ m < n + length (x :: l))
            (map fst (List.filter Q (imap (fun k i => (S n + k, i)) l)))) as Hf'.
  { eapply Forall_impl; [exact Hf|]. simpl. intros; lia. }
  set (L' := map fst (List.filter Q (imap (fun k i => (S n + k, i)) l))) in *.
  destruct (Q (n + 0, x)); [|done]. simpl map. fold L'. split.
  - constructor; [simpl; lia|done].
  - intros a b na nb Ha Hb Hab. destruct b as [|b]; [lia|].
    change (L' !! b = Some nb) in Hb.
    destruct a as [|a].
    + injection Ha as <-. rewrite Forall_forall in Hf.
      apply list_elem_of_lookup_2, Hf in Hb. simpl. lia.
    + change (L' !! a = Some na) in Ha. apply (Hs a b); [done|done|lia].
Qed.

(** X11: both entry lists are in ascending order of their numbers, which lie
    between 1 and the number of entry-start cells: the clue lists are shown
    in number order and no number occurs twice in a list. *)
Theorem entries_listed_by_number bytes opts p dir :
  Puz.parsePuz bytes opts = Puz.Ok p →
  Forall (fun n => 1 ≤ n ≤ length (startCells p))
    (map Puz.number (Crossword.entriesOf p dir)) ∧
  ∀ a b ea eb, Crossword.entriesOf p dir !! a = Some ea →
               Crossword.entriesOf p dir !! b = Some eb →
               a < b → Puz.number ea < Puz.number eb.
Proof.
  intros Hp.
  destruct (decoded_across_view bytes opts p Hp) as [Ha _].
  destruct (decoded_down_view bytes opts p Hp) as [Hd _].
  assert (∀ es P,
            map Puz.number es
            = map fst (List.filter (fun ni : nat * nat => P ni.2)
                         (imap (fun k i => (S k, i)) (startCells p))) →
            Forall (fun n => 1 ≤ n ≤ length (startCells p)) (map Puz.number es) ∧
            ∀ a b ea eb, es !! a = Some ea → es !! b = Some eb → a < b →
                         Puz.number ea < Puz.number eb) as Hview.
  { intros es P E.
    destruct (view_numbers_sorted (fun ni : nat * nat => P ni.2) (startCells p) 1)
      as [Hf Hs].
    rewrite E. split.
    - eapply Forall_impl; [exact Hf|]. simpl. intros; lia.
    - intros a b ea eb Ea Eb Hab. apply (Hs a b); [| |done].
      + change (fun k i => (1 + k, i)) with (fun (k i : nat) => (S k, i)).
        by rewrite <- E, map_lookup, Ea.
      + change (fun k i => (1 + k, i)) with (fun (k i : nat) => (S k, i)).
        by rewrite <- E, map_lookup, Eb. }
  destruct dir; simpl.
  - by apply (Hview _ (startsAcrossCell p)).
  - by apply (Hview _ (startsDownCell p)).
Qed.

(** Two rows [ABC], [DEF]: the across entries are 1 and 4. *)
Lemma entries_listed_by_number_witness :
  Forall (fun n => 1 ≤ n ≤ length (startCells twoRowPuz))
    (map Puz.number (Crossword.entriesOf twoRowPuz Crossword.Across)) ∧
  ∀ a b ea eb, Crossword.entriesOf twoRowPuz Crossword.Across !! a = Some ea →
               Crossword.entriesOf twoRowPuz Crossword.Across !! b = Some eb →
               a < b → Puz.number ea < Puz.number eb.
Proof.
  apply (entries_listed_by_number twoRowFile noOpts twoRowPuz Crossword.Across).
  vm_compute. reflexivity.
Defined.

(** *** The clue order option *)

Lemma parsePuz_reorder bytes o1 o2 p1 :
  Puz.parsePuz bytes o1 = Puz.Ok p1 →
  let order := default Puz.interleaved_ad (Puz.optClueOrder o2) in
  let a := Puz.buildEntries (Puz.width p1) (Puz.height p1) (Puz.grid p1)
             (Puz.cluesRaw p1) order in
  Puz.parsePuz bytes o2
  = Puz.Ok (Puz.mkPuz (Puz.width p1) (Puz.height p1) (Puz.title p1) (Puz.author p1)
              (Puz.copyright p1) (Puz.grid p1) (Puz.cluesRaw p1)
              (Puz.asAcross a) (Puz.asDown a) order).
Proof.
  unfold Puz.parsePuz.
  destruct (Puz.getUint8 bytes Puz.OFFSET_WIDTH) as [w|]; [|done].
  destruct (Puz.getUint8 bytes Puz.OFFSET_HEIGHT) as [h|]; [|done].
  destruct (Puz.getUint16 bytes Puz.OFFSET_NUM_CLUES) as [n|]; [|done].
  cbn [mbind Puz.result_bind].
  destruct (_ || _); [done|]. destruct (_ <? _); [done|].
  destruct (Puz.readNullTerminated bytes _) as [[t c1]|]; [|done]. cbn [mbind Puz.result_bind].
  destruct (Puz.readNullTerminated bytes c1) as [[au c2]|]; [|done]. cbn [mbind Puz.result_bind].
  destruct (Puz.readNullTerminated bytes c2) as [[co c3]|]; [|done]. cbn [mbind Puz.result_bind].
  destruct (Puz.readClues bytes n c3 []) as [[raw c4]|]; [|done]. cbn [mbind Puz.result_bind].
  intros [= <-]. done.
Qed.

(** X12: the [clueOrder] option decides nothing but the clue texts and the
    recorded order: if a buffer decodes under one option it decodes under
    every other, to the same dimensions, strings, grid and raw clues, and to
    entry lists with the same numbers and the same cells. *)
Theorem clue_order_changes_only_clues bytes o1 o2 p1 :
  Puz.parsePuz bytes o1 = Puz.Ok p1 →
  ∃ p2, Puz.parsePuz bytes o2 = Puz.Ok p2 ∧
        Puz.clueOrder p2 = default Puz.interleaved_ad (Puz.optClueOrder o2) ∧
        (Puz.width p2, Puz.height p2, Puz.grid p2) = (Puz.width p1, Puz.height p1, Puz.grid p1) ∧
        (Puz.title p2, Puz.author p2, Puz.copyright p2, Puz.cluesRaw p2)
        = (Puz.title p1, Puz.author p1, Puz.copyright p1, Puz.cluesRaw p1) ∧
        map Puz.number (Puz.across p2) = map Puz.number (Puz.across p1) ∧
        map Puz.cells (Puz.across p2) = map Puz.cells (Puz.across p1) ∧
        map Puz.number (Puz.down p2) = map Puz.number (Puz.down p1) ∧
        map Puz.cells (Puz.down p2) = map Puz.cells (Puz.down p1).
Proof.
  intros Hp. pose proof (parsePuz_reorder bytes o1 o2 p1 Hp) as H2. cbv zeta in H2.
  eexists. split; [exact H2|]. simpl. do 3 (split; [done|]).
  destruct (parsePuz_Ok_inv _ _ _ Hp) as (_ & _ & _ & _ & _ & -> & ->).
  destruct (buildEntries_shape (Puz.width p1) (Puz.height p1) (Puz.grid p1) (Puz.cluesRaw p1)
              (Puz.clueOrder p1)) as (-> & -> & -> & ->).
  destruct (buildEntries_shape (Puz.width p1) (Puz.height p1) (Puz.grid p1) (Puz.cluesRaw p1)
              (default Puz.interleaved_ad (Puz.optClueOrder o2))) as (-> & -> & -> & ->).
  done.
Qed.

(** The one-row puzzle decoded with the default order and with down-across:
    the single clue goes to 1 Across in the first and to 1 Down in the
    second, everything else agrees. *)
Lemma clue_order_changes_only_clues_witness :
  ∃ p2, Puz.parsePuz rowFile (Puz.mkOpts (Some Puz.down_across)) = Puz.Ok p2 ∧
        Puz.clueOrder p2 = Puz.down_across ∧
        (Puz.width p2, Puz.height p2, Puz.grid p2)
        = (Puz.width rowPuz, Puz.height rowPuz, Puz.grid rowPuz) ∧
        (Puz.title p2, Puz.author p2, Puz.copyright p2, Puz.cluesRaw p2)
        = (Puz.title rowPuz, Puz.author rowPuz, Puz.copyright rowPuz, Puz.cluesRaw rowPuz) ∧
        map Puz.number (Puz.across p2) = map Puz.number (Puz.across rowPuz) ∧
        map Puz.cells (Puz.across p2) = map Puz.cells (Puz.across rowPuz) ∧
        map Puz.number (Puz.down p2) = map Puz.number (Puz.down rowPuz) ∧
        map Puz.cells (Puz.down p2) = map Puz.cells (Puz.down rowPuz).
Proof.
  apply (clue_order_changes_only_clues rowFile noOpts (Puz.mkOpts (Some Puz.down_across)) rowPuz).
  vm_compute. reflexivity.
Defined.

(** *** The grid and the solution plane *)







(** *** Reading a laid-out file *)









(** ** The cell-to-entry maps *)

(** X15: for each direction the cell-to-entry map sends a cell index to [a]
    exactly when the cell belongs to entry [a] of that direction, and has no
    value exactly at blocks and outside the grid: every open cell has one
    across and one down entry, so the [?? 0] fallback of the Tab handler is
    never taken on a cell that can receive a key. *)
Theorem cell_maps_name_the_entry bytes opts p dir i :
  Puz.parsePuz bytes opts = Puz.Ok p →
  (∀ a, cellMapOf p dir !! i = Some a ↔
        ∃ e, Crossword.entriesOf p dir !! a = Some e ∧ In i (cellIdxs e)) ∧
  (cellMapOf p dir !! i = None ↔ isOpenCell p i = false).
Proof.
  intros Hp.
  assert (cellMapOf p dir = Crossword.cellToEntry (Crossword.entriesOf p dir)) as ->
    by (by destruct dir).
  pose proof (decoded_cover_dir bytes opts p dir i Hp) as Hcount.
  assert (Hto : ∀ a, Crossword.cellToEntry (Crossword.entriesOf p dir) !! i = Some a →
                     ∃ e, Crossword.entriesOf p dir !! a = Some e ∧ In i (cellIdxs e))
    by (intros a; apply cellToEntry_Some).
  assert (Hfrom : ∀ a e, Crossword.entriesOf p dir !! a = Some e → In i (cellIdxs e) →
                         Crossword.cellToEntry (Crossword.entriesOf p dir) !! i = Some a)
    by (intros a e; apply (cellTo_lookup bytes opts p dir a e i Hp)).
  split.
  - intros a. split; [apply Hto|]. intros (e & He & Hin). by apply (Hfrom a e).
  - destruct (isOpenCell p i) eqn:Eo; split; try done.
    + intros Hnone. exfalso.
      assert (In i (entryCells (Crossword.entriesOf p dir))) as Hin.
      { apply (count_occ_In Nat.eq_dec). lia. }
      unfold entryCells in Hin. apply in_flat_map in Hin as (e & He & Hi).
      apply list_elem_of_In, list_elem_of_lookup in He as [a Ha].
      by rewrite (Hfrom a e Ha Hi) in Hnone.
    + intros _. destruct (Crossword.cellToEntry _ !! i) as [a|] eqn:Ea; [|done].
      exfalso. destruct (Hto a eq_refl) as (e & He & Hi).
      assert (In i (entryCells (Crossword.entriesOf p dir))) as Hin.
      { unfold entryCells. apply in_flat_map. exists e. split; [|done].
        by eapply list_elem_of_In, list_elem_of_lookup_2. }
      apply (count_occ_In Nat.eq_dec) in Hin. lia.
Qed.

(** The row [A.C]: the block, cell 1. *)
Lemma cell_maps_name_the_entry_witness :
  (∀ a, cellMapOf gapPuz Crossword.Across !! 1 = Some a ↔
        ∃ e, Crossword.entriesOf gapPuz Crossword.Across !! a = Some e ∧ In 1 (cellIdxs e)) ∧
  (cellMapOf gapPuz Crossword.Across !! 1 = None ↔ isOpenCell gapPuz 1 = false).
Proof.
  apply (cell_maps_name_the_entry gapFile noOpts gapPuz Crossword.Across 1).
  vm_compute. reflexivity.
Defined.

(** ** Numbers shown in the grid *)

Lemma firstCell_match e :
  firstCell e = match Puz.cells e with first :: _ => Some (Puz.index first) | [] => None end.
Proof. unfold firstCell, cellIdxs. by destruct (Puz.cells e). Qed.

Lemma setNumber_fold es : ∀ m i,
  (∀ n, foldl View.setNumber m es !! i = Some n →
        m !! i = Some n ∨ ∃ e, In e es ∧ firstCell e = Some i ∧ Puz.number e = n) ∧
  (is_Some (m !! i) ∨ (∃ e, In e es ∧ firstCell e = Some i) →
   is_Some (foldl View.setNumber m es !! i)).
Proof.
  induction es as [|e es IH]; intros m i; simpl.
  { split; [by left|]. intros [H|(e & [] & _)]; done. }
  destruct (IH (View.setNumber m e) i) as [IH1 IH2].
  assert (Hstep : ∀ n, View.setNumber m e !! i = Some n →
                       m !! i = Some n ∨ (firstCell e = Some i ∧ Puz.number e = n)).
  { intros n. unfold View.setNumber. rewrite firstCell_match.
    destruct (Puz.cells e) as [|first cs]; [by left|].
    destruct (decide (Puz.index first = i)) as [<-|Hne].
    - rewrite lookup_insert_eq. intros [= <-]. by right.
    - rewrite lookup_insert_ne by done. by left. }
  assert (Hkeep : is_Some (m !! i) ∨ firstCell e = Some i →
                  is_Some (View.setNumber m e !! i)).
  { unfold View.setNumber. rewrite firstCell_match.
    destruct (Puz.cells e) as [|first cs].
    - by intros [H|H].
    - destruct (decide (Puz.index first = i)) as [<-|Hne].
      + rewrite lookup_insert_eq. by eexists.
      + rewrite lookup_insert_ne by done. intros [H|[= H]]; done. }
  split.
  - intros n Hn. destruct (IH1 n Hn) as [H|(e' & He' & Hf & Hnum)].
    + destruct (Hstep n H) as [H'|[Hf Hnum]]; [by left|].
      right. exists e. split; [by left|done].
    + right. exists e'. split; [by right|done].
  - intros [H|(e' & [<-|He'] & Hf)]; apply IH2.
    + left. apply Hkeep. by left.
    + left. apply Hkeep. by right.
    + right. by exists e'.
Qed.

Lemma setNumberIfAbsent_fold es : ∀ m i,
  (∀ n, foldl View.setNumberIfAbsent m es !! i = Some n →
        m !! i = Some n ∨ ∃ e, In e es ∧ firstCell e = Some i ∧ Puz.number e = n) ∧
  (is_Some (m !! i) ∨ (∃ e, In e es ∧ firstCell e = Some i) →
   is_Some (foldl View.setNumberIfAbsent m es !! i)).
Proof.
  induction es as [|e es IH]; intros m i; simpl.
  { split; [by left|]. intros [H|(e & [] & _)]; done. }
  destruct (IH (View.setNumberIfAbsent m e) i) as [IH1 IH2].
  assert (Hstep : ∀ n, View.setNumberIfAbsent m e !! i = Some n →
                       m !! i = Some n ∨ (firstCell e = Some i ∧ Puz.number e = n)).
  { intros n. unfold View.setNumberIfAbsent. rewrite firstCell_match.
    destruct (Puz.cells e) as [|first cs]; [by left|].
    destruct (m !! Puz.index first) eqn:Em; [by left|].
    destruct (decide (Puz.index first = i)) as [<-|Hne].
    - rewrite lookup_insert_eq. intros [= <-]. by right.
    - rewrite lookup_insert_ne by done. by left. }
  assert (Hkeep : is_Some (m !! i) ∨ firstCell e = Some i →
                  is_Some (View.setNumberIfAbsent m e !! i)).
  { unfold View.setNumberIfAbsent. rewrite firstCell_match.
    destruct (Puz.cells e) as [|first cs].
    - by intros [H|H].
    - destruct (m !! Puz.index first) eqn:Em.
      + intros [H|[= <-]]; [done|]. rewrite Em. by eexists.
      + destruct (decide (Puz.index first = i)) as [<-|Hne].
        * rewrite lookup_insert_eq. by eexists.
        * rewrite lookup_insert_ne by done. intros [H|[= H]]; done. }
  split.
  - intros n Hn. destruct (IH1 n Hn) as [H|(e' & He' & Hf & Hnum)].
    + destruct (Hstep n H) as [H'|[Hf Hnum]]; [by left|].
      right. exists e. split; [by left|done].
    + right. exists e'. split; [by right|done].
  - intros [H|(e' & [<-|He'] & Hf)]; apply IH2.
    + left. apply Hkeep. by left.
    + left. apply Hkeep. by right.
    + right. by exists e'.
Qed.

(** X16: the number shown in a cell is the rank of the cell among the
    entry-start cells in row-major order, counted from 1; a cell where no
    entry starts shows no number.  (A down entry never overwrites the number
    an across entry has set, and would have set the same one.) *)
Theorem numberMap_shows_start_rank bytes opts p i n :
  Puz.parsePuz bytes opts = Puz.Ok p →
  View.numberMap (Some p) !! i = Some n ↔ ∃ k, startCells p !! k = Some i ∧ n = k + 1.
Proof.
  intros Hp.
  assert (Hfwd : ∀ n', View.numberMap (Some p) !! i = Some n' →
                       ∃ k, startCells p !! k = Some i ∧ n' = k + 1).
  { intros n' Hn. unfold View.numberMap in Hn.
    assert (∃ e, In e (Puz.across p ++ Puz.down p) ∧ firstCell e = Some i ∧ Puz.number e = n')
      as (e & He & Hf & Hnum).
    { destruct (setNumberIfAbsent_fold (Puz.down p)
                  (foldl View.setNumber ∅ (Puz.across p)) i) as [H1 _].
      destruct (H1 n' Hn) as [H|(e & He & Hfn)].
      - destruct (setNumber_fold (Puz.across p) ∅ i) as [H2 _].
        destruct (H2 n' H) as [H'|(e & He & Hfn)]; [by rewrite lookup_empty in H'|].
        exists e. split; [apply in_app_iff; by left|done].
      - exists e. split; [apply in_app_iff; by right|done]. }
    destruct (entry_start bytes opts p Hp e He) as (k & i' & Hk & Hf' & Hnum').
    exists k. rewrite Hf in Hf'. injection Hf' as <-. split; [done|lia]. }
  split; [apply Hfwd|].
  intros (k & Hk & ->).
  assert (is_Some (View.numberMap (Some p) !! i)) as [n' Hn'].
  { unfold View.numberMap.
    destruct (setNumberIfAbsent_fold (Puz.down p)
                (foldl View.setNumber ∅ (Puz.across p)) i) as [_ H1].
    destruct (setNumber_fold (Puz.across p) ∅ i) as [_ H2].
    destruct (startCells_lookup p k i Hk) as (_ & _ & [Hs|Hs]).
    - destruct (across_entry_at bytes opts p Hp k i Hk Hs) as (a & e & He & _ & Hf).
      apply H1. left. apply H2. right. exists e. split; [|done].
      by eapply list_elem_of_In, list_elem_of_lookup_2.
    - destruct (down_entry_at bytes opts p Hp k i Hk Hs) as (a & e & He & _ & Hf).
      apply H1. right. exists e. split; [|done].
      by eapply list_elem_of_In, list_elem_of_lookup_2. }
  rewrite Hn'. destruct (Hfwd n' Hn') as (k' & Hk' & ->).
  unfold startCells, startCellsOf in Hk, Hk'.
  by rewrite (filter_seq_lookup_inj _ _ _ _ _ _ Hk Hk').
Qed.

(** Two rows [ABC], [DEF]: cell 3 starts 4 Across. *)
Lemma numberMap_shows_start_rank_witness :
  View.numberMap (Some twoRowPuz) !! 3 = Some 4 ↔
  ∃ k, startCells twoRowPuz !! k = Some 3 ∧ 4 = k + 1.
Proof.
  apply (numberMap_shows_start_rank twoRowFile noOpts twoRowPuz 3 4). vm_compute. reflexivity.
Defined.

(** ** Highlight and clue lists *)

Lemma lineCell_same_line p dir i0 k :
  Puz.width p ≠ 0 → k < lineLen p dir →
  match dir with
  | Crossword.Across => lineCell p dir i0 k / Puz.width p = i0 / Puz.width p
  | Crossword.Down => lineCell p dir i0 k mod Puz.width p = i0 mod Puz.width p
  end.
Proof.
  intros Hw Hk. destruct dir; simpl in *.
  - by destruct (divmod_cell (Puz.width p) (i0 / Puz.width p) k Hk) as [-> _].
  - destruct (divmod_cell (Puz.width p) k (i0 mod Puz.width p)) as [_ ->]; [|done].
    by apply Nat.mod_upper_bound.
Qed.

(** X17: when the focus is on a cell of an entry of the current direction,
    every cell of that entry is highlighted (the row highlight in across
    mode, the column highlight in down mode), and the highlight of the other
    direction is off everywhere. *)
Theorem focused_entry_is_highlighted bytes opts p st f a e :
  Puz.parsePuz bytes opts = Puz.Ok p → Crossword.puz st = Some p →
  Crossword.activeIndex st = Some f →
  Crossword.entriesOf p (Crossword.mode st) !! a = Some e → In f (cellIdxs e) →
  (∀ i, In i (cellIdxs e) → highlighted (Crossword.mode st) st i = true) ∧
  (∀ i, highlighted (otherMode (Crossword.mode st)) st i = false).
Proof.
  intros Hp Hst Hf He Hin. destruct (decoded_dims bytes opts p Hp) as [Hw _].
  split.
  - intros i Hi.
    destruct (entry_span bytes opts p _ a e Hp He) as (i0 & len & Hc & Hb).
    rewrite Hc in Hin, Hi.
    apply in_map_iff in Hin as (kf & <- & Hkf%in_seq).
    apply in_map_iff in Hi as (ki & <- & Hki%in_seq).
    pose proof (lineCell_same_line p (Crossword.mode st) i0 kf Hw) as Ef.
    pose proof (lineCell_same_line p (Crossword.mode st) i0 ki Hw) as Ei.
    unfold highlighted, View.isRowHighlighted, View.isColHighlighted. rewrite Hst, Hf.
    destruct (Crossword.mode st); apply Nat.eqb_eq; rewrite Ef, Ei by lia; done.
  - intros i. unfold highlighted, View.isRowHighlighted, View.isColHighlighted.
    rewrite Hst, Hf. by destruct (Crossword.mode st).
Qed.

(** Two rows [ABC], [DEF], down mode, the focus on cell 4 of 2 Down. *)
Lemma focused_entry_is_highlighted_witness :
  let st := focused Crossword.Down 4 loadedTwoRows in
  let e := Puz.mkEntry 2 "" [Puz.mkCell 0 1 1 false "B"; Puz.mkCell 1 1 4 false "E"] in
  (∀ i, In i (cellIdxs e) → highlighted (Crossword.mode st) st i = true) ∧
  (∀ i, highlighted (otherMode (Crossword.mode st)) st i = false).
Proof.
  intros st e.
  apply (focused_entry_is_highlighted twoRowFile noOpts twoRowPuz st 4 1 e);
    [vm_compute; reflexivity | vm_compute; reflexivity | reflexivity
    | vm_compute; reflexivity | vm_compute; auto].
Defined.

Lemma reveal_insert i prev : View.reveal i prev = <[i := true]> prev.
Proof.
  unfold View.reveal. apply list_eq. intros j. rewrite list_lookup_imap.
  destruct (decide (j = i)) as [->|Hne].
  - destruct (prev !! i) as [v|] eqn:Ei; simpl.
    + rewrite Nat.eqb_refl. symmetry. apply list_lookup_insert_eq. by eapply lookup_lt_Some.
    + symmetry. apply lookup_ge_None_2. rewrite length_insert. by apply lookup_ge_None_1.
  - rewrite list_lookup_insert_ne by done.
    destruct (prev !! j); [|done]. simpl. by destruct (Nat.eqb_spec j i).
Qed.

(** X18: a click on item [i] of a clue list shows the text of that clue and
    of no other: the flags of the list change at [i] at most, where the flag
    is set, and the flags of the other list stay; a shown clue is never
    hidden again by a click.  The click also sets the direction to that of the
    list and moves the focus to the first cell of entry [i], leaving letters,
    marks and owners alone.  After a file is loaded there is one flag per
    entry and every clue is hidden. *)
Theorem clue_click_reveals_and_focuses bytes opts p st rv dir i e :
  Puz.parsePuz bytes opts = Puz.Ok p → Crossword.puz st = Some p →
  Crossword.entriesOf p dir !! i = Some e →
  let rv' := (View.onClueClick dir i rv st).1 in
  let st' := (View.onClueClick dir i rv st).2 in
  View.revealedOf dir rv' = <[i := true]> (View.revealedOf dir rv) ∧
  View.revealedOf (otherMode dir) rv' = View.revealedOf (otherMode dir) rv ∧
  (∃ f, firstCell e = Some f ∧ st' = focused dir f st) ∧
  View.revealedOf dir (View.onFile p) = replicate (length (Crossword.entriesOf p dir)) false.
Proof.
  intros Hp Hst He rv' st'. split; [|split; [|split]].
  - unfold rv', View.onClueClick. cbv zeta. simpl.
    destruct (View.revealedOf dir rv !! i) as [[]|] eqn:Ei; simpl.
    + by rewrite list_insert_id.
    + destruct dir; simpl; apply reveal_insert.
    + destruct dir; simpl; apply reveal_insert.
  - unfold rv', View.onClueClick. cbv zeta. simpl.
    destruct (default false _); [done|]. by destruct dir.
  - destruct (entry_has_first bytes opts p dir i e Hp He) as [f Hf].
    exists f. split; [done|]. unfold st', View.onClueClick. cbv zeta. simpl.
    apply (goToClue_lands p (Crossword.setMode dir st) dir (Z.of_nat i) e f); [done| |done].
    pose proof (lookup_lt_Some _ _ _ He) as Hlt.
    rewrite Z.mod_small by lia. by rewrite Nat2Z.id.
  - by destruct dir.
Qed.

(** Two rows [ABC], [DEF], just loaded: a click on the second across clue. *)
Lemma clue_click_reveals_and_focuses_witness :
  let e := Puz.mkEntry 4 "" [Puz.mkCell 1 0 3 false "D"; Puz.mkCell 1 1 4 false "E";
                             Puz.mkCell 1 2 5 false "F"] in
  let rv := View.onFile twoRowPuz in
  let rv' := (View.onClueClick Crossword.Across 1 rv loadedTwoRows).1 in
  let st' := (View.onClueClick Crossword.Across 1 rv loadedTwoRows).2 in
  View.revealedOf Crossword.Across rv' = <[1 := true]> (View.revealedOf Crossword.Across rv) ∧
  View.revealedOf (otherMode Crossword.Across) rv'
  = View.revealedOf (otherMode Crossword.Across) rv ∧
  (∃ f, firstCell e = Some f ∧ st' = focused Crossword.Across f loadedTwoRows) ∧
  View.revealedOf Crossword.Across (View.onFile twoRowPuz)
  = replicate (length (Crossword.entriesOf twoRowPuz Crossword.Across)) false.
Proof.
  intros e rv.
  apply (clue_click_reveals_and_focuses twoRowFile noOpts twoRowPuz loadedTwoRows rv
           Crossword.Across 1 e); vm_compute; reflexivity.
Defined.

(** ** A locked cell and its own events *)

(** X19: a cell marked correct rejects the events it receives itself: a text
    input and each editing key (Backspace, Delete, a letter) leave the whole
    state as it is, and no key pressed on it changes a letter, a mark or an
    owner anywhere. *)
Theorem locked_cell_ignores_its_events st j :
  Crossword.isLocked (Crossword.status st) j = true →
  (∀ v, Crossword.onCellChange j v st = st) ∧
  (∀ key, Crossword.isEditKey key = true → Crossword.onCellKeyDown j key st = st) ∧
  (∀ key, Crossword.cells (Crossword.onCellKeyDown j key st) = Crossword.cells st ∧
          Crossword.status (Crossword.onCellKeyDown j key st) = Crossword.status st ∧
          Crossword.owners (Crossword.onCellKeyDown j key st) = Crossword.owners st).
Proof.
  intros Hl. split; [|split].
  - intros v. destruct (onCellChange_arrays j v st) as (_ & _ & _ & _ & H & _). by apply H.
  - intros key Hk. unfold Crossword.onCellKeyDown. rewrite Hl, Hk.
    by destruct (Crossword.puz st).
  - intros key.
    destruct (onCellKeyDown_arrays j key st) as [H | (i & _ & Hj & _)]; [done|].
    destruct key; try (destruct Hj as [_ E]; [done|congruence]).
    unfold Crossword.onCellKeyDown. rewrite Hl. by destruct (Crossword.puz st).
Qed.

(** The one-row puzzle [ABC] with the checked letter A in cell 0. *)
Lemma locked_cell_ignores_its_events_witness :
  (∀ v, Crossword.onCellChange 0 v lockedFirstCell = lockedFirstCell) ∧
  (∀ key, Crossword.isEditKey key = true →
          Crossword.onCellKeyDown 0 key lockedFirstCell = lockedFirstCell) ∧
  (∀ key, Crossword.cells (Crossword.onCellKeyDown 0 key lockedFirstCell)
          = Crossword.cells lockedFirstCell ∧
          Crossword.status (Crossword.onCellKeyDown 0 key lockedFirstCell)
          = Crossword.status lockedFirstCell ∧
          Crossword.owners (Crossword.onCellKeyDown 0 key lockedFirstCell)
          = Crossword.owners lockedFirstCell).
Proof.
  apply (locked_cell_ignores_its_events lockedFirstCell 0). vm_compute. reflexivity.
Defined.

(** ** The earlier revision of the decoder *)

Section EarlierPasses.
Variables (w h : nat) (grid : list Puz.Cell).

#[local] Abbreviation fa := (fun i => openAt grid i && acrossStartAt w h grid i).
#[local] Abbreviation fd := (fun i => openAt grid i && downStartAt w h grid i).

Lemma forCells_row {St} (body : St → nat → nat → St) st r :
  foldl (fun st c => body st r c) st (seq 0 w)
  = foldl (fun st i => body st (i / w) (i mod w)) st (seq (r * w) w).
Proof.
  rewrite (foldl_ext_in _ (fun st i => body st (i / w) (i mod w)) (fun c => r * w + c)).
  - f_equal. pose proof (fmap_add_seq (r * w) 0 w) as E.
    rewrite Nat.add_0_r in E. exact E.
  - intros a c Hc%in_seq. destruct (divmod_cell w r c) as [-> ->]; [lia|done].
Qed.

Lemma forCells_rows {St} (body : St → nat → nat → St) n st :
  foldl (fun st r => foldl (fun st c => body st r c) st (seq 0 w)) st (seq 0 n)
  = foldl (fun st i => body st (i / w) (i mod w)) st (seq 0 (n * w)).
Proof.
  induction n as [|n IH]; [done|].
  rewrite seq_S, foldl_app. simpl foldl at 1. rewrite IH, forCells_row.
  replace (S n * w) with (n * w + w) by lia.
  by rewrite seq_app, foldl_app.
Qed.

(** The double loop visits the cell indices in ascending order. *)
Lemma forCells_by_index {St} (body : St → nat → nat → St) init :
  PuzV1.forCells w h body init
  = foldl (fun st i => body st (i / w) (i mod w)) init (seq 0 (h * w)).
Proof. apply forCells_rows. Qed.

Lemma foldl_push {A B} (f : A → bool) (g : A → B) l : ∀ init,
  foldl (fun acc i => if f i then acc ++ [g i] else acc) init l
  = init ++ map g (List.filter f l).
Proof.
  induction l as [|i l IH]; intros init; simpl; [by rewrite app_nil_r|].
  rewrite IH. destruct (f i); [|done]. simpl. by rewrite <- app_assoc.
Qed.

Lemma starts_pass :
  PuzV1.forCells w h (PuzV1.startsCell w h grid) (PuzV1.mkStarts [] [])
  = PuzV1.mkStarts (acrossStarts w h grid) (downStarts w h grid).
Proof.
  rewrite forCells_by_index. unfold acrossStarts, downStarts.
  assert (∀ l st,
            foldl (fun st i => PuzV1.startsCell w h grid st (i / w) (i mod w)) st l
            = PuzV1.mkStarts (PuzV1.acrossStarts st ++ List.filter fa l)
                (PuzV1.downStarts st ++ List.filter fd l)) as H.
  { induction l as [|i l IH]; intros st; simpl.
    - rewrite !app_nil_r. by destruct st.
    - rewrite IH. unfold PuzV1.startsCell. rewrite cell_index_eq.
      unfold openAt, acrossStartAt, downStartAt.
      destruct (Puz.isBlock (Puz.cellAt grid i)); simpl; [done|].
      destruct (Puz.startsAcrossAt w h grid (i / w) (i mod w)),
               (Puz.startsDownAt w h grid (i / w) (i mod w)); simpl;
        by rewrite <- ?app_assoc. }
  by rewrite H.
Qed.

Lemma isAt_filter (f : nat → bool) N n :
  n < N →
  PuzV1.isAt (List.filter f (seq 0 N)) (length (List.filter f (seq 0 n))) n = f n.
Proof.
  intros Hn. unfold PuzV1.isAt.
  replace N with (n + S (N - S n)) by lia.
  rewrite seq_app, List.filter_app. simpl seq. simpl List.filter.
  set (pre := List.filter f (seq 0 n)). set (post := List.filter f (seq (S n) (N - S n))).
  destruct (f n) eqn:Ef.
  - rewrite length_app. simpl.
    destruct (Nat.ltb_spec (length pre) (length pre + S (length post))); [|lia].
    rewrite lookup_app_r by lia. rewrite Nat.sub_diag. simpl. by rewrite Nat.eqb_refl.
  - rewrite lookup_app_r by lia. rewrite Nat.sub_diag.
    destruct (post !! 0) as [j|] eqn:Ej; [|by rewrite andb_false_r].
    assert (In j post) as Hj by (by eapply list_elem_of_In, list_elem_of_lookup_2).
    apply filter_In in Hj as [Hj%in_seq _].
    destruct (Nat.eqb_spec j n); [lia|]. by rewrite andb_false_r.
Qed.

Lemma numbering_pass n :
  n ≤ h * w →
  numbered w h grid (seq 0 n)
    (foldl (fun st i => PuzV1.numberCell w grid
                          (PuzV1.mkStarts (acrossStarts w h grid) (downStarts w h grid))
                          st (i / w) (i mod w))
       (PuzV1.mkNumbering ∅ 1 0 0) (seq 0 n)).
Proof.
  induction n as [|n IH]; intros Hn.
  { split; done. }
  destruct IH as [Hnext Hai Hdi Hmap]; [lia|].
  rewrite seq_S, foldl_app. simpl.
  set (st := foldl _ _ (seq 0 n)) in *.
  unfold PuzV1.numberCell. rewrite cell_index_eq. simpl.
  rewrite Hai, Hdi. unfold acrossStarts, downStarts.
  rewrite !isAt_filter by lia.
  assert (Hs : startCellsOf w h grid (seq 0 n ++ [n])
               = startCellsOf w h grid (seq 0 n)
                 ++ (if isStartCell w h grid n then [n] else [])).
  { unfold startCellsOf. rewrite List.filter_app. simpl.
    by destruct (isStartCell w h grid n). }
  assert (Hst : isStartCell w h grid n
                = openAt grid n && (acrossStartAt w h grid n || downStartAt w h grid n))
    by done.
  unfold openAt in *.
  destruct (Puz.isBlock (Puz.cellAt grid n)) eqn:Eb; simpl in *.
  { rewrite Hst in Hs. rewrite app_nil_r in Hs.
    split; rewrite ?Hs, ?List.filter_app; simpl; unfold openAt; rewrite ?Eb; simpl;
      rewrite ?app_nil_r; done. }
  destruct (acrossStartAt w h grid n) eqn:Ea, (downStartAt w h grid n) eqn:Ed;
    simpl in *; rewrite Hst in Hs; rewrite ?app_nil_r in Hs;
    (split; rewrite ?Hs, ?List.filter_app; simpl; unfold openAt; rewrite ?Eb; simpl;
     rewrite ?Ea, ?Ed, ?app_nil_r, ?length_app;
     simpl;
     first
       [ lia | done
       | intros k i Hk;
         destruct (decide (k < length (startCellsOf w h grid (seq 0 n)))) as [Hlt|Hge];
         [ rewrite lookup_app_l in Hk by done;
           assert (i ≠ n)
             by (apply list_elem_of_lookup_2, list_elem_of_In, filter_In in Hk
                   as [Hi%in_seq _]; lia);
           rewrite lookup_insert_ne by done; by apply Hmap
         | rewrite lookup_app_r in Hk by lia;
           destruct (k - length (startCellsOf w h grid (seq 0 n))) as [|k'] eqn:Ek;
           [ injection Hk as <-; rewrite lookup_insert_eq, Hnext; f_equal; lia
           | by destruct k' ] ] ]).
Qed.

Lemma entries_pass (F : nat → Puz.ClueEntry) (f : nat → bool) body :
  (∀ acc i, body acc (i / w) (i mod w) = if f i then acc ++ [F i] else acc) →
  PuzV1.forCells w h body [] = map F (List.filter f (seq 0 (h * w))).
Proof.
  intros Hb. rewrite forCells_by_index.
  rewrite (foldl_ext_in _ (fun acc i => if f i then acc ++ [F i] else acc) id).
  - rewrite map_id. apply (foldl_push f F).
  - intros acc i _. apply Hb.
Qed.

Lemma filter_view (P : nat → bool) (g : nat → bool) :
  (∀ i, isStartCell w h grid i && P i = g i) →
  List.filter g (seq 0 (h * w))
  = map snd (List.filter (fun ni => P ni.2) (numberedOf w h grid (seq 0 (h * w)))).
Proof.
  intros Hg. unfold numberedOf. rewrite snd_filter_imap by done.
  unfold startCellsOf. rewrite filter_filter_and. apply List.filter_ext. intros i.
  by rewrite Hg.
Qed.

(** The separate passes find the entries of the single scan. *)
Lemma entries_scan :
  PuzV1.entries w h grid = (Puz.scAcross (Puz.scan w h grid), Puz.scDown (Puz.scan w h grid)).
Proof.
  unfold PuzV1.entries. rewrite starts_pass. cbv zeta.
  set (num := PuzV1.forCells w h (PuzV1.numberCell w grid _) _).
  assert (numbered w h grid (seq 0 (h * w)) num) as [_ _ _ Hmap].
  { unfold num. rewrite forCells_by_index. by apply numbering_pass. }
  assert (Hnum : ∀ ni, In ni (numberedOf w h grid (seq 0 (h * w))) →
                       PuzV1.numberOf (PuzV1.numbering num) ni.2 = ni.1).
  { intros [n i] Hin. unfold numberedOf in Hin.
    apply list_elem_of_In, list_elem_of_lookup in Hin as [k Hk].
    rewrite list_lookup_imap in Hk.
    destruct (startCellsOf w h grid (seq 0 (h * w)) !! k) as [i'|] eqn:Ei; [|done].
    simpl in Hk. injection Hk as <- <-. unfold PuzV1.numberOf. simpl.
    by rewrite (Hmap k i' Ei). }
  f_equal.
  - rewrite (entries_pass
               (fun i => Puz.mkEntry (PuzV1.numberOf (PuzV1.numbering num) i) ""
                           (Puz.acrossCells w h grid (i / w) (i mod w))) fa).
    2:{ intros acc i. unfold PuzV1.acrossCell, openAt, acrossStartAt.
        rewrite cell_index_eq.
        destruct (Puz.isBlock (Puz.cellAt grid i)); [done|]. simpl.
        by destruct (Puz.startsAcrossAt w h grid (i / w) (i mod w)). }
    rewrite (sc_across _ _ _ _ _ (scanned_scan w h grid)).
    rewrite (filter_view (acrossStartAt w h grid) fa) by apply isStart_across.
    rewrite map_map. apply map_ext_in. intros ni Hni%filter_In.
    destruct Hni as [Hni _]. unfold acrossEntry. by rewrite (Hnum ni Hni).
  - rewrite (entries_pass
               (fun i => Puz.mkEntry (PuzV1.numberOf (PuzV1.numbering num) i) ""
                           (Puz.downCells w h grid (i / w) (i mod w))) fd).
    2:{ intros acc i. unfold PuzV1.downCell, openAt, downStartAt.
        rewrite cell_index_eq.
        destruct (Puz.isBlock (Puz.cellAt grid i)); [done|]. simpl.
        by destruct (Puz.startsDownAt w h grid (i / w) (i mod w)). }
    rewrite (sc_down _ _ _ _ _ (scanned_scan w h grid)).
    rewrite (filter_view (downStartAt w h grid) fd) by apply isStart_down.
    rewrite map_map. apply map_ext_in. intros ni Hni%filter_In.
    destruct Hni as [Hni _]. unfold downEntry. by rewrite (Hnum ni Hni).
Qed.
End EarlierPasses.

Lemma clueOrEmpty_default raw k : PuzV1.clueOrEmpty raw k = default ""%string (raw !! k).
Proof. unfold PuzV1.clueOrEmpty. by destruct (raw !! k) as [[|]|]. Qed.

Lemma entry_eq (e1 e2 : Puz.ClueEntry) :
  Puz.number e1 = Puz.number e2 → Puz.clue e1 = Puz.clue e2 → Puz.cells e1 = Puz.cells e2 →
  e1 = e2.
Proof. destruct e1, e2. simpl. by intros -> -> ->. Qed.

(** Under the across-down order the later revision hands out the clues as
    the earlier one does. *)
Lemma across_down_clues w h grid raw :
  let sc := Puz.scan w h grid in
  let a := Puz.buildEntries w h grid raw Puz.across_down in
  Puz.asAcross a = imap (fun i e => Puz.setClue (PuzV1.clueOrEmpty raw i) e) (Puz.scAcross sc) ∧
  Puz.asDown a
  = imap (fun i e => Puz.setClue (PuzV1.clueOrEmpty raw (length (Puz.scAcross sc) + i)) e)
      (Puz.scDown sc).
Proof.
  intros sc a.
  destruct (buildEntries_shape w h grid raw Puz.across_down) as (Hna & Hca & Hnd & Hcd).
  destruct (buildEntries_length w h grid raw Puz.across_down) as (Hla & Hld).
  destruct (buildEntries_clues w h grid raw Puz.across_down) as (_ & Hclue).
  fold a in Hna, Hca, Hnd, Hcd, Hla, Hld, Hclue. fold sc in Hna, Hca, Hnd, Hcd, Hla, Hld.
  simpl in Hclue.
  assert (Hrow : ∀ (es es' : list Puz.ClueEntry) (off : nat),
            map Puz.number es = map Puz.number es' → map Puz.cells es = map Puz.cells es' →
            (∀ i e, es !! i = Some e → Puz.clue e = default ""%string (raw !! (off + i))) →
            es = imap (fun i e => Puz.setClue (PuzV1.clueOrEmpty raw (off + i)) e) es').
  { intros es es' off Hn Hc Hcl. apply list_eq. intros i. rewrite list_lookup_imap.
    apply (f_equal (fun l => l !! i)) in Hn, Hc.
    rewrite !map_lookup in Hn. rewrite !map_lookup in Hc.
    destruct (es !! i) as [e|] eqn:Ee, (es' !! i) as [e'|] eqn:Ee'; simpl in *; try done.
    f_equal. injection Hn as Hn. injection Hc as Hc.
    apply entry_eq; simpl; try done. rewrite clueOrEmpty_default. by apply Hcl. }
  split.
  - apply (Hrow _ _ 0 Hna Hca). intros i e Hi.
    pose proof (lookup_lt_Some _ _ _ Hi) as Hlt.
    specialize (Hclue i (inl i)). simpl in Hclue. rewrite Hi in Hclue. simpl in Hclue.
    assert (Some (Puz.clue e) = Some (default ""%string (raw !! i))) as [= ->]; [|done].
    apply Hclue. rewrite lookup_app_l by (by rewrite length_map, length_seq).
    by rewrite map_lookup, lookup_seq_lt.
  - rewrite <- Hla. apply (Hrow _ _ _ Hnd Hcd). intros i e Hi.
    pose proof (lookup_lt_Some _ _ _ Hi) as Hlt.
    specialize (Hclue (length (Puz.asAcross a) + i) (inr i)). simpl in Hclue.
    rewrite Hi in Hclue. simpl in Hclue.
    assert (Some (Puz.clue e)
            = Some (default ""%string (raw !! (length (Puz.asAcross a) + i)))) as [= ->];
      [|done].
    apply Hclue. rewrite lookup_app_r by (rewrite length_map, length_seq; lia).
    rewrite length_map, length_seq.
    replace (length (Puz.asAcross a) + i - length (Puz.asAcross a)) with i by lia.
    by rewrite map_lookup, lookup_seq_lt.
Qed.

(** X20: the earlier revision of [parsePuz] agrees with the later one run
    with the across-down order, except for its guard: it throws what the later
    one throws, it throws "not enough clues for grid" when the later one
    returns a puzzle with fewer raw clues than entries, and otherwise it
    returns the same width, height, texts, grid, raw clues and entry lists
    (numbers, clue texts and cells).  So its three separate passes with the
    [ai]/[di] pointers find the entries and numbers of the single scan, and
    [numbering.get(idx)!] never misses. *)
Theorem earlier_revision_agrees bytes :
  PuzV1.parsePuz bytes =
  match Puz.parsePuz bytes acrossThenDown with
  | Puz.Err e => PuzV1.Err (PuzV1.Thrown e)
  | Puz.Ok p =>
      if length (Puz.cluesRaw p) <? length (Puz.across p) + length (Puz.down p)
      then PuzV1.Err PuzV1.NotEnoughClues
      else PuzV1.Ok (withoutOrder p)
  end.
Proof.
  unfold PuzV1.parsePuz, Puz.parsePuz.
  destruct (Puz.getUint8 bytes Puz.OFFSET_WIDTH) as [w|]; [|done].
  destruct (Puz.getUint8 bytes Puz.OFFSET_HEIGHT) as [h|]; [|done].
  destruct (Puz.getUint16 bytes Puz.OFFSET_NUM_CLUES) as [n|]; [|done].
  cbn [mbind Puz.result_bind PuzV1.result_bind PuzV1.thrown].
  destruct (_ || _); [done|]. destruct (_ <? _); [done|].
  destruct (Puz.readNullTerminated bytes _) as [[t c1]|]; [|done].
  cbn [mbind Puz.result_bind PuzV1.result_bind PuzV1.thrown].
  destruct (Puz.readNullTerminated bytes c1) as [[au c2]|]; [|done].
  cbn [mbind Puz.result_bind PuzV1.result_bind PuzV1.thrown].
  destruct (Puz.readNullTerminated bytes c2) as [[co c3]|]; [|done].
  cbn [mbind Puz.result_bind PuzV1.result_bind PuzV1.thrown].
  destruct (Puz.readClues bytes n c3 []) as [[raw c4]|]; [|done].
  cbn [mbind Puz.result_bind PuzV1.result_bind PuzV1.thrown].
  set (grid := Puz.buildGrid w (w * h) _).
  rewrite entries_scan.
  cbn [Puz.cluesRaw Puz.across Puz.down default Puz.optClueOrder acrossThenDown].
  change (id Puz.across_down) with Puz.across_down.
  destruct (buildEntries_length w h grid raw Puz.across_down) as (-> & ->).
  destruct (_ <? _); [done|].
  destruct (across_down_clues w h grid raw) as (Ha & Hd).
  cbv zeta in Ha, Hd. by rewrite Ha, Hd.
Qed.

(** ** The teams panel *)

Lemma wellNumbered_setTeams f pn :
  (∀ l, map Crossword.id (f l) = map Crossword.id l) →
  wellNumbered pn → wellNumbered (Teams.setTeams f pn).
Proof.
  intros Hf (Hids & Hnext & Hsel).
  assert (length (f (Teams.teams pn)) = length (Teams.teams pn)) as Hlen.
  { rewrite <- (length_map Crossword.id (f _)), Hf. apply length_map. }
  unfold wellNumbered. simpl. rewrite Hf, Hlen. do 2 (split; [done|]).
  destruct (Teams.selectedTeamId pn); [done|].
  apply nil_length_inv. rewrite Hlen, Hsel. done.
Qed.

Lemma map_id_edit (g : Crossword.Team → Crossword.Team) (P : Crossword.Team → bool) l :
  (∀ tm, Crossword.id (g tm) = Crossword.id tm) →
  map Crossword.id (map (fun tm => if P tm then g tm else tm) l) = map Crossword.id l.
Proof.
  intros Hg. rewrite map_map. apply map_ext. intros tm. by destruct (P tm).
Qed.

(** X21: the teams of the panel carry the ids 1, 2, 3, ... in the order in
    which they were added, so no two teams share an id; the next id is one
    past the last; and as soon as there is a team, the selected team is one
    of the list.  This holds at the start and is kept by every event of the
    panel: adding a team (which gets the next id, becomes the selected team
    and never gets an empty name), clicking a team, editing a name or a
    colour, and the form's inputs and buttons. *)
Theorem team_ids_stay_sequential pn ev :
  wellNumbered pn → Teams.enabled pn ev →
  let pn' := Teams.handle ev pn in
  wellNumbered pn' ∧ List.NoDup (map Crossword.id (Teams.teams pn')) ∧
  (ev = Teams.Submit →
   ∃ t, Teams.teams pn' = Teams.teams pn ++ [t] ∧ Crossword.id t = Teams.nextTeamId pn ∧
        Crossword.name t ≠ ""%string ∧ Crossword.color t = Teams.newTeamColor pn ∧
        Teams.selectedTeamId pn' = Some (Crossword.id t)).
Proof.
  intros Hwn Hen pn'.
  assert (wellNumbered pn') as Hwn'.
  { destruct Hwn as (Hids & Hnext & Hsel). unfold pn'.
    destruct ev; simpl in *; try done.
    - unfold wellNumbered. simpl. rewrite map_app, length_app, Hids, Hnext. simpl.
      split; [by rewrite Nat.add_1_r, seq_S|]. split; [lia|].
      apply in_app_iff. right. by left.
    - unfold Teams.onTeamClick. destruct (Teams.isSelected t pn); [done|].
      unfold wellNumbered. simpl. do 2 (split; [done|]). by apply in_map.
    - apply wellNumbered_setTeams; [|done]. intros l. by apply map_id_edit.
    - apply wellNumbered_setTeams; [|done]. intros l. by apply map_id_edit. }
  split; [done|]. split.
  - destruct Hwn' as (-> & _). apply NoDup_ListNoDup, NoDup_seq.
  - intros ->. unfold pn'. simpl. eexists. split; [reflexivity|]. simpl.
    split; [done|]. split; [|done].
    by destruct (Teams.trim (Teams.newTeamName pn)).
Qed.

(** The first team added to the empty panel, the name left blank. *)
Lemma team_ids_stay_sequential_witness :
  let pn' := Teams.handle Teams.Submit (Teams.onNewName "  " Teams.initial) in
  wellNumbered pn' ∧ List.NoDup (map Crossword.id (Teams.teams pn')) ∧
  (Teams.Submit = Teams.Submit →
   ∃ t, Teams.teams pn' = Teams.teams (Teams.onNewName "  " Teams.initial) ++ [t] ∧
        Crossword.id t = Teams.nextTeamId (Teams.onNewName "  " Teams.initial) ∧
        Crossword.name t ≠ ""%string ∧
        Crossword.color t = Teams.newTeamColor (Teams.onNewName "  " Teams.initial) ∧
        Teams.selectedTeamId pn' = Some (Crossword.id t)).
Proof.
  apply (team_ids_stay_sequential (Teams.onNewName "  " Teams.initial) Teams.Submit).
  - by vm_compute.
  - reflexivity.
Defined.

Lemma find_by_id (teams : list Crossword.Team) t :
  List.NoDup (map Crossword.id teams) → In t teams →
  List.find (fun tm => Crossword.id tm =? Crossword.id t) teams = Some t.
Proof.
  induction teams as [|tm teams IH]; intros Hnd Hin; [done|].
  simpl in *. inversion Hnd as [|? ? Hnotin Hnd']; subst.
  destruct Hin as [->|Hin]; [by rewrite Nat.eqb_refl|].
  destruct (Nat.eqb_spec (Crossword.id tm) (Crossword.id t)) as [E|_]; [|by apply IH].
  exfalso. apply Hnotin. rewrite E. by apply in_map.
Qed.

(** X22: with teams numbered as the panel numbers them, a cell owned by a
    team of the list is drawn in that team's current colour (the default
    colour if the team's colour is the empty string); a cell without owner,
    or whose owner is no team of the list, is drawn in the default colour. *)
Theorem owned_cells_take_team_colour pn :
  wellNumbered pn →
  (∀ t, In t (Teams.teams pn) →
        Teams.getTeamColor (Teams.teams pn) (Some (Crossword.id t))
        = if Js.isEmpty (Crossword.color t) then "var(--foreground)"%string
          else Crossword.color t) ∧
  (∀ i, ¬ In i (map Crossword.id (Teams.teams pn)) →
        Teams.getTeamColor (Teams.teams pn) (Some i) = "var(--foreground)"%string) ∧
  Teams.getTeamColor (Teams.teams pn) None = "var(--foreground)"%string.
Proof.
  intros (Hids & _). split; [|split; [|done]].
  - intros t Ht. unfold Teams.getTeamColor. rewrite find_by_id; [done| |done].
    rewrite Hids. apply NoDup_ListNoDup, NoDup_seq.
  - intros i Hi. unfold Teams.getTeamColor.
    destruct (List.find _ _) as [t|] eqn:Ef; [|done].
    apply find_some in Ef as [Ht E%Nat.eqb_eq]. exfalso. apply Hi. rewrite <- E.
    by apply in_map.
Qed.

(** Two teams, the colour of the second changed afterwards. *)
Lemma owned_cells_take_team_colour_witness :
  let pn := Teams.onColorChange (Crossword.mkTeam 2 "B" "#2d7ff9") "#00aa00"
              (Teams.onSubmit (Teams.onNewName "B" (Teams.onSubmit Teams.initial))) in
  (∀ t, In t (Teams.teams pn) →
        Teams.getTeamColor (Teams.teams pn) (Some (Crossword.id t))
        = if Js.isEmpty (Crossword.color t) then "var(--foreground)"%string
          else Crossword.color t) ∧
  (∀ i, ¬ In i (map Crossword.id (Teams.teams pn)) →
        Teams.getTeamColor (Teams.teams pn) (Some i) = "var(--foreground)"%string) ∧
  Teams.getTeamColor (Teams.teams pn) None = "var(--foreground)"%string.
Proof.
  intros pn. apply (owned_cells_take_team_colour pn). vm_compute. auto.
Defined.

(** ** Owners and the score table *)

Lemma correctCells_pos status owners t :
  0 < correctCells status owners t → ∃ i, ownerAt owners i = Some t.
Proof.
  unfold correctCells. intros Hpos.
  destruct (List.filter _ _) as [|i l] eqn:Ef; [simpl in Hpos; lia|].
  assert (In i (i :: l)) as Hin by (by left). rewrite <- Ef in Hin.
  apply filter_In in Hin as [_ [_ Ho]%andb_true_iff].
  exists i. rewrite ownedBy_ownerAt in Ho.
  destruct (ownerAt owners i) as [o|]; [|done]. by apply Nat.eqb_eq in Ho as ->.
Qed.

(** X23: if every owner recorded in the grid and the selected team are teams
    of the list, this stays so under text input, key presses, clue navigation,
    the check and loading a file, and then the score table has exactly one
    row per team: no score is counted for an id that is no team. *)
Theorem score_table_has_the_teams st :
  ownersKnown st →
  (∀ idx value, ownersKnown (Crossword.onCellChange idx value st)) ∧
  (∀ idx key, ownersKnown (Crossword.onCellKeyDown idx key st)) ∧
  (∀ dir k, ownersKnown (Crossword.goToClue dir k st)) ∧
  ownersKnown (Crossword.checkPuzzle st) ∧
  (∀ bytes opts, ownersKnown (Crossword.onFile bytes opts st)) ∧
  (∀ t, is_Some (scoresOf st !! t) ↔ In t (map Crossword.id (Crossword.teams st))).
Proof.
  intros [Hown Hsel]. split; [|split; [|split; [|split; [|split]]]].
  - intros idx value.
    destruct (onCellChange_arrays idx value st) as (_ & _ & Ht & Hs & _).
    split; rewrite Ht; [|by rewrite Hs].
    intros i t.
    destruct (onCellChange_pointwise idx value st i) as [(_ & _ & ->) | (_ & _ & _ & -> & _)].
    + apply Hown.
    + destruct (Js.isEmpty _); [done|]. apply Hsel.
  - intros idx key.
    destruct (fixedPart_eq _ _ (fixed_onCellKeyDown idx key st)) as (_ & Ht & Hs).
    split; rewrite Ht; [|by rewrite Hs].
    intros i t.
    destruct (onCellKeyDown_pointwise idx key st i) as [(_ & _ & ->) | (_ & _ & ->)];
      [apply Hown|done].
  - intros dir k.
    destruct (fixedPart_eq _ _ (fixed_goToClue dir k st)) as (_ & Ht & Hs).
    destruct (goToClue_keeps_letters dir k st) as (_ & _ & Ho).
    split; rewrite Ht; [by rewrite Ho|by rewrite Hs].
  - unfold Crossword.checkPuzzle. by destruct (Crossword.puz st).
  - intros bytes opts. unfold Crossword.onFile.
    destruct (Puz.parsePuz bytes opts); [|done]. split; simpl; [|done].
    intros i t. unfold ownerAt. by rewrite blank_read.
  - intros t. unfold scoresOf. rewrite scores_lookup. rewrite <- knownTeam_In.
    destruct (knownTeam (Crossword.teams st) t) eqn:Ek; simpl.
    + split; [done|]. by eexists.
    + destruct (Nat.ltb_spec 0 (correctCells (Crossword.status st) (Crossword.owners st) t))
        as [Hpos|_].
      * destruct (correctCells_pos _ _ _ Hpos) as [i Hi].
        apply Hown, knownTeam_In in Hi. congruence.
      * split; [by intros [? ?]|done].
Qed.

(** The one-row puzzle with the checked letter A of team 1 in cell 0. *)
Lemma score_table_has_the_teams_witness :
  (∀ idx value, ownersKnown (Crossword.onCellChange idx value lockedFirstCell)) ∧
  (∀ idx key, ownersKnown (Crossword.onCellKeyDown idx key lockedFirstCell)) ∧
  (∀ dir k, ownersKnown (Crossword.goToClue dir k lockedFirstCell)) ∧
  ownersKnown (Crossword.checkPuzzle lockedFirstCell) ∧
  (∀ bytes opts, ownersKnown (Crossword.onFile bytes opts lockedFirstCell)) ∧
  (∀ t, is_Some (scoresOf lockedFirstCell !! t)
        ↔ In t (map Crossword.id (Crossword.teams lockedFirstCell))).
Proof.
  apply (score_table_has_the_teams lockedFirstCell). split.
  - intros [|[|[|i]]] t; vm_compute; intros [= <-]; auto.
  - intros s. vm_compute. intros [= <-]. auto.
Defined.

(** ** The focus *)




